(** * QGIS MCP secure command channel: a shallow embedding.

    The development follows the plugin's modules:
    - [Sandbox]   : [security_improved.ImprovedCodeSandbox]
    - [RateLimit] : [security_improved.ImprovedRateLimiter]
    - [PathValidator] : [security_improved.EnhancedPathValidator]
    - [Dispatch]  : [qgis_mcp_server_secure.SecureQGISMCPServer._process_message]
    - [Protocol]  : [protocol.ProtocolHandler] and [protocol.BufferedProtocolHandler]
    - [Async]     : [async_executor.AsyncCommandExecutor] and [AsyncOperationManager]

    Clock readings ([time.time()]) are passed in as rationals; library
    functions outside the repository ([ast.parse], [msgpack], [json],
    [jsonschema.validate]) are section variables. *)

From Stdlib Require Import ZArith QArith Qround Lqa Lia List Bool Ascii DecimalString.
From stdpp Require Import gmap strings list fin_maps.

Local Open Scope Z_scope.
Set Warnings "-register-all".

(* ===================================================================== *)
(** ** The code sandbox                                                   *)
(* ===================================================================== *)

Module Sandbox.

(** The part of Python's [ast] node classes that the validator looks into
    is given its own constructors; every other class is an [Other] node
    carrying its class name and its child nodes in field order. *)

Inductive expr_context := Load | Store | Del.

Record alias := mk_alias { alias_name : string; alias_asname : option string }.

Inductive node :=
| Import (lineno : Z) (names : list alias)
| ImportFrom (lineno : Z) (module : option string) (names : list alias)
| Call (lineno : Z) (func : node) (args : list node) (keywords : list node)
| Attribute (lineno : Z) (value : node) (attr : string) (ctx : expr_context)
| Name (lineno : Z) (id : string) (ctx : expr_context)
| AliasNode (a : alias)
| Context (c : expr_context)
| Other (cls : string) (lineno : option Z) (body : list node).

(** [type(node).__name__] *)
Definition type_name (n : node) : string :=
  match n with
  | Import _ _ => "Import"
  | ImportFrom _ _ _ => "ImportFrom"
  | Call _ _ _ _ => "Call"
  | Attribute _ _ _ _ => "Attribute"
  | Name _ _ _ => "Name"
  | AliasNode _ => "alias"
  | Context Load => "Load"
  | Context Store => "Store"
  | Context Del => "Del"
  | Other cls _ _ => cls
  end.

(** [getattr(node, 'lineno', '?')] *)
Definition node_lineno (n : node) : option Z :=
  match n with
  | Import l _ | ImportFrom l _ _ | Call l _ _ _ | Attribute l _ _ _ | Name l _ _ => Some l
  | AliasNode _ | Context _ => None
  | Other _ l _ => l
  end.

(** [ast.iter_child_nodes] *)
Definition children (n : node) : list node :=
  match n with
  | Import _ names => map AliasNode names
  | ImportFrom _ _ names => map AliasNode names
  | Call _ f args kws => f :: args ++ kws
  | Attribute _ v _ c => [v; Context c]
  | Name _ _ c => [Context c]
  | AliasNode _ => []
  | Context _ => []
  | Other _ _ body => body
  end.

Fixpoint size (n : node) : nat :=
  match n with
  | Import _ names => S (length names)
  | ImportFrom _ _ names => S (length names)
  | Call _ f args kws => S (size f + list_sum (map size args) + list_sum (map size kws))
  | Attribute _ v _ _ => S (size v + 1)
  | Name _ _ _ => 2%nat
  | AliasNode _ => 1%nat
  | Context _ => 1%nat
  | Other _ _ body => S (list_sum (map size body))
  end.

Definition forest_size (l : list node) : nat := list_sum (map size l).

(** [ast.walk]: breadth-first, a queue of nodes still to yield.  The
    [while todo] loop is run on fuel; [None] is the loop not finishing. *)
Fixpoint walk_queue (fuel : nat) (todo : list node) : option (list node) :=
  match todo with
  | [] => Some []
  | n :: rest =>
      match fuel with
      | O => None
      | S fuel' => cons n <$> walk_queue fuel' (rest ++ children n)
      end
  end.

Definition walk (tree : node) : option (list node) :=
  walk_queue (size tree) [tree].

Definition ALLOWED_NODES : list string :=
  [ "Module"; "Expr"; "Assign"; "AnnAssign"; "AugAssign";
    "Name"; "Constant"; "Num"; "Str"; "Bytes";
    "List"; "Tuple"; "Set"; "Dict";
    "BinOp"; "UnaryOp"; "Compare"; "BoolOp";
    "IfExp"; "If"; "For"; "While"; "Break"; "Continue";
    "FunctionDef"; "Return"; "Pass";
    "Call"; "Attribute"; "Subscript"; "Index"; "Slice";
    "ListComp"; "DictComp"; "SetComp"; "GeneratorExp";
    "comprehension";
    "Load"; "Store"; "Del";
    "Add"; "Sub"; "Mult"; "Div"; "FloorDiv"; "Mod"; "Pow";
    "LShift"; "RShift"; "BitOr"; "BitXor"; "BitAnd";
    "And"; "Or"; "Not"; "Invert"; "UAdd"; "USub";
    "Eq"; "NotEq"; "Lt"; "LtE"; "Gt"; "GtE";
    "Is"; "IsNot"; "In"; "NotIn";
    "arg"; "arguments"; "keyword" ].

Definition ALLOWED_MODULES : list (string * list string) :=
  [ ("qgis.core",
      [ "QgsProject"; "QgsVectorLayer"; "QgsRasterLayer"; "QgsFeature";
        "QgsGeometry"; "QgsPoint"; "QgsPointXY"; "QgsRectangle";
        "QgsCoordinateReferenceSystem"; "QgsCoordinateTransform";
        "QgsField"; "QgsFields"; "QgsExpression"; "QgsFeatureRequest";
        "QgsWkbTypes"; "QgsLayerTreeLayer"; "QgsLayerTreeGroup";
        "QgsMapLayer"; "QgsVectorFileWriter"; "QgsRasterFileWriter" ]);
    ("qgis.utils", [ "iface" ]);
    ("PyQt5.QtCore", [ "QVariant"; "Qt"; "QDateTime"; "QDate"; "QTime" ]);
    ("PyQt5.QtGui", [ "QColor" ]) ].

Definition DANGEROUS_ATTRS : list string :=
  [ "__builtins__"; "__globals__"; "__locals__"; "__dict__";
    "__class__"; "__bases__"; "__subclasses__"; "__import__";
    "__code__"; "__closure__"; "__func__"; "__self__";
    "func_globals"; "func_code"; "gi_frame"; "gi_code" ].

Definition DANGEROUS_FUNCTIONS : list string :=
  [ "eval"; "exec"; "compile"; "__import__";
    "open"; "input"; "exit"; "quit";
    "help"; "vars"; "dir"; "globals"; "locals";
    "getattr"; "setattr"; "delattr"; "hasattr";
    "breakpoint"; "memoryview"; "bytearray" ].

(** [SecurityException], one constructor per [raise] site of the sandbox. *)
Inductive SecurityException :=
| CodeTooLong (max_len : Z)
| InvalidSyntax (msg : string)
| DisallowedOperation (cls : string) (line : option Z)
| ImportNotAllowed (what : string) (line : Z)
| WildcardImport (line : Z)
| DangerousFunctionCall (fn : string) (line : Z)
| DangerousMethodCall (attr : string) (line : Z)
| DangerousAttributeAccess (attr : string) (line : Z)
| DangerousName (id : string) (line : Z).

(** A validator either raises or falls through. *)
Definition raises := option SecurityException.

Definition and_then (r : raises) (k : raises) : raises :=
  match r with Some e => Some e | None => k end.

Notation "r ;;; k" := (and_then r k) (at level 100, k at level 200, right associativity).

(** Lookup in the [ALLOWED_MODULES] dict. *)
Fixpoint modules_get (m : string) (tbl : list (string * list string)) : option (list string) :=
  match tbl with
  | [] => None
  | (k, v) :: tbl' => if String.eqb k m then Some v else modules_get m tbl'
  end.

(** [module in self.ALLOWED_MODULES] *)
Definition module_allowed (m : option string) : bool :=
  match m with
  | None => false
  | Some m => bool_decide (is_Some (modules_get m ALLOWED_MODULES))
  end.

(** [self.ALLOWED_MODULES.get(module, [])] *)
Definition allowed_names_of (m : option string) : list string :=
  match m with
  | None => []
  | Some m => default [] (modules_get m ALLOWED_MODULES)
  end.

Definition module_str (m : option string) : string := default "None" m.

(** The loop over [node.names] of an [ast.Import]. *)
Fixpoint import_names (line : Z) (names : list alias) : raises :=
  match names with
  | [] => None
  | a :: names' =>
      if module_allowed (Some (alias_name a)) then import_names line names'
      else Some (ImportNotAllowed (alias_name a) line)
  end.

(** The loop over [node.names] of an [ast.ImportFrom]. *)
Fixpoint import_from_names (line : Z) (module : option string)
    (allowed_names : list string) (names : list alias) : raises :=
  match names with
  | [] => None
  | a :: names' =>
      if String.eqb (alias_name a) "*" then Some (WildcardImport line)
      else if bool_decide (alias_name a ∈ allowed_names)
      then import_from_names line module allowed_names names'
      else Some (ImportNotAllowed (module_str module +:+ "." +:+ alias_name a) line)
  end.

Definition _validate_import (n : node) : raises :=
  match n with
  | Import line names => import_names line names
  | ImportFrom line module names =>
      if module_allowed module then
        import_from_names line module (allowed_names_of module) names
      else Some (ImportNotAllowed (module_str module) line)
  | _ => None
  end.

Definition _validate_call (n : node) : raises :=
  match n with
  | Call line f _ _ =>
      (match f with
       | Name _ func_name _ =>
           if bool_decide (func_name ∈ DANGEROUS_FUNCTIONS)
           then Some (DangerousFunctionCall func_name line) else None
       | _ => None
       end) ;;;
      (match f with
       | Attribute _ _ attr _ =>
           if bool_decide (attr ∈ DANGEROUS_FUNCTIONS)
           then Some (DangerousMethodCall attr line) else None
       | _ => None
       end)
  | _ => None
  end.

Definition _validate_attribute (n : node) : raises :=
  match n with
  | Attribute line _ attr _ =>
      if bool_decide (attr ∈ DANGEROUS_ATTRS)
      then Some (DangerousAttributeAccess attr line) else None
  | _ => None
  end.

Definition _validate_name (n : node) : raises :=
  match n with
  | Name line id Load =>
      if bool_decide (id ∈ DANGEROUS_FUNCTIONS)
      then Some (DangerousName id line) else None
  | _ => None
  end.

(** The body of the [for node in ast.walk(tree)] loop. *)
Definition check_node (n : node) : raises :=
  (if bool_decide (type_name n ∈ ALLOWED_NODES) then None
   else Some (DisallowedOperation (type_name n) (node_lineno n))) ;;;
  _validate_import n ;;;
  _validate_call n ;;;
  _validate_attribute n ;;;
  _validate_name n.

Fixpoint check_nodes (l : list node) : raises :=
  match l with
  | [] => None
  | n :: l' => check_node n ;;; check_nodes l'
  end.

(** The walk-and-check part of [validate_code], after parsing. *)
Definition validate_tree (tree : node) : option raises :=
  check_nodes <$> walk tree.

Record ImprovedCodeSandbox := mk_sandbox {
  max_code_length : Z;
  timeout_seconds : Z
}.

(** A Python [str] whose length is taken: its code points, so that
    [length] is Python's [len]. *)
Definition source := list N.

(** How [ast.parse] ends: with a tree, with [SyntaxError] and its
    message, or with another exception, named by its class
    ([ValueError] for a NUL character before Python 3.12,
    [RecursionError], [MemoryError]). *)
Inductive parse_result :=
| Parsed (tree : node)
| RaisedSyntaxError (msg : string)
| RaisedOther (exc : string).

(** How a call of [validate_code] ends: it returns or raises
    [SecurityException], or an exception it does not catch goes on to
    the caller. *)
Inductive ending :=
| Decided (decision : raises)
| Propagated (exc : string).

Section WithParser.

Variable ast_parse : source → parse_result.

(** [validate_code]; [None] when the walk does not finish.  The [try]
    around [ast.parse] has one handler, [except SyntaxError]. *)
Definition validate_code (self : ImprovedCodeSandbox) (code : source) : option ending :=
  if Z.of_nat (length code) >? max_code_length self
  then Some (Decided (Some (CodeTooLong (max_code_length self))))
  else match ast_parse code with
       | RaisedSyntaxError msg => Some (Decided (Some (InvalidSyntax msg)))
       | RaisedOther exc => Some (Propagated exc)
       | Parsed tree => Decided <$> validate_tree tree
       end.

End WithParser.

(** [ast.parse] before Python 3.12 on a source that holds a NUL
    character: [ValueError("source code string cannot contain null
    bytes")]; every other source is left to [parse]. *)
Definition refusing_nul (parse : source → parse_result) (code : source) : parse_result :=
  if bool_decide (0%N ∈ code) then RaisedOther "ValueError" else parse code.

(** *** Termination of the walk *)

Lemma list_sum_alias_nodes (names : list alias) :
  list_sum (map size (map AliasNode names)) = length names.
Proof. induction names as [|a names IH]; simpl; congruence. Qed.

Lemma size_children (n : node) : size n = S (forest_size (children n)).
Proof.
  unfold forest_size.
  destruct n as [l names|l m names|l f args kws|l v a c|l i c|a|c|cls l body]; simpl;
    rewrite ?list_sum_alias_nodes, ?map_app, ?list_sum_app; lia.
Qed.

Lemma forest_size_app (l1 l2 : list node) :
  forest_size (l1 ++ l2) = (forest_size l1 + forest_size l2)%nat.
Proof. unfold forest_size. by rewrite map_app, list_sum_app. Qed.

Lemma walk_queue_total (fuel : nat) :
  ∀ todo, (forest_size todo ≤ fuel)%nat → is_Some (walk_queue fuel todo).
Proof.
  induction fuel as [|fuel IH]; intros [|n rest] Hsz; simpl; eauto.
  - exfalso. unfold forest_size in Hsz. simpl in Hsz.
    rewrite size_children in Hsz. lia.
  - destruct (IH (rest ++ children n)) as [l Hl].
    + rewrite forest_size_app. unfold forest_size in *. simpl in Hsz.
      rewrite size_children in Hsz. unfold forest_size in Hsz. lia.
    + rewrite Hl. simpl. eauto.
Qed.

Lemma walk_total (tree : node) : is_Some (walk tree).
Proof.
  apply walk_queue_total. unfold forest_size. simpl. lia.
Qed.

(** The first node handed out by the walk is the tree itself, and every
    child of a node handed out is handed out too. *)
Lemma walk_queue_todo (fuel : nat) :
  ∀ todo nodes n, walk_queue fuel todo = Some nodes → n ∈ todo → n ∈ nodes.
Proof.
  induction fuel as [|fuel IH]; intros [|m rest] nodes n Hw Hin; simpl in Hw;
    try (by apply elem_of_nil in Hin); try discriminate.
  destruct (walk_queue fuel (rest ++ children m)) as [l|] eqn:Hl; simplify_eq/=.
  apply elem_of_cons in Hin as [->|Hin]; [left|right].
  eapply IH; [exact Hl|]. apply elem_of_app. by left.
Qed.

Lemma check_nodes_None (l : list node) :
  check_nodes l = None → ∀ n, n ∈ l → check_node n = None.
Proof.
  induction l as [|m l IH]; intros Hc n Hin.
  - by apply elem_of_nil in Hin.
  - simpl in Hc. destruct (check_node m) eqn:Hm; [discriminate|].
    apply elem_of_cons in Hin as [->|Hin]; auto.
Qed.

Lemma validate_tree_total (tree : node) : ∃ d : raises, validate_tree tree = Some d.
Proof.
  unfold validate_tree. destruct (walk_total tree) as [l ->]. simpl. eauto.
Qed.

(** *** The allow-listed import helper on its own *)

Lemma import_from_names_ok line module allowed names :
  Forall (λ a, alias_name a ≠ "*" ∧ alias_name a ∈ allowed) names →
  import_from_names line module allowed names = None.
Proof.
  induction 1 as [|a names [Hstar Hin] _ IH]; simpl; [done|].
  destruct (String.eqb_spec (alias_name a) "*"); [done|].
  by rewrite bool_decide_eq_true_2.
Qed.

Lemma _validate_import_from_ok line m allowed names :
  modules_get m ALLOWED_MODULES = Some allowed →
  Forall (λ a, alias_name a ≠ "*" ∧ alias_name a ∈ allowed) names →
  _validate_import (ImportFrom line (Some m) names) = None.
Proof.
  intros Hm Hn. unfold _validate_import, module_allowed, allowed_names_of.
  rewrite Hm. rewrite bool_decide_eq_true_2 by eauto.
  by apply import_from_names_ok.
Qed.

(** Every import node fails the node-class test that runs before
    [_validate_import]. *)
Lemma check_node_import (n : node) :
  type_name n = "Import" ∨ type_name n = "ImportFrom" →
  check_node n = Some (DisallowedOperation (type_name n) (node_lineno n)).
Proof.
  intros [H|H]; unfold check_node; rewrite H; reflexivity.
Qed.

Lemma validate_tree_import_rejected (tree : node) (nodes : list node) (n : node) :
  walk tree = Some nodes → n ∈ nodes →
  type_name n = "Import" ∨ type_name n = "ImportFrom" →
  ∃ e, validate_tree tree = Some (Some e).
Proof.
  intros Hw Hin Hty. unfold validate_tree. rewrite Hw. simpl.
  destruct (check_nodes nodes) as [e|] eqn:Hc; [eauto|].
  pose proof (check_nodes_None _ Hc _ Hin) as Hn.
  rewrite check_node_import in Hn by done. discriminate.
Qed.

(** *** The statements of the spec's examples, as syntax trees *)

Definition module_of (body : list node) : node := Other "Module" None body.

(** [from qgis.core import QgsProject] *)
Definition stmt_import_qgsproject : node :=
  ImportFrom 1 (Some "qgis.core") [mk_alias "QgsProject" None].

(** [import os] *)
Definition stmt_import_os : node := Import 1 [mk_alias "os" None].

(** [eval('1')] *)
Definition stmt_eval : node :=
  Other "Expr" (Some 1) [Call 1 (Name 1 "eval" Load) [Other "Constant" (Some 1) []] []].

(** [[].__class__.__bases__] *)
Definition stmt_bases : node :=
  Other "Expr" (Some 1)
    [Attribute 1 (Attribute 1 (Other "List" (Some 1) [Context Load]) "__class__" Load)
       "__bases__" Load].

(** [x = sum([1,2,3])] *)
Definition stmt_sum : node :=
  Other "Assign" (Some 1)
    [Name 1 "x" Store;
     Call 1 (Name 1 "sum" Load)
       [Other "List" (Some 1)
          [Other "Constant" (Some 1) []; Other "Constant" (Some 1) [];
           Other "Constant" (Some 1) []; Context Load]] []].

Example validate_import_os :
  validate_tree (module_of [stmt_import_os]) = Some (Some (DisallowedOperation "Import" (Some 1))).
Proof. reflexivity. Qed.

Example validate_eval :
  validate_tree (module_of [stmt_eval]) = Some (Some (DangerousFunctionCall "eval" 1)).
Proof. reflexivity. Qed.

Example validate_bases :
  validate_tree (module_of [stmt_bases]) = Some (Some (DangerousAttributeAccess "__bases__" 1)).
Proof. reflexivity. Qed.

Example validate_sum : validate_tree (module_of [stmt_sum]) = Some None.
Proof. reflexivity. Qed.

(** C1 (the code departs from it): an import that names an allow-listed
    module and an allow-listed symbol, with no wildcard, passes
    [_validate_import], yet [validate_code]'s walk rejects it, because the
    classes [Import] and [ImportFrom] are not in [ALLOWED_NODES] and that
    test comes first. *)
Theorem allowed_import_rejected :
  _validate_import stmt_import_qgsproject = None ∧
  validate_tree (module_of [stmt_import_qgsproject])
    = Some (Some (DisallowedOperation "ImportFrom" (Some 1))).
Proof. split; reflexivity. Qed.

(** The call always ends, one way or another: the walk of the parsed
    tree finishes. *)
Lemma validate_code_ends
    (ast_parse : source → parse_result) (self : ImprovedCodeSandbox) (code : source) :
  ∃ e : ending, validate_code ast_parse self code = Some e.
Proof.
  unfold validate_code.
  destruct (Z.of_nat (length code) >? max_code_length self); [eauto|].
  destruct (ast_parse code) as [tree|msg|exc]; [|eauto|eauto].
  destruct (validate_tree_total tree) as [d ->]. simpl. eauto.
Qed.

(** C9 (the code departs from it): [validate_code] catches
    [SyntaxError] and nothing else.  When [ast.parse] raises any other
    exception on a code string within the length limit, the call ends in
    neither acceptance nor a [SecurityException]: the parser's exception
    goes on to the caller. *)
Theorem parser_error_escapes_validate_code
    (ast_parse : source → parse_result) (self : ImprovedCodeSandbox) (code : source)
    (exc : string) :
  Z.of_nat (length code) ≤ max_code_length self →
  ast_parse code = RaisedOther exc →
  validate_code ast_parse self code = Some (Propagated exc) ∧
  ∀ decision : raises, validate_code ast_parse self code ≠ Some (Decided decision).
Proof.
  intros Hlen Hparse. unfold validate_code.
  destruct (Z.of_nat (length code) >? max_code_length self) eqn:E; [lia|].
  rewrite Hparse. split; [done|]. intros decision. discriminate.
Qed.

(** The one-character source [chr(0)] in a sandbox with the default
    limits. *)
Lemma parser_error_escapes_validate_code_witness :
  validate_code (refusing_nul (λ _, RaisedSyntaxError "invalid syntax"))
    (mk_sandbox 102400 30) [0%N]
  = Some (Propagated "ValueError").
Proof.
  refine (proj1 (parser_error_escapes_validate_code
                   (refusing_nul (λ _, RaisedSyntaxError "invalid syntax"))
                   (mk_sandbox 102400 30) [0%N] "ValueError" _ _)).
  - simpl. lia.
  - reflexivity.
Defined.

(** *** What an accepted tree cannot contain *)

(** [n] is [t] or a node below it. *)
Inductive subnode : node → node → Prop :=
| subnode_refl t : subnode t t
| subnode_child n c t : subnode n t → c ∈ children n → subnode c t.

Lemma walk_queue_children (fuel : nat) :
  ∀ todo nodes n c,
    walk_queue fuel todo = Some nodes → n ∈ nodes → c ∈ children n → c ∈ nodes.
Proof.
  induction fuel as [|fuel IH]; intros [|m rest] nodes n c Hw Hn Hc; simpl in Hw;
    simplify_eq; try (by apply elem_of_nil in Hn).
  destruct (walk_queue fuel (rest ++ children m)) as [l|] eqn:Hl; simplify_eq/=.
  right. apply elem_of_cons in Hn as [->|Hn].
  - eapply walk_queue_todo; [exact Hl|]. apply elem_of_app. by right.
  - eapply IH; eauto.
Qed.

Lemma walk_queue_sound (t : node) (fuel : nat) :
  ∀ todo nodes,
    walk_queue fuel todo = Some nodes →
    (∀ n, n ∈ todo → subnode n t) → ∀ n, n ∈ nodes → subnode n t.
Proof.
  induction fuel as [|fuel IH]; intros [|m rest] nodes Hw Htodo n Hn; simpl in Hw;
    simplify_eq; try (by apply elem_of_nil in Hn).
  destruct (walk_queue fuel (rest ++ children m)) as [l|] eqn:Hl; simplify_eq/=.
  apply elem_of_cons in Hn as [->|Hn]; [apply Htodo; left|].
  eapply IH; [exact Hl| |exact Hn].
  intros k [Hk|Hk]%elem_of_app.
  - apply Htodo. by right.
  - eapply subnode_child; [|exact Hk]. apply Htodo. left.
Qed.

(** The walk hands out exactly the nodes of the tree. *)
Lemma walk_nodes (tree : node) (nodes : list node) :
  walk tree = Some nodes → ∀ n, n ∈ nodes ↔ subnode n tree.
Proof.
  intros Hw n. split.
  - eapply walk_queue_sound; [exact Hw|]. intros k Hk.
    apply list_elem_of_singleton in Hk as ->. constructor.
  - induction 1 as [t|k c t _ IH Hc].
    + eapply walk_queue_todo; [exact Hw|]. apply list_elem_of_singleton. done.
    + eapply walk_queue_children; eauto.
Qed.

Lemma check_nodes_all (l : list node) :
  check_nodes l = None ↔ ∀ n, n ∈ l → check_node n = None.
Proof.
  split; [apply check_nodes_None|].
  induction l as [|m l IH]; intros H; [done|]. simpl.
  rewrite (H m) by left. simpl. apply IH. intros n Hn. apply H. by right.
Qed.

Lemma validate_tree_checks_all (tree n : node) :
  validate_tree tree = Some None → subnode n tree → check_node n = None.
Proof.
  unfold validate_tree. destruct (walk_total tree) as [nodes Hw]. rewrite Hw. simpl.
  intros [= Hc] Hn. eapply check_nodes_all; [exact Hc|]. by apply (walk_nodes _ _ Hw).
Qed.

(** X1: A tree is accepted exactly when every node in it, at any depth,
    passes the per-node checks: nothing is skipped by the walk. *)
Theorem validate_tree_accepts_iff (tree : node) :
  validate_tree tree = Some None ↔ ∀ n, subnode n tree → check_node n = None.
Proof.
  unfold validate_tree. destruct (walk_total tree) as [nodes Hw]. rewrite Hw. simpl.
  split.
  - intros [= Hc] n Hn. eapply check_nodes_all; [exact Hc|]. by apply (walk_nodes _ _ Hw).
  - intros H. f_equal. apply check_nodes_all. intros n Hn. apply H.
    by apply (walk_nodes _ _ Hw).
Qed.

Lemma check_node_clean (n : node) :
  check_node n = None →
  type_name n ∈ ALLOWED_NODES ∧
  (∀ l v a c, n = Attribute l v a c → a ∉ DANGEROUS_ATTRS) ∧
  (∀ l i, n = Name l i Load → i ∉ DANGEROUS_FUNCTIONS) ∧
  (∀ l f args kws, n = Call l f args kws →
     (∀ l' i c, f = Name l' i c → i ∉ DANGEROUS_FUNCTIONS) ∧
     (∀ l' v a c, f = Attribute l' v a c → a ∉ DANGEROUS_FUNCTIONS)).
Proof.
  unfold check_node. case_bool_decide as Hty; [|done]. simpl. intros Hc.
  split; [done|].
  destruct n as [l names|l m names|l f args kws|l v a c|l i c|a|c|cls l body];
    try (exfalso; revert Hty; vm_compute; clear; intros H;
         repeat (apply elem_of_cons in H as [H|H]; [discriminate|]);
         by apply elem_of_nil in H);
    repeat split; intros; simplify_eq; simpl in Hc.
  all: intros Hin; repeat case_bool_decide; done.
Qed.

(** X2: An accepted tree has, at no depth, a node of a class outside
    [ALLOWED_NODES], an access to a dangerous attribute, a read of a
    dangerous name, or a call whose target is a dangerous name or
    method. *)
Theorem accepted_tree_is_clean (tree n : node) :
  validate_tree tree = Some None → subnode n tree →
  type_name n ∈ ALLOWED_NODES ∧
  (∀ l v a c, n = Attribute l v a c → a ∉ DANGEROUS_ATTRS) ∧
  (∀ l i, n = Name l i Load → i ∉ DANGEROUS_FUNCTIONS) ∧
  (∀ l f args kws, n = Call l f args kws →
     (∀ l' i c, f = Name l' i c → i ∉ DANGEROUS_FUNCTIONS) ∧
     (∀ l' v a c, f = Attribute l' v a c → a ∉ DANGEROUS_FUNCTIONS)).
Proof.
  intros Hv Hn. apply check_node_clean. by eapply validate_tree_checks_all.
Qed.

(** In [x = sum([1,2,3])], the name [sum] read by the call. *)
Lemma accepted_tree_is_clean_witness :
  type_name (Name 1 "sum" Load) ∈ ALLOWED_NODES ∧ "sum" ∉ DANGEROUS_FUNCTIONS.
Proof.
  destruct (accepted_tree_is_clean (module_of [stmt_sum]) (Name 1 "sum" Load))
    as (H1 & _ & H3 & _).
  - reflexivity.
  - eapply subnode_child; [eapply subnode_child; [eapply subnode_child;
      [apply subnode_refl|]|]|]; simpl.
    + left.
    + right. left.
    + left.
  - split; [exact H1|]. by eapply H3.
Defined.

Lemma import_from_names_None line module allowed names :
  import_from_names line module allowed names = None →
  Forall (λ a, alias_name a ≠ "*" ∧ alias_name a ∈ allowed) names.
Proof.
  induction names as [|a names IH]; simpl; [constructor|].
  destruct (String.eqb_spec (alias_name a) "*"); [done|].
  case_bool_decide; [|done]. intros Hrest. constructor; auto.
Qed.

(** X3: On its own, [_validate_import] lets a [from m import ...] through
    exactly when [m] is a key of [ALLOWED_MODULES] and every imported name
    is listed for [m] and is not the wildcard; a relative import (no
    module name) is refused. *)
Theorem validate_import_from_accepts_iff
    (line : Z) (module : option string) (names : list alias) :
  _validate_import (ImportFrom line module names) = None ↔
  ∃ m allowed,
    module = Some m ∧ modules_get m ALLOWED_MODULES = Some allowed ∧
    Forall (λ a, alias_name a ≠ "*" ∧ alias_name a ∈ allowed) names.
Proof.
  split.
  - unfold _validate_import, module_allowed, allowed_names_of.
    destruct module as [m|]; [|done].
    destruct (modules_get m ALLOWED_MODULES) as [allowed|] eqn:Hm.
    + rewrite bool_decide_eq_true_2 by eauto. simpl.
      intros H%import_from_names_None. eauto.
    + rewrite bool_decide_eq_false_2; [done|]. by intros [? ?].
  - intros (m & allowed & -> & Hm & Hn). by eapply _validate_import_from_ok.
Qed.

End Sandbox.

(* ===================================================================== *)
(** ** The tiered rate limiter                                            *)
(* ===================================================================== *)

Module RateLimit.

(** Timestamps are readings of [time.time()], taken as rationals. *)
Definition Qltb (a b : Q) : bool := if Qlt_le_dec a b then true else false.

(** Python's [int(x)] on a number: truncation towards zero. *)
Definition py_int (x : Q) : Z := Z.quot (Qnum x) (Zpos (Qden x)).

Record limit := mk_limit { lim_max : Z; lim_window : Z }.

(** [self.limits], set once in [__init__]. *)
Definition limits : list (string * limit) :=
  [ ("authentication", mk_limit 5 900);
    ("expensive", mk_limit 10 600);
    ("normal", mk_limit 30 60);
    ("cheap", mk_limit 100 60) ].

Fixpoint limits_lookup (op : string) (tbl : list (string * limit)) : option limit :=
  match tbl with
  | [] => None
  | (k, v) :: tbl' => if String.eqb k op then Some v else limits_lookup op tbl'
  end.

(** [self.limits.get(operation_type, self.limits['normal'])] *)
Definition limits_get (op : string) : limit :=
  default (mk_limit 30 60) (limits_lookup op limits).

(** [max(limit['window'] for limit in self.limits.values())] *)
Definition max_window : Z :=
  foldr (λ kv acc, Z.max (lim_window kv.2) acc) 0 limits.

Record ImprovedRateLimiter := mk_limiter {
  request_history : gmap string (list Q);
  failed_auth_attempts : gmap string (list Q);
  lockouts : gmap string Q
}.

(** The limiter after [__init__]. *)
Definition new_limiter : ImprovedRateLimiter := mk_limiter ∅ ∅ ∅.

(** [SecurityException("Client locked out. Try again in {remaining} seconds")] *)
Inductive SecurityException := LockedOut (remaining : Z).

(** [f"{client_addr}:{operation_type}"] *)
Definition history_key (client_addr operation_type : string) : string :=
  client_addr +:+ ":" +:+ operation_type.

(** [[t for t in ts if t > cutoff]] *)
Definition newer_than (cutoff : Q) (ts : list Q) : list Q :=
  List.filter (Qltb cutoff) ts.

(** Python's [max] of a list of numbers: the first largest element;
    [None] stands for the empty list. *)
Definition py_max (ts : list Q) : option Q :=
  match ts with
  | [] => None
  | t :: ts' => Some (fold_left (λ m x, if Qltb m x then x else m) ts' t)
  end.

(** [not requests or max(requests) < cutoff] *)
Definition stale (cutoff : Q) (requests : list Q) : bool :=
  match py_max requests with
  | None => true
  | Some m => Qltb m cutoff
  end.

Definition _cleanup_old_clients (history : gmap string (list Q)) (now : Q)
    : gmap string (list Q) :=
  let cutoff := (now - inject_Z (max_window * 2))%Q in
  filter (λ kv : string * list Q, stale cutoff kv.2 = false) history.

Definition check_rate_limit (self : ImprovedRateLimiter)
    (client_addr operation_type : string) (now : Q)
    : ImprovedRateLimiter * (SecurityException + bool) :=
  let locked :=
    match lockouts self !! client_addr with
    | Some lockout_until =>
        if Qltb now lockout_until
        then inl (py_int (lockout_until - now))
        else inr (delete client_addr (lockouts self))
    | None => inr (lockouts self)
    end in
  match locked with
  | inl remaining => (self, inl (LockedOut remaining))
  | inr lockouts' =>
      let lim := limits_get operation_type in
      let key := history_key client_addr operation_type in
      let cutoff := (now - inject_Z (lim_window lim))%Q in
      let recent := newer_than cutoff (default [] (request_history self !! key)) in
      if Z.of_nat (length recent) >=? lim_max lim then
        (mk_limiter (<[key := recent]> (request_history self))
           (failed_auth_attempts self) lockouts', inr false)
      else
        let history := <[key := recent ++ [now]]> (request_history self) in
        let history' :=
          if Z.of_nat (size history) >? 1000
          then _cleanup_old_clients history now else history in
        (mk_limiter history' (failed_auth_attempts self) lockouts', inr true)
  end.

(** The lockout length after [attempt_count] recent failures:
    [min(60 * 60, 60 * (2 ** (attempt_count - 5)))]. *)
Definition lockout_duration (attempt_count : Z) : Z :=
  Z.min (60 * 60) (60 * 2 ^ (attempt_count - 5)).

Definition record_failed_auth (self : ImprovedRateLimiter)
    (client_addr : string) (now : Q) : ImprovedRateLimiter :=
  let cutoff := (now - 3600)%Q in
  let attempts :=
    newer_than cutoff (default [] (failed_auth_attempts self !! client_addr)) ++ [now] in
  let failed := <[client_addr := attempts]> (failed_auth_attempts self) in
  let attempt_count := Z.of_nat (length attempts) in
  if attempt_count >=? 5 then
    mk_limiter (request_history self) failed
      (<[client_addr := (now + inject_Z (lockout_duration attempt_count))%Q]> (lockouts self))
  else
    mk_limiter (request_history self) failed (lockouts self).

Definition record_successful_auth (self : ImprovedRateLimiter)
    (client_addr : string) : ImprovedRateLimiter :=
  mk_limiter (request_history self)
    (delete client_addr (failed_auth_attempts self))
    (delete client_addr (lockouts self)).

(** A run of [check_rate_limit] calls by one client for one operation
    class, at the given clock readings, with each call's outcome. *)
Fixpoint check_many (self : ImprovedRateLimiter) (client_addr operation_type : string)
    (times : list Q) : ImprovedRateLimiter * list (SecurityException + bool) :=
  match times with
  | [] => (self, [])
  | now :: times' =>
      let r := check_rate_limit self client_addr operation_type now in
      let rs := check_many r.1 client_addr operation_type times' in
      (rs.1, r.2 :: rs.2)
  end.

(** A run of [record_failed_auth] calls at the given clock readings. *)
Definition fail_many (self : ImprovedRateLimiter) (client_addr : string)
    (times : list Q) : ImprovedRateLimiter :=
  fold_left (λ s now, record_failed_auth s client_addr now) times self.

Example max_window_value : max_window = 900.
Proof. reflexivity. Qed.

(** Every reading in [times] is less than [w] seconds after each reading
    that comes before it in the list. *)
Fixpoint within_window (w : Q) (times : list Q) : Prop :=
  match times with
  | [] => True
  | t :: times' => Forall (λ u, (u - w < t)%Q) times' ∧ within_window w times'
  end.

(** *** Comparisons and list pruning *)

Lemma Qltb_true (a b : Q) : Qltb a b = true ↔ (a < b)%Q.
Proof.
  unfold Qltb. destruct (Qlt_le_dec a b) as [H|H]; split; intros; try done.
  exfalso. lra.
Qed.

Lemma Qltb_false (a b : Q) : Qltb a b = false ↔ (b <= a)%Q.
Proof.
  unfold Qltb. destruct (Qlt_le_dec a b) as [H|H]; split; intros; try done.
  exfalso. lra.
Qed.

Lemma newer_than_all (cutoff : Q) (ts : list Q) :
  Forall (λ t, (cutoff < t)%Q) ts → newer_than cutoff ts = ts.
Proof.
  induction 1 as [|t ts Ht _ IH]; simpl; [done|].
  apply Qltb_true in Ht. unfold newer_than in *. simpl. by rewrite Ht, IH.
Qed.

Lemma newer_than_none (cutoff : Q) (ts : list Q) :
  Forall (λ t, (t <= cutoff)%Q) ts → newer_than cutoff ts = [].
Proof.
  induction 1 as [|t ts Ht _ IH]; simpl; [done|].
  apply Qltb_false in Ht. unfold newer_than in *. simpl. by rewrite Ht, IH.
Qed.

Lemma fold_max_bound (ts : list Q) :
  ∀ t, (t <= fold_left (λ m x, if Qltb m x then x else m) ts t)%Q ∧
       Forall (λ x, (x <= fold_left (λ m x, if Qltb m x then x else m) ts t)%Q) ts.
Proof.
  induction ts as [|u ts IH]; intros t; simpl.
  - split; [lra|constructor].
  - destruct (IH (if Qltb t u then u else t)) as [H1 H2].
    destruct (Qltb t u) eqn:Htu.
    + apply Qltb_true in Htu. split; [lra|]. by constructor.
    + apply Qltb_false in Htu. split; [done|]. constructor; [lra|done].
Qed.

Lemma py_max_bound (ts : list Q) (m : Q) :
  py_max ts = Some m → Forall (λ x, (x <= m)%Q) ts.
Proof.
  destruct ts as [|t ts]; simpl; [done|]. intros [= <-].
  destruct (fold_max_bound ts t). by constructor.
Qed.

Lemma fresh_not_stale (cutoff now : Q) (ts : list Q) :
  (cutoff < now)%Q → stale cutoff (ts ++ [now]) = false.
Proof.
  intros Hlt. unfold stale.
  destruct (py_max (ts ++ [now])) as [m|] eqn:Hm.
  - apply py_max_bound in Hm. apply Forall_app in Hm as [_ Hm].
    apply Forall_cons in Hm as [Hm _]. apply Qltb_false. lra.
  - by destruct ts.
Qed.

Lemma cleanup_keeps_fresh (history : gmap string (list Q)) (key : string)
    (ts : list Q) (now : Q) :
  history !! key = Some (ts ++ [now]) →
  _cleanup_old_clients history now !! key = Some (ts ++ [now]).
Proof.
  intros Hk. unfold _cleanup_old_clients.
  apply map_lookup_filter_Some. split; [done|]. simpl.
  apply fresh_not_stale. rewrite max_window_value.
  change (inject_Z (900 * 2)) with (1800 # 1)%Q. lra.
Qed.

(** *** One call of [check_rate_limit] by a client that is not locked out *)

Lemma check_rate_limit_unlocked (self : ImprovedRateLimiter)
    (client op : string) (now : Q) :
  lockouts self !! client = None →
  let lim := limits_get op in
  let key := history_key client op in
  let recent :=
    newer_than (now - inject_Z (lim_window lim))
      (default [] (request_history self !! key)) in
  let r := check_rate_limit self client op now in
  lockouts r.1 = lockouts self ∧
  failed_auth_attempts r.1 = failed_auth_attempts self ∧
  if Z.of_nat (length recent) >=? lim_max lim
  then r.2 = inr false ∧ request_history r.1 !! key = Some recent
  else r.2 = inr true ∧ request_history r.1 !! key = Some (recent ++ [now]).
Proof.
  intros Hl. cbv zeta. unfold check_rate_limit. rewrite Hl.
  destruct (_ >=? _) eqn:Hfull; simpl.
  - repeat split; try done. by rewrite lookup_insert_eq.
  - repeat split; try done.
    destruct (_ >? _); [apply cleanup_keeps_fresh|]; by rewrite lookup_insert_eq.
Qed.

Lemma check_rate_limit_locked (self : ImprovedRateLimiter)
    (client op : string) (now lockout_until : Q) :
  lockouts self !! client = Some lockout_until →
  (now < lockout_until)%Q →
  check_rate_limit self client op now
    = (self, inl (LockedOut (py_int (lockout_until - now)))).
Proof.
  intros Hl Hlt. unfold check_rate_limit. rewrite Hl.
  apply Qltb_true in Hlt. by rewrite Hlt.
Qed.

(** What any call leaves in the class's window, by outcome. *)
Lemma check_rate_limit_cases (self : ImprovedRateLimiter)
    (client op : string) (now : Q) :
  let key := history_key client op in
  let recent :=
    newer_than (now - inject_Z (lim_window (limits_get op)))
      (default [] (request_history self !! key)) in
  let r := check_rate_limit self client op now in
  failed_auth_attempts r.1 = failed_auth_attempts self ∧
  match r.2 with
  | inl _ => r.1 = self
  | inr false => request_history r.1 !! key = Some recent
  | inr true => request_history r.1 !! key = Some (recent ++ [now])
  end.
Proof.
  cbv zeta. unfold check_rate_limit.
  destruct (lockouts self !! client) as [lockout_until|]; [destruct (Qltb now lockout_until)|].
  all: simpl; try done.
  all: destruct (_ >=? _); simpl; split; try done; try by rewrite lookup_insert_eq.
  all: destruct (_ >? _); [apply cleanup_keeps_fresh|]; by rewrite lookup_insert_eq.
Qed.

(** A call that does not raise leaves the client without a lockout. *)
Lemma check_rate_limit_admits (self : ImprovedRateLimiter)
    (client op : string) (now : Q) (b : bool) :
  (check_rate_limit self client op now).2 = inr b →
  lockouts (check_rate_limit self client op now).1 !! client = None.
Proof.
  unfold check_rate_limit.
  destruct (lockouts self !! client) as [lockout_until|] eqn:Hl;
    [destruct (Qltb now lockout_until)|]; simpl; [done| |].
  all: destruct (_ >=? _); simpl; intros _; by rewrite ?lookup_delete_eq.
Qed.

Lemma record_failed_auth_history (self : ImprovedRateLimiter) (client : string) (now : Q) :
  request_history (record_failed_auth self client now) = request_history self.
Proof. unfold record_failed_auth. by destruct (_ >=? _). Qed.

(** *** A run of calls in the "normal" class *)

Lemma check_many_budget (client : string) (times : list Q) :
  ∀ (self : ImprovedRateLimiter) (hist : list Q),
  lockouts self !! client = None →
  default [] (request_history self !! history_key client "normal") = hist →
  (length hist ≤ 30)%nat →
  Forall (λ t, Forall (λ x, (t - 60 < x)%Q) hist) times →
  within_window 60 times →
  let r := check_many self client "normal" times in
  r.2 = replicate (length times `min` (30 - length hist)) (inr true)
          ++ replicate (length times - (30 - length hist)) (inr false) ∧
  lockouts r.1 !! client = None ∧
  default [] (request_history r.1 !! history_key client "normal")
    = hist ++ take (30 - length hist) times.
Proof.
  induction times as [|t times IH]; intros self hist Hlock Hhist Hlen Hold Hwin.
  - simpl. rewrite take_nil, app_nil_r. done.
  - apply Forall_cons in Hold as [Ht Hold]. destruct Hwin as [Hlater Hwin].
    pose proof (check_rate_limit_unlocked self client "normal" t Hlock) as Hstep.
    cbv zeta in Hstep. rewrite Hhist in Hstep.
    change (limits_get "normal") with (mk_limit 30 60) in Hstep. simpl in Hstep.
    rewrite (newer_than_all _ hist) in Hstep by exact Ht.
    destruct Hstep as (Hl1 & _ & Hstep).
    cbv zeta. simpl check_many.
    set (r := check_rate_limit self client "normal" t) in *.
    destruct (Z.of_nat (length hist) >=? 30) eqn:Hfull.
    + destruct Hstep as [Hres Hkey].
      assert (length hist = 30%nat) as Hlen30 by lia.
      destruct (IH r.1 hist) as (Hrs & Hl' & Hh'); try done.
      { by rewrite Hl1. } { by rewrite Hkey. }
      cbv zeta in Hrs. simpl. rewrite Hres, Hrs, Hl', Hh', Hlen30.
      replace (30 - 30)%nat with 0%nat by lia.
      rewrite !Nat.min_0_r, !Nat.sub_0_r, !take_0. done.
    + destruct Hstep as [Hres Hkey].
      assert (length hist < 30)%nat as Hlt by lia.
      destruct (IH r.1 (hist ++ [t])) as (Hrs & Hl' & Hh'); try done.
      { by rewrite Hl1. } { by rewrite Hkey. }
      { rewrite length_app. simpl. lia. }
      { apply Forall_forall. intros u Hu. apply Forall_app. split.
        - by eapply Forall_forall in Hold.
        - constructor; [|constructor]. by eapply Forall_forall in Hlater. }
      cbv zeta in Hrs. simpl. rewrite Hres, Hrs, Hl', Hh'.
      rewrite length_app. simpl.
      destruct (30 - length hist)%nat as [|k] eqn:Hk; [lia|].
      replace (30 - (length hist + 1))%nat with k by lia.
      simpl. rewrite <- app_assoc. done.
Qed.

(** C4: for a client with no history in the "normal" class and no
    lockout, of 31 calls whose clock readings stay within the 60-second
    window of one another, the first 30 return [True] and the 31st returns
    [False]; a call made once every recorded reading is at least 60
    seconds old returns [True] again. *)
Theorem normal_budget_thirty_per_window
    (self : ImprovedRateLimiter) (client : string) (times : list Q) (later : Q) :
  request_history self !! history_key client "normal" = None →
  lockouts self !! client = None →
  length times = 31%nat →
  within_window 60 times →
  Forall (λ t, (t + 60 <= later)%Q) times →
  let r := check_many self client "normal" times in
  r.2 = replicate 30 (inr true) ++ [inr false] ∧
  (check_rate_limit r.1 client "normal" later).2 = inr true.
Proof.
  intros Hnone Hlock Hlen Hwin Hlater.
  destruct (check_many_budget client times self []) as (Hrs & Hl & Hh); try done.
  { by rewrite Hnone. } { simpl. lia. }
  { apply Forall_forall. intros; constructor. }
  cbv zeta in *. simpl length in *. rewrite Hlen in Hrs.
  split; [exact Hrs|].
  pose proof (check_rate_limit_unlocked _ client "normal" later Hl) as Hstep.
  cbv zeta in Hstep. rewrite Hh in Hstep.
  change (limits_get "normal") with (mk_limit 30 60) in Hstep. simpl in Hstep.
  rewrite newer_than_none in Hstep.
  - simpl in Hstep. tauto.
  - apply Forall_take. eapply Forall_impl; [exact Hlater|].
    intros t Ht. simpl in Ht. change (inject_Z 60) with 60%Q. lra.
Qed.

(** Thirty-one calls one second apart from a fresh limiter, then one
    more a minute and a half after the first. *)
Lemma normal_budget_thirty_per_window_witness :
  let times := map (λ n : nat, inject_Z (Z.of_nat n)) (seq 0 31) in
  let r := check_many new_limiter "127.0.0.1:5000" "normal" times in
  r.2 = replicate 30 (inr true) ++ [inr false] ∧
  (check_rate_limit r.1 "127.0.0.1:5000" "normal" 90).2 = inr true.
Proof.
  apply (normal_budget_thirty_per_window new_limiter "127.0.0.1:5000"
           (map (λ n : nat, inject_Z (Z.of_nat n)) (seq 0 31)) 90).
  - reflexivity.
  - reflexivity.
  - reflexivity.
  - simpl. repeat split; repeat constructor.
  - simpl. repeat constructor; discriminate.
Defined.

(** *** Lockout *)

Example lockout_duration_values :
  map lockout_duration [5; 6; 7; 8; 9; 10; 11; 12; 40]
    = [60; 120; 240; 480; 960; 1920; 3600; 3600; 3600].
Proof. reflexivity. Qed.

Lemma lockout_duration_capped (n : Z) : 5 ≤ n → 60 ≤ lockout_duration n ≤ 3600.
Proof.
  intros Hn. unfold lockout_duration.
  assert (1 ≤ 2 ^ (n - 5)) by (apply (Z.pow_le_mono_r 2 0 (n - 5)); lia).
  lia.
Qed.

(** C3: when a recorded failure brings the number of failures of the
    last hour to [n ≥ 5], the client is locked out until
    [now + min(3600, 60 * 2^(n-5))]; until then [check_rate_limit] raises
    for every operation class and changes nothing; and
    [record_successful_auth] removes the failure record and the lockout,
    after which no call raises. *)
Theorem lockout_after_five_failures
    (self : ImprovedRateLimiter) (client : string) (now : Q) :
  let attempts :=
    newer_than (now - 3600)
      (default [] (failed_auth_attempts self !! client)) ++ [now] in
  let n := Z.of_nat (length attempts) in
  let locked := record_failed_auth self client now in
  let cleared := record_successful_auth locked client in
  5 ≤ n →
  failed_auth_attempts locked !! client = Some attempts ∧
  lockouts locked !! client = Some (now + inject_Z (Z.min 3600 (60 * 2 ^ (n - 5))))%Q ∧
  60 ≤ Z.min 3600 (60 * 2 ^ (n - 5)) ≤ 3600 ∧
  (∀ (op : string) (t : Q),
     (t < now + inject_Z (Z.min 3600 (60 * 2 ^ (n - 5))))%Q →
     ∃ remaining, check_rate_limit locked client op t = (locked, inl (LockedOut remaining))) ∧
  failed_auth_attempts cleared !! client = None ∧
  lockouts cleared !! client = None ∧
  (∀ (op : string) (t : Q), ∃ b, (check_rate_limit cleared client op t).2 = inr b).
Proof.
  intros attempts n locked cleared Hn.
  assert (Hlocked : locked =
    mk_limiter (request_history self)
      (<[client := attempts]> (failed_auth_attempts self))
      (<[client := (now + inject_Z (lockout_duration n))%Q]> (lockouts self))).
  { subst locked. unfold record_failed_auth. fold attempts. fold n.
    destruct (n >=? 5) eqn:H5; [done|lia]. }
  assert (Hlk : lockouts locked !! client
                = Some (now + inject_Z (Z.min 3600 (60 * 2 ^ (n - 5))))%Q).
  { rewrite Hlocked. simpl. by rewrite lookup_insert_eq. }
  split; [|split; [|split; [|split; [|split; [|split]]]]].
  - rewrite Hlocked. simpl. by rewrite lookup_insert_eq.
  - exact Hlk.
  - apply (lockout_duration_capped n Hn).
  - intros op t Ht. eexists. by apply check_rate_limit_locked with (1 := Hlk).
  - subst cleared. simpl. by rewrite lookup_delete_eq.
  - subst cleared. simpl. by rewrite lookup_delete_eq.
  - intros op t.
    assert (Hc : lockouts cleared !! client = None)
      by (subst cleared; simpl; by rewrite lookup_delete_eq).
    pose proof (check_rate_limit_unlocked cleared client op t Hc) as Hstep.
    cbv zeta in Hstep. destruct Hstep as (_ & _ & Hstep).
    destruct (_ >=? _); destruct Hstep as [-> _]; eauto.
Qed.

(** The fifth failure in five seconds, on a fresh limiter. *)
Lemma lockout_after_five_failures_witness :
  let self := fail_many new_limiter "127.0.0.1:5000" [0; 1; 2; 3]%Q in
  let locked := record_failed_auth self "127.0.0.1:5000" 4 in
  lockouts locked !! "127.0.0.1:5000" = Some (4 + inject_Z 60)%Q ∧
  (∀ (op : string) (t : Q), (t < 4 + inject_Z 60)%Q →
     ∃ remaining,
       check_rate_limit locked "127.0.0.1:5000" op t = (locked, inl (LockedOut remaining))) ∧
  lockouts (record_successful_auth locked "127.0.0.1:5000") !! "127.0.0.1:5000" = None.
Proof.
  pose proof (lockout_after_five_failures
                (fail_many new_limiter "127.0.0.1:5000" [0; 1; 2; 3]%Q)
                "127.0.0.1:5000" 4) as H.
  cbv zeta in H.
  assert (H5 : 5 ≤ Z.of_nat (length
            (newer_than (4 - 3600)
               (default [] (failed_auth_attempts
                  (fail_many new_limiter "127.0.0.1:5000" [0; 1; 2; 3]%Q)
                    !! "127.0.0.1:5000")) ++ [4%Q]))) by (vm_compute; discriminate).
  destruct (H H5) as (_ & Hl & _ & Hraise & _ & Hclear & _).
  exact (conj Hl (conj Hraise Hclear)).
Defined.

(** *** The budget over any interval *)

(** The clock readings of the calls that were answered [True]. *)
Fixpoint admitted (times : list Q) (answers : list (SecurityException + bool)) : list Q :=
  match times, answers with
  | t :: times', inr true :: answers' => t :: admitted times' answers'
  | _ :: times', _ :: answers' => admitted times' answers'
  | _, _ => []
  end.

(** [t - w < x <= t] *)
Definition in_span (w t x : Q) : bool := Qltb (t - w) x && negb (Qltb t x).

Fixpoint nondecreasing (times : list Q) : Prop :=
  match times with
  | [] => True
  | t :: times' => Forall (λ u, (t <= u)%Q) times' ∧ nondecreasing times'
  end.

Lemma newer_than_app (c : Q) (l1 l2 : list Q) :
  newer_than c (l1 ++ l2) = newer_than c l1 ++ newer_than c l2.
Proof. apply List.filter_app. Qed.

Lemma newer_than_twice (c' c : Q) (l : list Q) :
  (c' <= c)%Q → newer_than c (newer_than c' l) = newer_than c l.
Proof.
  intros Hc. induction l as [|x l IH]; [done|]. unfold newer_than in *. simpl.
  destruct (Qltb c' x) eqn:E1; simpl; rewrite IH; [done|].
  apply Qltb_false in E1. assert (Qltb c x = false) as -> by (apply Qltb_false; lra). done.
Qed.

Lemma newer_than_length_mono (c' c : Q) (l : list Q) :
  (c' <= c)%Q → (length (newer_than c l) ≤ length (newer_than c' l))%nat.
Proof.
  intros Hc. induction l as [|x l IH]; [done|]. unfold newer_than in *. simpl.
  destruct (Qltb c x) eqn:E1.
  - apply Qltb_true in E1. assert (Qltb c' x = true) as -> by (apply Qltb_true; lra).
    simpl. lia.
  - destruct (Qltb c' x); simpl; lia.
Qed.

Lemma in_span_length (w t : Q) (l : list Q) :
  (length (List.filter (in_span w t) l) ≤ length (newer_than (t - w) l))%nat.
Proof.
  induction l as [|x l IH]; [done|]. unfold newer_than, in_span in *. simpl.
  destruct (Qltb (t - w) x); simpl; [|done]. destruct (negb _); simpl; lia.
Qed.

Lemma limits_lookup_elem (op : string) (tbl : list (string * limit)) (l : limit) :
  limits_lookup op tbl = Some l → ∃ k, (k, l) ∈ tbl.
Proof.
  induction tbl as [|[k v] tbl IH]; [done|]. cbn [limits_lookup].
  destruct (String.eqb k op).
  - intros [= ->]. exists k. left.
  - intros [k' Hk']%IH. exists k'. by right.
Qed.

Lemma lim_max_nonneg (op : string) : 0 ≤ lim_max (limits_get op).
Proof.
  unfold limits_get. destruct (limits_lookup op limits) as [l|] eqn:E; [|simpl; lia].
  apply limits_lookup_elem in E as [k Hk]. simpl. unfold limits in Hk.
  repeat (apply elem_of_cons in Hk as [[= _ ->]|Hk]; [simpl; lia|]).
  by apply elem_of_nil in Hk.
Qed.

Lemma admitted_budget_invariant (client op : string) (times : list Q) :
  ∀ (self : ImprovedRateLimiter) (seen : list Q) (lo : Q),
  let w := inject_Z (lim_window (limits_get op)) in
  let key := history_key client op in
  lockouts self !! client = None →
  (∀ c, (lo <= c)%Q →
        newer_than c (default [] (request_history self !! key)) = newer_than c seen) →
  Forall (λ t, (lo <= t - w)%Q) times →
  nondecreasing times →
  (∀ t, Z.of_nat (length (List.filter (in_span w t) seen)) ≤ lim_max (limits_get op)) →
  ∀ t, Z.of_nat (length (List.filter (in_span w t)
                           (seen ++ admitted times (check_many self client op times).2)))
       ≤ lim_max (limits_get op).
Proof.
  induction times as [|t1 times IH]; intros self seen lo w key Hlock Hhist Hlo Hsorted Hseen t.
  - simpl. by rewrite app_nil_r.
  - apply Forall_cons in Hlo as [Hlo1 Hlo]. destruct Hsorted as [Hnext Hsorted].
    pose proof (check_rate_limit_unlocked self client op t1 Hlock) as Hstep.
    cbv zeta in Hstep. fold w key in Hstep.
    rewrite (Hhist (t1 - w)%Q Hlo1) in Hstep.
    destruct Hstep as (Hl1 & _ & Hstep).
    simpl check_many. set (r := check_rate_limit self client op t1) in *.
    assert (Hlater : Forall (λ u, (t1 - w <= u - w)%Q) times).
    { eapply Forall_impl; [exact Hnext|]. intros u Hu. simpl in Hu. lra. }
    destruct (Z.of_nat (length (newer_than (t1 - w) seen)) >=? lim_max (limits_get op))
      eqn:Hfull; destruct Hstep as [Hres Hkey]; simpl; rewrite Hres.
    + apply (IH r.1 seen (t1 - w)%Q); try done.
      * by rewrite Hl1.
      * intros c Hc. fold key. rewrite Hkey. simpl.
        by rewrite newer_than_twice.
    + change (t1 :: ?l) with ([t1] ++ l). rewrite app_assoc.
      apply (IH r.1 (seen ++ [t1]) (t1 - w)%Q); try done.
      * by rewrite Hl1.
      * intros c Hc. fold key. rewrite Hkey. simpl.
        rewrite !newer_than_app. f_equal.
        by rewrite newer_than_twice.
      * intros u. rewrite List.filter_app, length_app. simpl. fold w.
        destruct (in_span w u t1) eqn:Hspan; simpl; [|specialize (Hseen u); lia].
        unfold in_span in Hspan. apply andb_true_iff in Hspan as [_ Hu].
        apply negb_true_iff, Qltb_false in Hu.
        pose proof (in_span_length w u seen).
        pose proof (newer_than_length_mono (t1 - w) (u - w) seen ltac:(lra)).
        lia.
Qed.

(** X4: For one client and one operation class, starting with no window
    and no lockout, and with the clock not running backwards between
    calls: however the calls are timed, for every [t] the span
    [(t - window, t]], open at its older end, holds no more calls
    answered [True] than the class's maximum.  (The closed interval can
    hold more: the window kept by [check_rate_limit] drops a request made
    exactly [window] seconds ago.) *)
Theorem admitted_calls_fit_budget
    (self : ImprovedRateLimiter) (client op : string) (times : list Q) (t : Q) :
  lockouts self !! client = None →
  request_history self !! history_key client op = None →
  nondecreasing times →
  Z.of_nat (length (List.filter (in_span (inject_Z (lim_window (limits_get op))) t)
                      (admitted times (check_many self client op times).2)))
  ≤ lim_max (limits_get op).
Proof.
  intros Hlock Hnone Hsorted.
  set (w := inject_Z (lim_window (limits_get op))).
  assert (Hlo : ∃ lo, Forall (λ u, (lo <= u - w)%Q) times).
  { destruct times as [|t1 times]; [exists 0%Q; constructor|].
    exists (t1 - w)%Q. destruct Hsorted as [Hnext _]. constructor; [lra|].
    eapply Forall_impl; [exact Hnext|]. intros u Hu. simpl in Hu. lra. }
  destruct Hlo as [lo Hlo].
  apply (admitted_budget_invariant client op times self [] lo); try done.
  - intros c _. by rewrite Hnone.
  - intros u. simpl. apply lim_max_nonneg.
Qed.

(** One "normal" call a second for a minute and a second: the thirty
    calls from 0 to 29 and the call at 60 are answered [True]; the span
    [(0, 60]] holds thirty of them, the whole budget. *)
Lemma admitted_calls_fit_budget_witness :
  let times := map (λ n : nat, inject_Z (Z.of_nat n)) (seq 0 61) in
  let count :=
    Z.of_nat (length (List.filter (in_span 60 60)
                        (admitted times
                           (check_many new_limiter "127.0.0.1:5000" "normal" times).2))) in
  count ≤ 30 ∧ count = 30.
Proof.
  split.
  - apply (admitted_calls_fit_budget new_limiter "127.0.0.1:5000" "normal"
             (map (λ n : nat, inject_Z (Z.of_nat n)) (seq 0 61)) 60).
    + reflexivity.
    + reflexivity.
    + simpl. repeat split; repeat constructor; discriminate.
  - vm_compute. reflexivity.
Defined.

(** The same run over the closed interval from 0 to 60: thirty-one calls
    answered [True], one more than the budget. *)
Example closed_interval_holds_one_more :
  let times := map (λ n : nat, inject_Z (Z.of_nat n)) (seq 0 61) in
  let granted := admitted times (check_many new_limiter "127.0.0.1:5000" "normal" times).2 in
  length granted = 31%nat ∧ Forall (λ x, (0 <= x)%Q ∧ (x <= 60)%Q) granted.
Proof.
  split; [vm_compute; reflexivity|].
  vm_compute. repeat constructor; discriminate.
Qed.

(** *** Cleanup, expiry, isolation *)

Lemma fold_max_elem (ts : list Q) :
  ∀ t, fold_left (λ m x, if Qltb m x then x else m) ts t ∈ t :: ts.
Proof.
  induction ts as [|u ts IH]; intros t; simpl; [left|].
  specialize (IH (if Qltb t u then u else t)).
  apply elem_of_cons in IH as [->|IH].
  - destruct (Qltb t u); [right; left|left].
  - right. by right.
Qed.

Lemma stale_false_iff (cutoff : Q) (requests : list Q) :
  stale cutoff requests = false ↔ Exists (λ t, (cutoff <= t)%Q) requests.
Proof.
  unfold stale. destruct (py_max requests) as [m|] eqn:Hm.
  - rewrite Qltb_false. split.
    + intros Hle. apply Exists_exists. exists m. split; [|done].
      destruct requests as [|t ts]; [done|]. simpl in Hm. injection Hm as <-.
      apply fold_max_elem.
    + intros (t & Ht & Hct)%Exists_exists.
      apply py_max_bound in Hm. eapply Forall_forall in Hm; [|exact Ht]. simpl in Hm. lra.
  - destruct requests; [|done]. split; [done|]. by intros ?%Exists_nil.
Qed.

Lemma cleanup_lookup
    (history : gmap string (list Q)) (now : Q) (key : string) (requests : list Q) :
  _cleanup_old_clients history now !! key = Some requests ↔
  history !! key = Some requests ∧ Exists (λ t, (now - 1800 <= t)%Q) requests.
Proof.
  unfold _cleanup_old_clients. rewrite map_lookup_filter_Some. simpl.
  rewrite stale_false_iff, max_window_value. done.
Qed.

(** X5: [_cleanup_old_clients] keeps a window, unchanged, exactly when it
    holds a request made at or after [now - 1800]; empty windows and
    windows whose requests are all older go.  A second cleanup at the
    same clock reading changes nothing. *)
Theorem cleanup_keeps_exactly_recent
    (history : gmap string (list Q)) (now : Q) :
  (∀ key requests,
     _cleanup_old_clients history now !! key = Some requests ↔
     history !! key = Some requests ∧ Exists (λ t, (now - 1800 <= t)%Q) requests) ∧
  _cleanup_old_clients (_cleanup_old_clients history now) now
  = _cleanup_old_clients history now.
Proof.
  split; [intros key requests; apply cleanup_lookup|].
  apply map_eq. intros key. apply option_eq. intros requests.
  rewrite !cleanup_lookup. tauto.
Qed.

(** X6: Once the clock has reached a lockout's expiry, [check_rate_limit]
    no longer raises for that client and deletes the lockout; the record
    of failed attempts stays. *)
Theorem expired_lockout_is_lifted
    (self : ImprovedRateLimiter) (client op : string) (now lockout_until : Q) :
  lockouts self !! client = Some lockout_until →
  (lockout_until <= now)%Q →
  lockouts (check_rate_limit self client op now).1 !! client = None ∧
  (∃ b, (check_rate_limit self client op now).2 = inr b) ∧
  failed_auth_attempts (check_rate_limit self client op now).1 = failed_auth_attempts self.
Proof.
  intros Hl Hexp. unfold check_rate_limit. rewrite Hl.
  apply Qltb_false in Hexp. rewrite Hexp.
  destruct (_ >=? _); simpl; rewrite lookup_delete_eq; eauto.
Qed.

(** Locked out after five failures at time 4, asked again at time 64. *)
Lemma expired_lockout_is_lifted_witness :
  let locked := fail_many new_limiter "127.0.0.1:5000" [0; 1; 2; 3; 4]%Q in
  lockouts locked !! "127.0.0.1:5000" = Some (4 + inject_Z 60)%Q ∧
  lockouts (check_rate_limit locked "127.0.0.1:5000" "cheap" 64).1 !! "127.0.0.1:5000" = None.
Proof.
  split; [reflexivity|].
  apply (expired_lockout_is_lifted
           (fail_many new_limiter "127.0.0.1:5000" [0; 1; 2; 3; 4]%Q)
           "127.0.0.1:5000" "cheap" 64 (4 + inject_Z 60)).
  - reflexivity.
  - vm_compute. discriminate.
Defined.

(** Every reading is at least an hour after the one before it. *)
Fixpoint hour_apart (times : list Q) : Prop :=
  match times with
  | [] => True
  | t :: times' =>
      match times' with
      | [] => True
      | u :: _ => (t + 3600 <= u)%Q
      end ∧ hour_apart times'
  end.

Lemma fail_many_hour_apart (client : string) (times : list Q) :
  ∀ (self : ImprovedRateLimiter) (record : list Q),
  failed_auth_attempts self !! client = Some record →
  (length record ≤ 1)%nat →
  Forall (λ a, match times with [] => True | t :: _ => (a + 3600 <= t)%Q end) record →
  hour_apart times →
  lockouts (fail_many self client times) = lockouts self.
Proof.
  induction times as [|t times IH]; intros self record Hrec Hlen Hold Hgap; [done|].
  destruct Hgap as [Hnext Hgap].
  assert (Hprune : newer_than (t - 3600) record = []).
  { apply newer_than_none. eapply Forall_impl; [exact Hold|]. intros a Ha. simpl in Ha. lra. }
  assert (Hstep : record_failed_auth self client t
                  = mk_limiter (request_history self)
                      (<[client := [t]]> (failed_auth_attempts self)) (lockouts self)).
  { unfold record_failed_auth. rewrite Hrec. simpl. rewrite Hprune. done. }
  change (fail_many self client (t :: times))
    with (fail_many (record_failed_auth self client t) client times).
  rewrite Hstep.
  rewrite (IH _ [t]); simpl; try done.
  - by rewrite lookup_insert_eq.
  - constructor; [|done]. by destruct times.
Qed.

(** X7: Failures that come at least an hour apart never lock the client
    out, however many there are. *)
Theorem spaced_failures_never_lock_out
    (self : ImprovedRateLimiter) (client : string) (times : list Q) :
  failed_auth_attempts self !! client = None →
  hour_apart times →
  lockouts (fail_many self client times) = lockouts self.
Proof.
  intros Hnone Hgap. destruct times as [|t times]; [done|].
  destruct Hgap as [Hnext Hgap].
  assert (Hstep : record_failed_auth self client t
                  = mk_limiter (request_history self)
                      (<[client := [t]]> (failed_auth_attempts self)) (lockouts self)).
  { unfold record_failed_auth. rewrite Hnone. done. }
  change (fail_many self client (t :: times))
    with (fail_many (record_failed_auth self client t) client times).
  rewrite Hstep.
  rewrite (fail_many_hour_apart client times _ [t]); simpl; try done.
  - by rewrite lookup_insert_eq.
  - constructor; [|done]. by destruct times.
Qed.

(** Seven failures, one every hour. *)
Lemma spaced_failures_never_lock_out_witness :
  lockouts (fail_many new_limiter "127.0.0.1:5000"
              [0; 3600; 7200; 10800; 14400; 18000; 21600]%Q) = ∅.
Proof.
  apply (spaced_failures_never_lock_out new_limiter "127.0.0.1:5000"
           [0; 3600; 7200; 10800; 14400; 18000; 21600]%Q).
  - reflexivity.
  - simpl. repeat split; discriminate.
Defined.

(** X8: A call by one client leaves every other client's lockout and failure
    record as they were, and never changes another window: it can only
    drop it, and then only if it held no request of the last 1800
    seconds. *)
Theorem check_rate_limit_leaves_others
    (self : ImprovedRateLimiter) (client op other key' : string) (now : Q) :
  other ≠ client → key' ≠ history_key client op →
  let after := (check_rate_limit self client op now).1 in
  lockouts after !! other = lockouts self !! other ∧
  failed_auth_attempts after !! other = failed_auth_attempts self !! other ∧
  (request_history after !! key' = request_history self !! key' ∨
   request_history after !! key' = None ∧
   ∃ requests, request_history self !! key' = Some requests ∧
               ¬ Exists (λ t, (now - 1800 <= t)%Q) requests).
Proof.
  intros Hother Hkey. cbv zeta. unfold check_rate_limit.
  destruct (lockouts self !! client) as [lockout_until|] eqn:Hl;
    [destruct (Qltb now lockout_until)|]; simpl; [by auto| |].
  all: destruct (_ >=? _); simpl.
  all: rewrite ?lookup_delete_ne by done; split; [done|]; split; [done|].
  all: try (left; by rewrite lookup_insert_ne).
  all: destruct (_ >? _); [|left; by rewrite lookup_insert_ne].
  all: match goal with
       | |- context [_cleanup_old_clients ?h ?n] =>
           destruct (_cleanup_old_clients h n !! key') as [requests|] eqn:Hc
       end.
  all: try (apply cleanup_lookup in Hc as [Hc _];
            rewrite lookup_insert_ne in Hc by done; by left).
  all: destruct (request_history self !! key') as [requests|] eqn:Hr; [|by left].
  all: right; split; [done|]; exists requests; split; [done|]; intros Hex.
  all: assert (Some requests = None) as [=];
         rewrite <- Hc; symmetry; apply cleanup_lookup;
         by rewrite lookup_insert_ne.
Qed.

(** Two clients of a fresh limiter. *)
Lemma check_rate_limit_leaves_others_witness :
  let self := record_failed_auth new_limiter "10.0.0.2:4000" 0 in
  failed_auth_attempts (check_rate_limit self "10.0.0.1:4000" "normal" 1).1 !! "10.0.0.2:4000"
  = Some [0%Q].
Proof.
  destruct (check_rate_limit_leaves_others
              (record_failed_auth new_limiter "10.0.0.2:4000" 0)
              "10.0.0.1:4000" "normal" "10.0.0.2:4000" "10.0.0.2:4000:normal" 1)
    as (_ & H & _).
  - discriminate.
  - discriminate.
  - exact H.
Defined.

End RateLimit.

(* ===================================================================== *)
(** * [EnhancedPathValidator] of [security_improved.py] *)

Module PathValidator.

Definition DANGEROUS_EXTENSIONS : list string :=
  [".exe"; ".dll"; ".so"; ".dylib"; ".sh"; ".bat"; ".cmd"; ".ps1";
   ".vbs"; ".js"; ".jar"; ".app"; ".deb"; ".rpm"; ".msi"].

Definition SAFE_GIS_EXTENSIONS : list string :=
  [".shp"; ".geojson"; ".json"; ".kml"; ".kmz"; ".gml"; ".gpkg";
   ".tif"; ".tiff"; ".jpg"; ".jpeg"; ".png"; ".asc"; ".grd";
   ".qgs"; ".qgz"; ".sqlite"; ".db"; ".csv"; ".txt"].

(** The [SecurityException]s of [validate_path], one per [raise]. *)
Inductive SecurityException :=
| EmptyPath
| TraversalPattern
| UNCPath
| InvalidPath
| ResolutionFailed
| OutsideAllowed (canonical_path : string)
| DangerousExtension (suffix : string)
| ExtensionNotAllowed (suffix : string)
| AlternateDataStream
| DoesNotExist (canonical_path : string)
| NoReadPermission (canonical_path : string)
| NoWritePermission (canonical_path : string)
| NoWriteParent (parent : string).

(** The validator; [allowed_directories] holds the resolved directories. *)
Record EnhancedPathValidator := mk_validator {
  allowed_directories : list string
}.

(** Python's [needle in hay] on strings. *)
Fixpoint contains (needle hay : string) : bool :=
  String.prefix needle hay ||
  match hay with
  | EmptyString => false
  | String _ rest => contains needle rest
  end.

Section WithFilesystem.

(** [os.name == 'nt'] *)
Variable nt : bool.
(** [str.strip], [urllib.parse.unquote], [unicodedata.normalize('NFKC', _)],
    [str.lower] *)
Variables strip unquote normalize_NFKC lower : string → string.
(** [Path(_).expanduser().resolve(strict=False)] and [os.path.realpath];
    [None] stands for a [ValueError] or an [OSError]. *)
Variables resolve realpath : string → option string.
(** [canonical_path.relative_to(allowed_dir)] does not raise. *)
Variable relative_to : string → string → bool.
(** [Path.suffix], [Path.name], [Path.parent] *)
Variables suffix name parent : string → string.
(** [Path.exists], [os.access(_, os.R_OK)], [os.access(_, os.W_OK)] *)
Variables exists_ access_R access_W : string → bool.

Definition validate_path (self : EnhancedPathValidator) (path_str operation : string)
    (allowed_extensions : option (list string)) : SecurityException + string :=
  if String.eqb path_str "" || String.eqb (strip path_str) "" then inl EmptyPath
  else if contains ".." path_str then inl TraversalPattern
  else if String.prefix "\\" path_str && nt then inl UNCPath
  else
    let path_str := unquote path_str in
    let path_str := normalize_NFKC path_str in
    match resolve path_str with
    | None => inl InvalidPath
    | Some canonical_path =>
        match realpath canonical_path with
        | None => inl ResolutionFailed
        | Some canonical_path =>
            if negb (existsb (relative_to canonical_path) (allowed_directories self))
            then inl (OutsideAllowed canonical_path)
            else if bool_decide (lower (suffix canonical_path) ∈ DANGEROUS_EXTENSIONS)
            then inl (DangerousExtension (suffix canonical_path))
            else if match allowed_extensions with
                    | Some (ext :: exts) =>
                        negb (bool_decide (lower (suffix canonical_path) ∈ ext :: exts))
                    | _ => false
                    end
            then inl (ExtensionNotAllowed (suffix canonical_path))
            else if contains ":" (name canonical_path) && nt then inl AlternateDataStream
            else if String.eqb operation "read" && negb (exists_ canonical_path)
            then inl (DoesNotExist canonical_path)
            else if String.eqb operation "read" && exists_ canonical_path
            then
              if negb (access_R canonical_path) then inl (NoReadPermission canonical_path)
              else inr canonical_path
            else if String.eqb operation "write"
            then
              if exists_ canonical_path && negb (access_W canonical_path)
              then inl (NoWritePermission canonical_path)
              else if negb (exists_ canonical_path)
              then
                if negb (exists_ (parent canonical_path))
                   || negb (access_W (parent canonical_path))
                then inl (NoWriteParent (parent canonical_path))
                else inr canonical_path
              else inr canonical_path
            else inr canonical_path
        end
    end.

(** X9: a path that [validate_path] returns is the fully resolved form
    of the argument, lies under one of the allowed directories, has no
    dangerous extension and, when a non-empty list of extensions is given,
    one of those; the argument held no [..]; for a read the path exists
    and is readable, for a write it is writable or, if it does not exist,
    its parent exists and is writable. *)
Theorem validated_path_is_safe
    (self : EnhancedPathValidator) (path_str operation : string)
    (allowed_extensions : option (list string)) (canonical_path : string) :
  validate_path self path_str operation allowed_extensions = inr canonical_path →
  path_str ≠ "" ∧ contains ".." path_str = false ∧
  (∃ resolved, resolve (normalize_NFKC (unquote path_str)) = Some resolved ∧
               realpath resolved = Some canonical_path) ∧
  (∃ allowed_dir, allowed_dir ∈ allowed_directories self ∧
                  relative_to canonical_path allowed_dir = true) ∧
  (lower (suffix canonical_path) ∉ DANGEROUS_EXTENSIONS) ∧
  (∀ exts, allowed_extensions = Some exts → exts ≠ [] →
           lower (suffix canonical_path) ∈ exts) ∧
  (operation = "read" → exists_ canonical_path = true ∧ access_R canonical_path = true) ∧
  (operation = "write" →
   (if exists_ canonical_path then access_W canonical_path = true
    else exists_ (parent canonical_path) = true ∧
         access_W (parent canonical_path) = true)).
Proof.
  unfold validate_path.
  destruct (String.eqb path_str "") eqn:Hempty; [done|].
  destruct (String.eqb (strip path_str) ""); [done|]. cbn [orb].
  destruct (contains ".." path_str) eqn:Hdots; [done|].
  destruct (String.prefix "\\" path_str && nt); [done|]. cbv zeta.
  destruct (resolve (normalize_NFKC (unquote path_str))) as [resolved|] eqn:Hres; [|done].
  destruct (realpath resolved) as [c|] eqn:Hreal; [|done].
  destruct (existsb (relative_to c) (allowed_directories self)) eqn:Hdir; [|done].
  cbn [negb].
  case_bool_decide as Hdanger; [done|].
  destruct (match allowed_extensions with
            | Some (ext :: exts) => negb (bool_decide (lower (suffix c) ∈ ext :: exts))
            | _ => false
            end) eqn:Hext; [done|].
  destruct (contains ":" (name c) && nt); [done|].
  intros Hret.
  assert (Hc : c = canonical_path ∧
               (operation = "read" → exists_ c = true ∧ access_R c = true) ∧
               (operation = "write" →
                (if exists_ c then access_W c = true
                 else exists_ (parent c) = true ∧ access_W (parent c) = true))).
  { destruct (String.eqb_spec operation "read") as [->|Hnr].
    - change (String.eqb "read" "write") with false in Hret. cbn [andb] in Hret.
      destruct (exists_ c); [|done]. cbn [negb] in Hret.
      destruct (access_R c); [|done]. cbn [negb] in Hret.
      injection Hret as <-. repeat split; done.
    - cbn [andb] in Hret.
      destruct (String.eqb_spec operation "write") as [->|Hnw].
      + destruct (exists_ c); cbn [andb negb orb] in Hret.
        * destruct (access_W c); [|done]. injection Hret as <-. repeat split; done.
        * destruct (exists_ (parent c)); [|done]. cbn [negb orb] in Hret.
          destruct (access_W (parent c)); [|done]. injection Hret as <-.
          repeat split; done.
      + injection Hret as <-. repeat split; done. }
  destruct Hc as (<- & Hread & Hwrite).
  split; [by apply String.eqb_neq|]. split; [done|]. split; [by exists resolved|].
  split.
  { apply existsb_exists in Hdir as (d & Hin & Hrel). exists d.
    split; [by apply list_elem_of_In|done]. }
  split; [done|]. split; [|done].
  intros exts -> Hne. destruct exts as [|ext exts]; [done|].
  apply negb_false_iff, bool_decide_eq_true in Hext. done.
Qed.

End WithFilesystem.

(** A file system with one readable shapefile under [/tmp]. *)
Lemma validated_path_is_safe_witness :
  (∃ allowed_dir, allowed_dir ∈ ["/home/gis"; "/tmp"] ∧
                  String.prefix allowed_dir "/tmp/roads.shp" = true) ∧
  ".shp" ∉ DANGEROUS_EXTENSIONS.
Proof.
  destruct (validated_path_is_safe false (λ p, p) (λ p, p) (λ p, p) (λ p, p)
              Some Some (λ c d, String.prefix d c) (λ _, ".shp") (λ _, "roads.shp")
              (λ _, "/tmp") (λ _, true) (λ _, true) (λ _, false)
              (mk_validator ["/home/gis"; "/tmp"]) "/tmp/roads.shp" "read"
              (Some SAFE_GIS_EXTENSIONS) "/tmp/roads.shp")
    as (_ & _ & _ & Hdir & Hext & _).
  - vm_compute. reflexivity.
  - split; [exact Hdir|exact Hext].
Defined.

End PathValidator.

(** ** Message values                                                     *)
(* ===================================================================== *)

Module Json.

(** The values a message is built from: what both wire formats carry.
    A dict keeps its items in insertion order.  Floating-point numbers
    are left out of the model. *)
Inductive json :=
| JNull
| JBool (b : bool)
| JInt (z : Z)
| JStr (s : string)
| JList (l : list json)
| JDict (d : list (string * json)).

Definition dict := list (string * json).

(** [d[k]] for a key that may be missing. *)
Fixpoint dict_lookup (k : string) (d : dict) : option json :=
  match d with
  | [] => None
  | (k', v) :: d' => if String.eqb k' k then Some v else dict_lookup k d'
  end.

(** [d.get(k, dflt)] *)
Definition dict_get (d : dict) (k : string) (dflt : json) : json :=
  default dflt (dict_lookup k d).

(** [x == s] for a string literal [s]. *)
Definition is_str (x : json) (s : string) : bool :=
  match x with
  | JStr s' => String.eqb s' s
  | _ => false
  end.

(** Whether a value can be a dict key or set member. *)
Definition hashable (x : json) : bool :=
  match x with
  | JList _ | JDict _ => false
  | _ => true
  end.

(** Structural equality of values, as a test. *)
Fixpoint json_eqb (a b : json) {struct a} : bool :=
  match a, b with
  | JNull, JNull => true
  | JBool x, JBool y => Bool.eqb x y
  | JInt x, JInt y => Z.eqb x y
  | JStr x, JStr y => String.eqb x y
  | JList l, JList k =>
      (fix items (l k : list json) {struct l} : bool :=
         match l, k with
         | [], [] => true
         | x :: l', y :: k' => json_eqb x y && items l' k'
         | _, _ => false
         end) l k
  | JDict d, JDict e =>
      (fix items (d e : list (string * json)) {struct d} : bool :=
         match d, e with
         | [], [] => true
         | (kx, x) :: d', (ky, y) :: e' => String.eqb kx ky && json_eqb x y && items d' e'
         | _, _ => false
         end) d e
  | _, _ => false
  end.

Lemma json_eqb_eq : ∀ a b, json_eqb a b = true → a = b.
Proof.
  fix IH 1. intros [| x | x | x | l | d] [| y | y | y | k | e]; simpl; try discriminate.
  - done.
  - intros H. apply Bool.eqb_prop in H. by subst.
  - intros H%Z.eqb_eq. by subst.
  - intros H%String.eqb_eq. by subst.
  - intros H. f_equal. revert k H.
    induction l as [|x l IHl]; intros [|y k]; try discriminate; [done|].
    intros [H1 H2]%andb_true_iff. f_equal; [by apply IH|by apply IHl].
  - intros H. f_equal. revert e H.
    induction d as [|[kx x] d IHd]; intros [|[ky y] e]; try discriminate; [done|].
    intros [[H0 H1]%andb_true_iff H2]%andb_true_iff.
    apply String.eqb_eq in H0. subst. f_equal; [f_equal; by apply IH|by apply IHd].
Qed.

End Json.

(* ===================================================================== *)
(** ** The dispatcher                                                     *)
(* ===================================================================== *)

Module Dispatch.

Import Json.

(** [str.isascii]: a string is held as its UTF-8 bytes, and a character
    is ASCII exactly when it is one byte below 128. *)
Fixpoint isascii (s : string) : bool :=
  match s with
  | EmptyString => true
  | String c s' => (N_of_ascii c <? 128)%N && isascii s'
  end.

(** [hmac.compare_digest] on two [str]: [None] is the [TypeError] it
    raises when either of them holds a non-ASCII character. *)
Definition compare_digest (a b : string) : option bool :=
  if isascii a && isascii b then Some (String.eqb a b) else None.

(** The authentication manager.  Its token is what
    [secrets.token_urlsafe] made (in this run, or in the run that stored
    it): letters, digits, [-] and [_], hence ASCII. *)
Record AuthenticationManager := mk_auth {
  api_token : string;
  authenticated_clients : gset string;
  api_token_ascii : isascii api_token = true
}.

(** [verify_token]: [hmac.compare_digest] then, on a match,
    [authenticated_clients.add]; [None] when [compare_digest] raises. *)
Definition verify_token (self : AuthenticationManager) (client_addr provided_token : string)
    : AuthenticationManager * option bool :=
  match compare_digest (api_token self) provided_token with
  | Some true =>
      (mk_auth (api_token self) ({[client_addr]} ∪ authenticated_clients self)
         (api_token_ascii self),
       Some true)
  | Some false => (self, Some false)
  | None => (self, None)
  end.

Lemma compare_digest_api_token (self : AuthenticationManager) (token : string) :
  compare_digest (api_token self) token
  = if isascii token then Some (String.eqb (api_token self) token) else None.
Proof. unfold compare_digest. by rewrite (api_token_ascii self). Qed.

Lemma compare_digest_own_token (self : AuthenticationManager) :
  compare_digest (api_token self) (api_token self) = Some true.
Proof. unfold compare_digest. by rewrite (api_token_ascii self), String.eqb_refl. Qed.

Lemma verify_token_match (self : AuthenticationManager) (client_addr : string) :
  verify_token self client_addr (api_token self)
  = (mk_auth (api_token self) ({[client_addr]} ∪ authenticated_clients self)
       (api_token_ascii self),
     Some true).
Proof.
  unfold verify_token. by rewrite compare_digest_own_token.
Qed.

Lemma verify_token_cases (self : AuthenticationManager) (client_addr token : string) :
  verify_token self client_addr token
  = if isascii token
    then if String.eqb (api_token self) token
         then (mk_auth (api_token self) ({[client_addr]} ∪ authenticated_clients self)
                 (api_token_ascii self),
               Some true)
         else (self, Some false)
    else (self, None).
Proof.
  unfold verify_token. rewrite compare_digest_api_token.
  destruct (isascii token); [|done]. by destruct (String.eqb _ _).
Qed.

(** What the caller is told when a message is not served. *)
Inductive response_error :=
| AuthenticationRequired
| RateLimitExceeded
| ClientLockedOut (remaining : Z)
| UnknownCommandType (msg_type : json)
| OperationNotPermitted
| InternalServerError.

(** The response envelope [{type: "response", id, success, data?, error?}]. *)
Record Response := mk_response {
  resp_id : json;
  resp_success : bool;
  resp_data : option json;
  resp_error : option response_error
}.

Definition failure (msg_id : json) (e : response_error) : Response :=
  mk_response msg_id false None (Some e).

(** How a command handler ends: it returns data, raises
    [SecurityException], or raises something else. *)
Inductive handler_outcome :=
| Returned (data : json)
| RaisedSecurity
| RaisedOther.

(** The names registered in [self.command_handlers]. *)
Definition command_handlers : list string :=
  [ "authenticate"; "list_layers"; "get_features"; "load_layer";
    "execute_code"; "get_stats"; "ping" ].

Definition _get_operation_type (msg_type : json) : string :=
  if is_str msg_type "authenticate" then "authentication"
  else if is_str msg_type "execute_code" || is_str msg_type "load_layer" then "expensive"
  else if is_str msg_type "ping" || is_str msg_type "get_stats" then "cheap"
  else "normal".

Section WithHandlers.

(** The performance monitor and the domain handlers are collaborators:
    the monitor's state and update, and the outcome of each registered
    handler other than [authenticate]. *)
Variable PerformanceMonitor : Type.
Variable record_command : PerformanceMonitor → json → Q → PerformanceMonitor.
Variable domain_handler : string → dict → string → handler_outcome.

Record SecureQGISMCPServer := mk_server {
  require_auth : bool;
  auth_manager : AuthenticationManager;
  rate_limiter : RateLimit.ImprovedRateLimiter;
  perf_monitor : PerformanceMonitor
}.

Definition with_limiter (self : SecureQGISMCPServer) (rl : RateLimit.ImprovedRateLimiter)
    : SecureQGISMCPServer :=
  mk_server (require_auth self) (auth_manager self) rl (perf_monitor self).

(** The clock readings of one dispatch: in [check_rate_limit], in
    [record_failed_auth], and the elapsed time handed to the monitor. *)
Record clock := mk_clock { t_check : Q; t_failed : Q; t_elapsed : Q }.

(** [_handle_authenticate]: the server after it, and how it ended. *)
Definition _handle_authenticate (self : SecureQGISMCPServer) (message : dict)
    (client_id : string) (clk : clock) : SecureQGISMCPServer * handler_outcome :=
  match dict_get message "data" (JDict []) with
  | JDict data =>
      match dict_get data "token" (JStr "") with
      | JStr token =>
          let v := verify_token (auth_manager self) client_id token in
          match v.2 with
          | Some true =>
              (mk_server (require_auth self) v.1
                 (RateLimit.record_successful_auth (rate_limiter self) client_id)
                 (perf_monitor self),
               Returned (JDict [("authenticated", JBool true)]))
          | Some false =>
              (mk_server (require_auth self) v.1
                 (RateLimit.record_failed_auth (rate_limiter self) client_id (t_failed clk))
                 (perf_monitor self),
               RaisedSecurity)
          | None => (self, RaisedOther)
          end
      | _ => (self, RaisedOther)
      end
  | _ => (self, RaisedOther)
  end.

(** [handler(message, client_id)] for the handler registered under
    [name]. *)
Definition run_handler (self : SecureQGISMCPServer) (name : string) (message : dict)
    (client_id : string) (clk : clock) : SecureQGISMCPServer * handler_outcome :=
  if String.eqb name "authenticate"
  then _handle_authenticate self message client_id clk
  else (self, domain_handler name message client_id).

Definition _process_message (self : SecureQGISMCPServer) (message : dict)
    (client_id : string) (authenticated : bool) (clk : clock)
    : SecureQGISMCPServer * Response :=
  let msg_id := dict_get message "id" (JStr "0") in
  let msg_type := dict_get message "type" (JStr "unknown") in
  if require_auth self && negb authenticated && negb (is_str msg_type "authenticate")
  then (self, failure msg_id AuthenticationRequired)
  else
    let operation_type := _get_operation_type msg_type in
    let checked :=
      RateLimit.check_rate_limit (rate_limiter self) client_id operation_type (t_check clk) in
    let self1 := with_limiter self checked.1 in
    match checked.2 with
    | inl (RateLimit.LockedOut remaining) =>
        (self1, failure msg_id (ClientLockedOut remaining))
    | inr false => (self1, failure msg_id RateLimitExceeded)
    | inr true =>
        if negb (hashable msg_type) then (self1, failure msg_id InternalServerError)
        else
          match msg_type with
          | JStr name =>
              if bool_decide (name ∈ command_handlers) then
                let h := run_handler self1 name message client_id clk in
                match h.2 with
                | Returned result =>
                    (mk_server (require_auth h.1) (auth_manager h.1) (rate_limiter h.1)
                       (record_command (perf_monitor h.1) msg_type (t_elapsed clk)),
                     mk_response msg_id true (Some result) None)
                | RaisedSecurity => (h.1, failure msg_id OperationNotPermitted)
                | RaisedOther => (h.1, failure msg_id InternalServerError)
                end
              else (self1, failure msg_id (UnknownCommandType msg_type))
          | _ => (self1, failure msg_id (UnknownCommandType msg_type))
          end
    end.

(** One slot of the class's window is taken: after the call the window
    holds the pruned earlier timestamps and, last, this call's. *)
Definition slot_consumed (before after : SecureQGISMCPServer)
    (client_id operation_type : string) (now : Q) : Prop :=
  let key := RateLimit.history_key client_id operation_type in
  RateLimit.request_history (rate_limiter after) !! key
  = Some (RateLimit.newer_than
            (now - inject_Z (RateLimit.lim_window (RateLimit.limits_get operation_type)))
            (default [] (RateLimit.request_history (rate_limiter before) !! key))
          ++ [now]).

(** The inner loop of [_handle_client]: the messages read off one
    connection, each with the clock readings of its dispatch, processed
    in order; the connection's [authenticated] flag is raised by a
    successful [authenticate]. *)
Fixpoint serve (self : SecureQGISMCPServer) (client_id : string) (authenticated : bool)
    (inbox : list (dict * clock)) : SecureQGISMCPServer * list Response * bool :=
  match inbox with
  | [] => (self, [], authenticated)
  | (message, clk) :: inbox' =>
      let r := _process_message self message client_id authenticated clk in
      let authenticated' :=
        if is_str (dict_get message "type" JNull) "authenticate" && resp_success r.2
        then true else authenticated in
      let rest := serve r.1 client_id authenticated' inbox' in
      (rest.1.1, r.2 :: rest.1.2, rest.2)
  end.

End WithHandlers.

Arguments mk_server {PerformanceMonitor}.
Arguments require_auth {PerformanceMonitor}.
Arguments auth_manager {PerformanceMonitor}.
Arguments rate_limiter {PerformanceMonitor}.
Arguments perf_monitor {PerformanceMonitor}.
Arguments with_limiter {PerformanceMonitor}.
Arguments _handle_authenticate {PerformanceMonitor}.
Arguments run_handler {PerformanceMonitor}.
Arguments _process_message {PerformanceMonitor}.
Arguments slot_consumed {PerformanceMonitor}.
Arguments serve {PerformanceMonitor}.

(** A server that demands authentication, with no traffic so far, with a
    monitor that keeps nothing and handlers that return [None]. *)
Definition quiet_server : SecureQGISMCPServer unit :=
  mk_server true (mk_auth "0123456789abcdef0123456789abcdef" ∅ eq_refl)
    RateLimit.new_limiter tt.

Definition quiet_dispatch (self : SecureQGISMCPServer unit) (message : dict)
    (client_id : string) (authenticated : bool) (clk : clock)
    : SecureQGISMCPServer unit * Response :=
  _process_message (λ p _ _, p) (λ _ _ _, Returned JNull)
    self message client_id authenticated clk.

(** [{"type": "ping", "id": "2"}] *)
Definition ping_message : dict := [("type", JStr "ping"); ("id", JStr "2")].

Lemma run_handler_history {PerformanceMonitor : Type}
    (domain_handler : string → dict → string → handler_outcome)
    (self : SecureQGISMCPServer PerformanceMonitor) (name : string) (message : dict)
    (client_id : string) (clk : clock) :
  RateLimit.request_history (rate_limiter (run_handler domain_handler self name message client_id clk).1)
  = RateLimit.request_history (rate_limiter self).
Proof.
  unfold run_handler, _handle_authenticate.
  destruct (String.eqb name "authenticate"); [|done].
  destruct (dict_get message "data" (JDict [])); try done.
  destruct (dict_get d "token" (JStr "")); try done.
  destruct (verify_token _ _ _).2 as [[|]|]; simpl; [done| |done].
  apply RateLimit.record_failed_auth_history.
Qed.

(** C2, as stated, fails: a [ping] from a client that has not
    authenticated, on a server that demands authentication, is answered
    "Authentication required" and takes no slot of the "cheap" budget. *)
Lemma unauthenticated_message_takes_no_slot :
  let r := quiet_dispatch quiet_server ping_message "127.0.0.1:5000" false (mk_clock 7 7 0) in
  r.2 = failure (JStr "2") AuthenticationRequired ∧
  r.1 = quiet_server ∧
  ¬ slot_consumed quiet_server r.1 "127.0.0.1:5000" "cheap" 7.
Proof.
  cbv zeta. split; [reflexivity|]. split; [reflexivity|].
  unfold slot_consumed. cbv zeta.
  change (quiet_dispatch quiet_server ping_message "127.0.0.1:5000" false (mk_clock 7 7 0)).1
    with quiet_server.
  simpl. rewrite lookup_empty. discriminate.
Qed.

(** C2, amended: a non-authenticate message from a client that has not
    authenticated, when authentication is mandatory, is refused before
    the rate limiter is consulted and leaves the server as it was.  Every
    other message goes through [check_rate_limit] for its operation
    class: when that admits the call, one slot of the class's window is
    taken (also for [authenticate], whatever the handler then does); when
    the window is full the caller is told so and the window only loses
    its expired entries; when the client is locked out the rate limiter
    is left as it was. *)
Theorem process_message_rate_budget {PerformanceMonitor : Type}
    (record_command : PerformanceMonitor → json → Q → PerformanceMonitor)
    (domain_handler : string → dict → string → handler_outcome)
    (self : SecureQGISMCPServer PerformanceMonitor) (message : dict)
    (client_id : string) (authenticated : bool) (clk : clock) :
  let msg_id := dict_get message "id" (JStr "0") in
  let msg_type := dict_get message "type" (JStr "unknown") in
  let op := _get_operation_type msg_type in
  let key := RateLimit.history_key client_id op in
  let r := _process_message record_command domain_handler
             self message client_id authenticated clk in
  if require_auth self && negb authenticated && negb (is_str msg_type "authenticate")
  then r = (self, failure msg_id AuthenticationRequired)
  else
    match (RateLimit.check_rate_limit (rate_limiter self) client_id op (t_check clk)).2 with
    | inr true => slot_consumed self r.1 client_id op (t_check clk)
    | inr false =>
        r.2 = failure msg_id RateLimitExceeded ∧
        RateLimit.request_history (rate_limiter r.1) !! key
        = Some (RateLimit.newer_than
                  (t_check clk - inject_Z (RateLimit.lim_window (RateLimit.limits_get op)))
                  (default [] (RateLimit.request_history (rate_limiter self) !! key)))
    | inl (RateLimit.LockedOut remaining) =>
        r.2 = failure msg_id (ClientLockedOut remaining) ∧
        rate_limiter r.1 = rate_limiter self
    end.
Proof.
  cbv zeta. unfold _process_message, slot_consumed.
  destruct (require_auth self && negb authenticated && negb _); [done|].
  pose proof (RateLimit.check_rate_limit_cases (rate_limiter self) client_id
                (_get_operation_type (dict_get message "type" (JStr "unknown")))
                (t_check clk)) as Hcases.
  cbv zeta in Hcases. destruct Hcases as [_ Hcases].
  destruct (RateLimit.check_rate_limit _ _ _ _) as [rl [[remaining]|[|]]]; simpl in *.
  - by subst rl.
  - assert (Hh : ∀ name,
      RateLimit.request_history (rate_limiter (run_handler domain_handler
         (with_limiter self rl) name message client_id clk).1)
      = RateLimit.request_history rl) by (intros; apply run_handler_history).
    destruct (negb (hashable _)); [done|].
    destruct (dict_get message "type" (JStr "unknown")); try done.
    case_bool_decide; [|done].
    destruct (run_handler domain_handler (with_limiter self rl) s message client_id clk).2
      eqn:Hout; simpl; by rewrite Hh.
  - done.
Qed.

(** *** Authentication through the dispatcher *)

Section DispatchFacts.

Context {PerformanceMonitor : Type}.
Variable record_command : PerformanceMonitor → json → Q → PerformanceMonitor.
Variable domain_handler : string → dict → string → handler_outcome.

Lemma with_limiter_same (self : SecureQGISMCPServer PerformanceMonitor) :
  with_limiter self (rate_limiter self) = self.
Proof. by destruct self. Qed.

(** X10: While a client is locked out, every message that gets past the
    authentication gate, an [authenticate] with the right token included,
    is answered with the lockout and leaves the server as it was. *)
Theorem locked_out_client_is_refused
    (self : SecureQGISMCPServer PerformanceMonitor) (message : dict)
    (client_id : string) (authenticated : bool) (clk : clock) (lockout_until : Q) :
  RateLimit.lockouts (rate_limiter self) !! client_id = Some lockout_until →
  (t_check clk < lockout_until)%Q →
  require_auth self && negb authenticated
    && negb (is_str (dict_get message "type" (JStr "unknown")) "authenticate") = false →
  _process_message record_command domain_handler self message client_id authenticated clk
  = (self, failure (dict_get message "id" (JStr "0"))
             (ClientLockedOut (RateLimit.py_int (lockout_until - t_check clk)))).
Proof.
  intros Hl Hlt Hgate. unfold _process_message. rewrite Hgate.
  rewrite (RateLimit.check_rate_limit_locked _ _ _ _ _ Hl Hlt). simpl.
  by rewrite with_limiter_same.
Qed.

(** X11: An [authenticate] message carrying the server's token, admitted by
    the rate limiter, succeeds: the client joins the authenticated set
    and its failure record and lockout are gone. *)
Theorem authenticate_with_token_succeeds
    (self : SecureQGISMCPServer PerformanceMonitor) (message data : dict)
    (client_id : string) (authenticated : bool) (clk : clock) :
  dict_lookup "type" message = Some (JStr "authenticate") →
  dict_lookup "data" message = Some (JDict data) →
  dict_lookup "token" data = Some (JStr (api_token (auth_manager self))) →
  (RateLimit.check_rate_limit (rate_limiter self) client_id "authentication" (t_check clk)).2
    = inr true →
  let r := _process_message record_command domain_handler
             self message client_id authenticated clk in
  resp_success r.2 = true ∧
  resp_data r.2 = Some (JDict [("authenticated", JBool true)]) ∧
  client_id ∈ authenticated_clients (auth_manager r.1) ∧
  RateLimit.failed_auth_attempts (rate_limiter r.1) !! client_id = None ∧
  RateLimit.lockouts (rate_limiter r.1) !! client_id = None.
Proof.
  intros Hty Hdata Htok Hadmit. unfold _process_message, dict_get. cbv zeta.
  rewrite Hty. simpl. rewrite andb_false_r.
  change (_get_operation_type (JStr "authenticate")) with "authentication".
  destruct (RateLimit.check_rate_limit _ _ _ _) as [rl res]. simpl in Hadmit. subst res.
  simpl. unfold run_handler, _handle_authenticate, dict_get. simpl.
  rewrite Hdata. simpl. rewrite Htok. simpl.
  rewrite verify_token_match. simpl.
  rewrite !lookup_delete_eq. repeat split; try done. set_solver.
Qed.

(** X12: An [authenticate] message with a token that is a string but not
    the server's, admitted by the rate limiter, leaves the authenticated
    set as it was.  If the token is ASCII the answer is "Operation not
    permitted" and the failure is recorded at the handler's clock
    reading; if it holds a non-ASCII character, [hmac.compare_digest]
    raises, the answer is "Internal server error" and no failure is
    recorded. *)
Theorem authenticate_with_wrong_token_fails
    (self : SecureQGISMCPServer PerformanceMonitor) (message data : dict)
    (client_id token : string) (authenticated : bool) (clk : clock) :
  dict_lookup "type" message = Some (JStr "authenticate") →
  dict_lookup "data" message = Some (JDict data) →
  dict_lookup "token" data = Some (JStr token) →
  token ≠ api_token (auth_manager self) →
  (RateLimit.check_rate_limit (rate_limiter self) client_id "authentication" (t_check clk)).2
    = inr true →
  let r := _process_message record_command domain_handler
             self message client_id authenticated clk in
  auth_manager r.1 = auth_manager self ∧
  if isascii token
  then r.2 = failure (dict_get message "id" (JStr "0")) OperationNotPermitted ∧
       RateLimit.failed_auth_attempts (rate_limiter r.1) !! client_id
       = Some (RateLimit.newer_than (t_failed clk - 3600)
                 (default [] (RateLimit.failed_auth_attempts (rate_limiter self)
                                !! client_id))
               ++ [t_failed clk])
  else r.2 = failure (dict_get message "id" (JStr "0")) InternalServerError ∧
       RateLimit.failed_auth_attempts (rate_limiter r.1)
       = RateLimit.failed_auth_attempts (rate_limiter self) ∧
       RateLimit.lockouts (rate_limiter r.1) !! client_id = None.
Proof.
  intros Hty Hdata Htok Hne Hadmit. unfold _process_message, dict_get. cbv zeta.
  rewrite Hty. simpl. rewrite andb_false_r.
  change (_get_operation_type (JStr "authenticate")) with "authentication".
  pose proof (RateLimit.check_rate_limit_cases (rate_limiter self) client_id
                "authentication" (t_check clk)) as [Hfailed _].
  pose proof (RateLimit.check_rate_limit_admits (rate_limiter self) client_id
                "authentication" (t_check clk)) as Hunlocked.
  destruct (RateLimit.check_rate_limit _ _ _ _) as [rl res].
  simpl in Hadmit, Hfailed, Hunlocked.
  subst res. simpl. unfold run_handler, _handle_authenticate, dict_get. simpl.
  rewrite Hdata. simpl. rewrite Htok. simpl.
  rewrite verify_token_cases.
  destruct (isascii token); simpl.
  - destruct (String.eqb_spec (api_token (auth_manager self)) token) as [Heq|_]; [by subst|].
    simpl. split; [done|]. split; [done|].
    unfold RateLimit.record_failed_auth. rewrite Hfailed.
    destruct (_ >=? 5); simpl; by rewrite lookup_insert_eq.
  - split; [done|]. split; [done|]. split; [done|]. by apply (Hunlocked true).
Qed.

Lemma process_message_api_token
    (self : SecureQGISMCPServer PerformanceMonitor) (message : dict)
    (client_id : string) (authenticated : bool) (clk : clock) :
  api_token (auth_manager (_process_message record_command domain_handler
                             self message client_id authenticated clk).1)
  = api_token (auth_manager self).
Proof.
  unfold _process_message. destruct (_ && _ && _); [done|].
  destruct (RateLimit.check_rate_limit _ _ _ _) as [rl [[rem]|[|]]]; simpl; try done.
  destruct (negb (hashable _)); [done|].
  destruct (dict_get message "type" (JStr "unknown")); try done.
  case_bool_decide; [|done].
  unfold run_handler, _handle_authenticate.
  destruct (String.eqb s "authenticate"); simpl.
  - destruct (dict_get message "data" (JDict [])); simpl; try done.
    destruct (dict_get d "token" (JStr "")); simpl; try done.
    rewrite verify_token_cases.
    destruct (isascii s0); [|done]. destruct (String.eqb _ _); simpl; done.
  - destruct (domain_handler _ _ _); done.
Qed.

(** A successful answer to an [authenticate] message means the token the
    handler read from it ([data.get('token', '')], with [data] defaulting
    to the empty dict) is the server's token. *)
Lemma authenticate_success_token
    (self : SecureQGISMCPServer PerformanceMonitor) (message : dict)
    (client_id : string) (authenticated : bool) (clk : clock) :
  is_str (dict_get message "type" JNull) "authenticate" = true →
  resp_success (_process_message record_command domain_handler
                  self message client_id authenticated clk).2 = true →
  ∃ data, dict_get message "data" (JDict []) = JDict data ∧
          dict_get data "token" (JStr "") = JStr (api_token (auth_manager self)).
Proof.
  unfold dict_get at 1. destruct (dict_lookup "type" message) as [ty|] eqn:Hty; [|done].
  simpl. destruct ty as [| | |name| |]; try done. intros ->%String.eqb_eq.
  assert (Hty' : dict_get message "type" (JStr "unknown") = JStr "authenticate")
    by (unfold dict_get; by rewrite Hty).
  unfold _process_message. cbv zeta. rewrite !Hty'. simpl. rewrite andb_false_r.
  destruct (RateLimit.check_rate_limit _ _ _ _) as [rl [[rem]|[|]]]; simpl; try done.
  unfold run_handler, _handle_authenticate. simpl.
  destruct (dict_get message "data" (JDict [])) as [| | | | |data]; simpl; try done.
  destruct (dict_get data "token" (JStr "")) as [| | |token| |] eqn:Htok; simpl; try done.
  rewrite verify_token_cases. destruct (isascii token); simpl; [|done].
  destruct (String.eqb_spec (api_token (auth_manager self)) token) as [<-|_]; simpl; [|done].
  eauto.
Qed.

(** X13: On a server that demands authentication, a connection that starts
    unauthenticated and never sends [authenticate] is answered
    "Authentication required" every time and changes nothing on the
    server. *)
Theorem unauthenticated_connection_gets_nothing
    (self : SecureQGISMCPServer PerformanceMonitor) (client_id : string)
    (inbox : list (dict * clock)) :
  require_auth self = true →
  Forall (λ mc, is_str (dict_get mc.1 "type" (JStr "unknown")) "authenticate" = false) inbox →
  serve record_command domain_handler self client_id false inbox
  = (self,
     map (λ mc, failure (dict_get mc.1 "id" (JStr "0")) AuthenticationRequired) inbox,
     false).
Proof.
  intros Hreq. induction 1 as [|[message clk] inbox Hm _ IH]; [done|].
  simpl in Hm. simpl serve. unfold _process_message. rewrite Hreq, Hm. simpl.
  assert (is_str (dict_get message "type" JNull) "authenticate" = false) as ->.
  { revert Hm. unfold dict_get. by destruct (dict_lookup "type" message). }
  simpl. by rewrite IH.
Qed.

(** X14: A connection ends up authenticated only if it started so or the
    token read from one of its messages ([data.get('token', '')]) is the
    server's token. *)
Theorem authenticated_only_with_token
    (client_id : string) (inbox : list (dict * clock)) :
  ∀ (self : SecureQGISMCPServer PerformanceMonitor) (authenticated : bool),
  (serve record_command domain_handler self client_id authenticated inbox).2 = true →
  authenticated = true ∨
  ∃ message clk data,
    (message, clk) ∈ inbox ∧
    dict_get message "data" (JDict []) = JDict data ∧
    dict_get data "token" (JStr "") = JStr (api_token (auth_manager self)).
Proof.
  induction inbox as [|[message clk] inbox IH]; intros self authenticated; [by left|].
  simpl serve. set (r := _process_message _ _ self message client_id authenticated clk).
  simpl. intros Hfinal. apply IH in Hfinal as [Hnow|(m & c & d & Hin & Hd & Ht)].
  - destruct (is_str _ _ && resp_success r.2) eqn:Hauth; [|by left].
    apply andb_true_iff in Hauth as [Hty Hok]. right.
    destruct (authenticate_success_token self message client_id authenticated clk Hty Hok)
      as (data & Hd & Ht).
    exists message, clk, data. split; [left|done].
  - right. exists m, c, d. split; [by right|]. split; [done|].
    subst r. by rewrite process_message_api_token in Ht.
Qed.

End DispatchFacts.

(** [{"type": "authenticate", "id": 1, "data": {"token": token}}] *)
Definition authenticate_message (token : string) : dict :=
  [("type", JStr "authenticate"); ("id", JInt 1); ("data", JDict [("token", JStr token)])].

(** The one-character token [é], as its two UTF-8 bytes. *)
Definition e_acute : string := String "195"%char (String "169"%char EmptyString).

(** The quiet server after five failed authentications of one client,
    at seconds 0 to 4. *)
Definition locked_server : SecureQGISMCPServer unit :=
  mk_server true (auth_manager quiet_server)
    (RateLimit.fail_many RateLimit.new_limiter "127.0.0.1:5000" [0; 1; 2; 3; 4]%Q) tt.

(** The right token, ten seconds into a sixty-second lockout. *)
Lemma locked_out_client_is_refused_witness :
  quiet_dispatch locked_server (authenticate_message "0123456789abcdef0123456789abcdef")
    "127.0.0.1:5000" false (mk_clock 10 10 0)
  = (locked_server, failure (JInt 1) (ClientLockedOut 54)).
Proof.
  apply (locked_out_client_is_refused (λ p _ _, p) (λ _ _ _, Returned JNull) locked_server
           (authenticate_message "0123456789abcdef0123456789abcdef")
           "127.0.0.1:5000" false (mk_clock 10 10 0) (4 + inject_Z 60)).
  - reflexivity.
  - vm_compute. reflexivity.
  - reflexivity.
Defined.

Lemma authenticate_with_token_succeeds_witness :
  let r := quiet_dispatch quiet_server
             (authenticate_message "0123456789abcdef0123456789abcdef")
             "127.0.0.1:5000" false (mk_clock 0 0 0) in
  resp_success r.2 = true ∧ "127.0.0.1:5000" ∈ authenticated_clients (auth_manager r.1).
Proof.
  destruct (authenticate_with_token_succeeds (λ p _ _, p) (λ _ _ _, Returned JNull)
              quiet_server (authenticate_message "0123456789abcdef0123456789abcdef")
              [("token", JStr "0123456789abcdef0123456789abcdef")]
              "127.0.0.1:5000" false (mk_clock 0 0 0)) as (H1 & _ & H3 & _).
  - reflexivity.
  - reflexivity.
  - reflexivity.
  - reflexivity.
  - exact (conj H1 H3).
Defined.

(** A wrong token of ASCII characters, and the wrong token [é] (the bytes
    195 and 169). *)
Lemma authenticate_with_wrong_token_fails_witness :
  (let r := quiet_dispatch quiet_server (authenticate_message "ffffffffffffffffffffffff")
              "127.0.0.1:5000" false (mk_clock 0 2 0) in
   r.2 = failure (JInt 1) OperationNotPermitted ∧
   RateLimit.failed_auth_attempts (rate_limiter r.1) !! "127.0.0.1:5000" = Some [2%Q]) ∧
  (let r := quiet_dispatch quiet_server (authenticate_message e_acute)
              "127.0.0.1:5000" false (mk_clock 0 2 0) in
   r.2 = failure (JInt 1) InternalServerError ∧
   RateLimit.failed_auth_attempts (rate_limiter r.1) = ∅).
Proof.
  split.
  - destruct (authenticate_with_wrong_token_fails (λ p _ _, p) (λ _ _ _, Returned JNull)
                quiet_server (authenticate_message "ffffffffffffffffffffffff")
                [("token", JStr "ffffffffffffffffffffffff")]
                "127.0.0.1:5000" "ffffffffffffffffffffffff" false (mk_clock 0 2 0))
      as (_ & H1 & H3).
    + reflexivity.
    + reflexivity.
    + reflexivity.
    + discriminate.
    + reflexivity.
    + exact (conj H1 H3).
  - destruct (authenticate_with_wrong_token_fails (λ p _ _, p) (λ _ _ _, Returned JNull)
                quiet_server (authenticate_message e_acute)
                [("token", JStr e_acute)]
                "127.0.0.1:5000" e_acute false (mk_clock 0 2 0))
      as (_ & H1 & H3 & _).
    + reflexivity.
    + reflexivity.
    + reflexivity.
    + discriminate.
    + reflexivity.
    + exact (conj H1 H3).
Defined.

Lemma unauthenticated_connection_gets_nothing_witness :
  serve (λ p _ _, p) (λ _ _ _, Returned JNull) quiet_server "127.0.0.1:5000" false
    [(ping_message, mk_clock 0 0 0);
     ([("type", JStr "list_layers"); ("id", JInt 3)], mk_clock 1 1 0)]
  = (quiet_server,
     [failure (JStr "2") AuthenticationRequired; failure (JInt 3) AuthenticationRequired],
     false).
Proof.
  apply (unauthenticated_connection_gets_nothing (λ p _ _, p) (λ _ _ _, Returned JNull)
           quiet_server "127.0.0.1:5000"
           [(ping_message, mk_clock 0 0 0);
            ([("type", JStr "list_layers"); ("id", JInt 3)], mk_clock 1 1 0)]).
  - reflexivity.
  - repeat constructor.
Defined.

Lemma authenticated_only_with_token_witness :
  false = true ∨
  ∃ message clk data,
    (message, clk) ∈ [(ping_message, mk_clock 0 0 0);
                      (authenticate_message "0123456789abcdef0123456789abcdef",
                       mk_clock 1 1 0)] ∧
    dict_get message "data" (JDict []) = JDict data ∧
    dict_get data "token" (JStr "") = JStr "0123456789abcdef0123456789abcdef".
Proof.
  apply (authenticated_only_with_token (λ p _ _, p) (λ _ _ _, Returned JNull)
           "127.0.0.1:5000"
           [(ping_message, mk_clock 0 0 0);
            (authenticate_message "0123456789abcdef0123456789abcdef", mk_clock 1 1 0)]
           quiet_server false).
  reflexivity.
Defined.

End Dispatch.

(* ===================================================================== *)
(** ** Length-prefixed framing                                            *)
(* ===================================================================== *)

Module Protocol.

Import Json.

Definition bytes := list Byte.byte.

(** [len(b)] *)
Definition len (b : bytes) : Z := Z.of_nat (length b).

Definition HEADER_SIZE : Z := 4.
Definition MAX_MESSAGE_SIZE : Z := 10 * 1024 * 1024.

Definition byte_of_Z (z : Z) : Byte.byte := default Byte.x00 (Byte.of_N (Z.to_N z)).
Definition Z_of_byte (b : Byte.byte) : Z := Z.of_N (Byte.to_N b).

(** [struct.pack('!I', n)]: four bytes, most significant first.  Python
    raises outside [0, 2^32); the callers below stay inside. *)
Definition struct_pack_I (n : Z) : bytes :=
  [ byte_of_Z ((n / 16777216) mod 256); byte_of_Z ((n / 65536) mod 256);
    byte_of_Z ((n / 256) mod 256); byte_of_Z (n mod 256) ].

(** [struct.unpack('!I', b)[0]] *)
Definition struct_unpack_I (b : bytes) : Z :=
  fold_left (λ acc x, acc * 256 + Z_of_byte x) b 0.

(** Shorthands for writing schemas down. *)
Definition obj (items : list (string * json)) : json := JDict items.
Definition strs (l : list string) : json := JList (map JStr l).
Definition id_schema : json := obj [("type", strs ["string"; "integer"])].
Definition typed (t : string) (rest : list (string * json)) : json :=
  obj (("type", JStr t) :: rest).
Definition const (s : string) : json := obj [("const", JStr s)].

(** [MESSAGE_SCHEMAS] *)
Definition MESSAGE_SCHEMAS : list (string * json) :=
  [ ("base",
      typed "object"
        [ ("required", strs ["type"; "id"]);
          ("properties", obj
            [ ("type", typed "string" [("minLength", JInt 1); ("maxLength", JInt 50)]);
              ("id", obj [("type", strs ["string"; "integer"]);
                          ("minLength", JInt 1); ("maxLength", JInt 100)]);
              ("data", typed "object" []) ]);
          ("additionalProperties", JBool false) ]);
    ("authenticate",
      typed "object"
        [ ("required", strs ["type"; "id"; "data"]);
          ("properties", obj
            [ ("type", const "authenticate");
              ("id", id_schema);
              ("data", typed "object"
                [ ("required", strs ["token"]);
                  ("properties", obj
                    [ ("token", typed "string"
                        [("minLength", JInt 16); ("maxLength", JInt 256)]) ]);
                  ("additionalProperties", JBool false) ]) ]);
          ("additionalProperties", JBool false) ]);
    ("execute_code",
      typed "object"
        [ ("required", strs ["type"; "id"; "data"]);
          ("properties", obj
            [ ("type", const "execute_code");
              ("id", id_schema);
              ("data", typed "object"
                [ ("required", strs ["code"]);
                  ("properties", obj
                    [ ("code", typed "string"
                        [("minLength", JInt 1); ("maxLength", JInt 102400)]) ]);
                  ("additionalProperties", JBool false) ]) ]);
          ("additionalProperties", JBool false) ]);
    ("list_layers",
      typed "object"
        [ ("required", strs ["type"; "id"]);
          ("properties", obj
            [ ("type", const "list_layers");
              ("id", id_schema);
              ("data", typed "object"
                [ ("properties", obj
                    [ ("offset", typed "integer"
                        [("minimum", JInt 0); ("maximum", JInt 10000)]);
                      ("limit", typed "integer"
                        [("minimum", JInt 1); ("maximum", JInt 100)]) ]);
                  ("additionalProperties", JBool false) ]) ]);
          ("additionalProperties", JBool false) ]);
    ("get_features",
      typed "object"
        [ ("required", strs ["type"; "id"; "data"]);
          ("properties", obj
            [ ("type", const "get_features");
              ("id", id_schema);
              ("data", typed "object"
                [ ("required", strs ["layer_id"]);
                  ("properties", obj
                    [ ("layer_id", typed "string"
                        [("minLength", JInt 1); ("maxLength", JInt 256)]);
                      ("limit", typed "integer"
                        [("minimum", JInt 1); ("maximum", JInt 10000)]);
                      ("bbox", typed "object"
                        [ ("required", strs ["xmin"; "ymin"; "xmax"; "ymax"]);
                          ("properties", obj
                            [ ("xmin", typed "number" []); ("ymin", typed "number" []);
                              ("xmax", typed "number" []); ("ymax", typed "number" []) ]) ]);
                      ("filter_expression", typed "string" [("maxLength", JInt 10000)]);
                      ("attributes_only", typed "boolean" []);
                      ("simplify_tolerance", typed "number"
                        [("minimum", JInt 0); ("maximum", JInt 1000)]) ]);
                  ("additionalProperties", JBool false) ]) ]);
          ("additionalProperties", JBool false) ]);
    ("load_layer",
      typed "object"
        [ ("required", strs ["type"; "id"; "data"]);
          ("properties", obj
            [ ("type", const "load_layer");
              ("id", id_schema);
              ("data", typed "object"
                [ ("required", strs ["path"]);
                  ("properties", obj
                    [ ("path", typed "string"
                        [("minLength", JInt 1); ("maxLength", JInt 4096)]);
                      ("layer_name", typed "string" [("maxLength", JInt 256)]) ]);
                  ("additionalProperties", JBool false) ]) ]);
          ("additionalProperties", JBool false) ]);
    ("response",
      typed "object"
        [ ("required", strs ["type"; "id"; "success"]);
          ("properties", obj
            [ ("type", const "response");
              ("id", id_schema);
              ("success", typed "boolean" []);
              ("data", obj [("type", strs ["object"; "array"; "string"; "number";
                                           "boolean"; "null"])]);
              ("error", typed "string" [("maxLength", JInt 1000)]) ]);
          ("additionalProperties", JBool false) ]) ].

(** The exceptions of the module: every constructor but the last is a
    [ProtocolException], named after its [raise] site with the numbers
    its message prints; [UnhashableKey] is the [TypeError] of looking an
    unhashable [type] value up in [MESSAGE_SCHEMAS].  [SizeExceedsLimit]
    carries what its message prints as the size: [receive_message]
    prints the length it has read, [try_read_message] prints
    [self.expected_message_size] after [clear_buffer] has reset it. *)
Inductive exn :=
| SerializationFailed
| DeserializationFailed
| NotADictionary
| MissingType
| MissingId
| SchemaValidationFailed (msg : string)
| MessageTooLarge (message_len : Z)
| BufferOverflow (size : Z)
| SizeExceedsLimit (size : option Z)
| ZeroLength
| UnhashableKey.

(** The [raise] statement an exception comes from, without the numbers
    and texts its message carries. *)
Inductive raise_site :=
| AtSerialize | AtDeserialize | AtNotADictionary | AtMissingType | AtMissingId
| AtSchema | AtTooLarge | AtOverflow | AtSizeLimit | AtZeroLength | AtSchemaLookup.

Definition raised_at (e : exn) : raise_site :=
  match e with
  | SerializationFailed => AtSerialize
  | DeserializationFailed => AtDeserialize
  | NotADictionary => AtNotADictionary
  | MissingType => AtMissingType
  | MissingId => AtMissingId
  | SchemaValidationFailed _ => AtSchema
  | MessageTooLarge _ => AtTooLarge
  | BufferOverflow _ => AtOverflow
  | SizeExceedsLimit _ => AtSizeLimit
  | ZeroLength => AtZeroLength
  | UnhashableKey => AtSchemaLookup
  end.

(** [ProtocolHandler], after [__init__] has settled the two switches
    against what is installed. *)
Record ProtocolHandler := mk_handler {
  use_msgpack : bool;
  validate_schema : bool
}.

Definition new_handler (want_msgpack want_schema HAS_MSGPACK HAS_JSONSCHEMA : bool)
    : ProtocolHandler :=
  mk_handler (want_msgpack && HAS_MSGPACK) (want_schema && HAS_JSONSCHEMA).

Record BufferedProtocolHandler := mk_buffered {
  handler : ProtocolHandler;
  buffer : bytes;
  expected_message_size : option Z
}.

Definition new_buffered (h : ProtocolHandler) : BufferedProtocolHandler :=
  mk_buffered h [] None.

Section WithCodecs.

(** The two serialisation libraries and the schema validator.  A codec
    gives [None] where the library raises one of the errors the handler
    catches; the validator gives the [ValidationError]'s message. *)
Variable msgpack_packb : json → option bytes.
Variable msgpack_unpackb : bytes → option json.
Variable json_dumps : json → option bytes.
Variable json_loads : bytes → option json.
Variable jsonschema_validate : json → json → option string.

Definition serialize (self : ProtocolHandler) (data : dict) : exn + bytes :=
  match (if use_msgpack self then msgpack_packb (JDict data) else json_dumps (JDict data)) with
  | Some b => inr b
  | None => inl SerializationFailed
  end.

Definition deserialize (self : ProtocolHandler) (data : bytes) : exn + dict :=
  match (if use_msgpack self then msgpack_unpackb data else json_loads data) with
  | Some (JDict d) => inr d
  | Some _ => inl NotADictionary
  | None => inl DeserializationFailed
  end.

(** [validate_message]: [None] when it returns, else what it raises. *)
Definition validate_message (self : ProtocolHandler) (message : dict) : option exn :=
  if negb (validate_schema self) then None
  else match dict_lookup "type" message with
  | None => Some MissingType
  | Some message_type =>
      match dict_lookup "id" message with
      | None => Some MissingId
      | Some _ =>
          if negb (hashable message_type) then Some UnhashableKey
          else
            let schema :=
              match message_type with
              | JStr t => default (dict_get MESSAGE_SCHEMAS "base" JNull)
                            (dict_lookup t MESSAGE_SCHEMAS)
              | _ => dict_get MESSAGE_SCHEMAS "base" JNull
              end in
            SchemaValidationFailed <$> jsonschema_validate (JDict message) schema
      end
  end.

Definition pack_message (self : ProtocolHandler) (message_dict : dict) : exn + bytes :=
  match validate_message self message_dict with
  | Some e => inl e
  | None =>
      match serialize self message_dict with
      | inl e => inl e
      | inr message_bytes =>
          let message_len := len message_bytes in
          if message_len >? MAX_MESSAGE_SIZE then inl (MessageTooLarge message_len)
          else inr (struct_pack_I message_len ++ message_bytes)
      end
  end.

Definition clear_buffer (self : BufferedProtocolHandler) : BufferedProtocolHandler :=
  mk_buffered (handler self) [] None.

Definition feed_data (self : BufferedProtocolHandler) (data : bytes)
    : BufferedProtocolHandler * (exn + unit) :=
  if len (buffer self) + len data >? MAX_MESSAGE_SIZE
  then (self, inl (BufferOverflow (len (buffer self) + len data)))
  else (mk_buffered (handler self) (buffer self ++ data) (expected_message_size self), inr tt).

(** The tail of [try_read_message], once the size of the next message is
    known. *)
Definition read_body (self : BufferedProtocolHandler) (expected : Z)
    : BufferedProtocolHandler * (exn + option dict) :=
  let total_size := HEADER_SIZE + expected in
  let waiting := mk_buffered (handler self) (buffer self) (Some expected) in
  if len (buffer self) <? total_size then (waiting, inr None)
  else
    let message_data :=
      take (Z.to_nat expected) (drop (Z.to_nat HEADER_SIZE) (buffer self)) in
    let rest := mk_buffered (handler self) (drop (Z.to_nat total_size) (buffer self)) None in
    match deserialize (handler self) message_data with
    | inl e => (rest, inl e)
    | inr message =>
        match validate_message (handler self) message with
        | Some e => (rest, inl e)
        | None => (rest, inr (Some message))
        end
    end.

Definition try_read_message (self : BufferedProtocolHandler)
    : BufferedProtocolHandler * (exn + option dict) :=
  if len (buffer self) <? HEADER_SIZE then (self, inr None)
  else
    match expected_message_size self with
    | Some expected => read_body self expected
    | None =>
        let expected := struct_unpack_I (take (Z.to_nat HEADER_SIZE) (buffer self)) in
        if expected >? MAX_MESSAGE_SIZE
        then
          let self := clear_buffer self in
          (self, inl (SizeExceedsLimit (expected_message_size self)))
        else if expected =? 0 then (clear_buffer self, inl ZeroLength)
        else read_body self expected
    end.

(** What a reader that feeds chunks in order, calling [try_read_message]
    once after each, gets: the messages returned and, when a call
    raises, the exception that ends the run. *)
Record outcome := mk_outcome {
  final : BufferedProtocolHandler;
  messages : list dict;
  raised : option exn
}.

Fixpoint feed_chunks (self : BufferedProtocolHandler) (chunks : list bytes) : outcome :=
  match chunks with
  | [] => mk_outcome self [] None
  | chunk :: chunks' =>
      match feed_data self chunk with
      | (self1, inl e) => mk_outcome self1 [] (Some e)
      | (self1, inr _) =>
          match try_read_message self1 with
          | (self2, inl e) => mk_outcome self2 [] (Some e)
          | (self2, inr None) => feed_chunks self2 chunks'
          | (self2, inr (Some m)) =>
              let o := feed_chunks self2 chunks' in
              mk_outcome (final o) (m :: messages o) (raised o)
          end
      end
  end.

(** What feeding one frame must come to, however it is cut: the frame
    does not fit the buffer, or its header announces no payload, or the
    payload is parsed and checked. *)
Definition frame_outcome (h : ProtocolHandler) (payload : bytes)
    : list dict * option raise_site :=
  if HEADER_SIZE + len payload >? MAX_MESSAGE_SIZE then ([], Some AtOverflow)
  else if len payload =? 0 then ([], Some AtZeroLength)
  else match deserialize h payload with
       | inl e => ([], Some (raised_at e))
       | inr m =>
           match validate_message h m with
           | Some e => ([], Some (raised_at e))
           | None => ([m], None)
           end
       end.

(** *** Lengths and headers *)

Lemma len_app (a b : bytes) : len (a ++ b) = len a + len b.
Proof. unfold len. rewrite length_app. lia. Qed.

Lemma len_nonneg (b : bytes) : 0 ≤ len b.
Proof. unfold len. lia. Qed.

Lemma len_zero (b : bytes) : len b = 0 → b = [].
Proof. unfold len. destruct b; [done|simpl; lia]. Qed.

Lemma len_struct_pack_I (n : Z) : len (struct_pack_I n) = HEADER_SIZE.
Proof. reflexivity. Qed.

Lemma Z_of_byte_of_Z (z : Z) : 0 ≤ z < 256 → Z_of_byte (byte_of_Z z) = z.
Proof.
  intros Hz. unfold Z_of_byte, byte_of_Z.
  destruct (Byte.of_N (Z.to_N z)) as [b|] eqn:Hb.
  - simpl. apply Byte.to_of_N in Hb. rewrite Hb. lia.
  - apply Byte.of_N_None_iff in Hb. lia.
Qed.

Lemma struct_unpack_pack (n : Z) :
  0 ≤ n < 4294967296 → struct_unpack_I (struct_pack_I n) = n.
Proof.
  intros Hn. unfold struct_unpack_I, struct_pack_I. simpl.
  rewrite !Z_of_byte_of_Z by (apply Z.mod_pos_bound; lia).
  Z.div_mod_to_equations. lia.
Qed.

Lemma pack_message_frame (h : ProtocolHandler) (m : dict) (frame : bytes) :
  pack_message h m = inr frame →
  ∃ payload,
    validate_message h m = None ∧ serialize h m = inr payload ∧
    len payload ≤ MAX_MESSAGE_SIZE ∧ frame = struct_pack_I (len payload) ++ payload.
Proof.
  unfold pack_message. destruct (validate_message h m); [done|].
  destruct (serialize h m) as [e|payload]; [done|].
  destruct (len payload >? MAX_MESSAGE_SIZE) eqn:Hlen; [done|].
  intros [= <-]. exists payload. repeat split; try done. lia.
Qed.

(** *** Reading from a buffer that holds the first bytes of one frame *)

Lemma header_of_prefix (payload b rest : bytes) :
  b ++ rest = struct_pack_I (len payload) ++ payload →
  HEADER_SIZE ≤ len b →
  take (Z.to_nat HEADER_SIZE) b = struct_pack_I (len payload).
Proof.
  intros Hcat Hb.
  rewrite <- (take_app_le b rest) by (unfold len, HEADER_SIZE in *; lia).
  rewrite Hcat. by apply take_app_length'.
Qed.

Lemma read_body_waiting (h : ProtocolHandler) (b : bytes) (exp0 : option Z) (n : Z) :
  len b < HEADER_SIZE + n →
  read_body (mk_buffered h b exp0) n = (mk_buffered h b (Some n), inr None).
Proof.
  intros Hlt. unfold read_body. simpl.
  destruct (len b <? HEADER_SIZE + n) eqn:E; [done|lia].
Qed.

Lemma read_body_complete (h : ProtocolHandler) (payload b rest : bytes) (exp0 : option Z) :
  b ++ rest = struct_pack_I (len payload) ++ payload →
  HEADER_SIZE + len payload ≤ len b →
  rest = [] ∧
  read_body (mk_buffered h b exp0) (len payload) =
    let emptied := mk_buffered h [] None in
    match deserialize h payload with
    | inl e => (emptied, inl e)
    | inr m =>
        match validate_message h m with
        | Some e => (emptied, inl e)
        | None => (emptied, inr (Some m))
        end
    end.
Proof.
  intros Hcat Hge.
  assert (Hrest : rest = []).
  { apply len_zero. apply (f_equal len) in Hcat.
    rewrite !len_app, len_struct_pack_I in Hcat. pose proof (len_nonneg rest). lia. }
  subst rest. rewrite app_nil_r in Hcat. split; [done|].
  assert (Hlen : len b = HEADER_SIZE + len payload)
    by (rewrite Hcat, len_app; done).
  unfold read_body. cbn [buffer handler].
  destruct (len b <? HEADER_SIZE + len payload) eqn:E; [lia|].
  rewrite (drop_ge b (Z.to_nat (HEADER_SIZE + len payload)))
    by (unfold len, HEADER_SIZE in *; lia).
  rewrite Hcat.
  rewrite drop_app_length' by done.
  rewrite take_ge by (unfold len; lia).
  done.
Qed.

Lemma feed_chunks_blank (h : ProtocolHandler) (chunks : list bytes) :
  concat chunks = [] →
  feed_chunks (mk_buffered h [] None) chunks = mk_outcome (mk_buffered h [] None) [] None.
Proof.
  induction chunks as [|c chunks IH]; [done|]. simpl. intros Hcat.
  apply app_eq_nil in Hcat as [-> Hcat]. simpl. by apply IH.
Qed.

Lemma feed_chunks_frame (h : ProtocolHandler) (payload : bytes) :
  len payload ≤ MAX_MESSAGE_SIZE →
  ∀ (chunks : list bytes) (b : bytes) (exp0 : option Z),
    b ++ concat chunks = struct_pack_I (len payload) ++ payload →
    len b < HEADER_SIZE + len payload →
    exp0 = None ∨ (exp0 = Some (len payload) ∧ len payload ≠ 0) →
    let o := feed_chunks (mk_buffered h b exp0) chunks in
    (messages o, raised_at <$> raised o) = frame_outcome h payload.
Proof.
  intros Hmax. pose proof (len_nonneg payload) as Hn.
  induction chunks as [|c chunks IH]; intros b exp0 Hcat Hlt Hexp.
  - cbn [concat] in Hcat. rewrite app_nil_r in Hcat. subst b.
    rewrite len_app, len_struct_pack_I in Hlt. lia.
  - cbn [concat] in Hcat. rewrite app_assoc in Hcat.
    assert (Hbc : len (b ++ c) ≤ HEADER_SIZE + len payload).
    { pose proof (f_equal len Hcat) as Hl.
      rewrite (len_app (b ++ c)), (len_app (struct_pack_I _)), len_struct_pack_I in Hl.
      pose proof (len_nonneg (concat chunks)). lia. }
    cbv zeta. simpl feed_chunks. unfold feed_data. simpl buffer.
    rewrite <- len_app.
    destruct (len (b ++ c) >? MAX_MESSAGE_SIZE) eqn:Hov.
    { simpl. unfold frame_outcome.
      destruct (HEADER_SIZE + len payload >? MAX_MESSAGE_SIZE) eqn:E; [done|lia]. }
    simpl handler. simpl expected_message_size.
    unfold try_read_message. simpl buffer. simpl expected_message_size.
    destruct (len (b ++ c) <? HEADER_SIZE) eqn:Hhdr.
    { apply IH; [done|lia|done]. }
    assert (Hbody :
      let o := match read_body (mk_buffered h (b ++ c) exp0) (len payload) with
               | (self2, inl e) => mk_outcome self2 [] (Some e)
               | (self2, inr None) => feed_chunks self2 chunks
               | (self2, inr (Some m)) =>
                   let o := feed_chunks self2 chunks in
                   mk_outcome (final o) (m :: messages o) (raised o)
               end in
      len payload ≠ 0 →
      (messages o, raised_at <$> raised o) = frame_outcome h payload).
    { cbv zeta. intros Hnz.
      destruct (Z.lt_ge_cases (len (b ++ c)) (HEADER_SIZE + len payload)) as [Hw|Hc].
      - rewrite read_body_waiting by done. apply IH; [done|done|by right].
      - destruct (read_body_complete h payload (b ++ c) (concat chunks) exp0 Hcat Hc)
          as [Hblank ->].
        unfold frame_outcome.
        destruct (HEADER_SIZE + len payload >? MAX_MESSAGE_SIZE) eqn:E1; [lia|].
        destruct (len payload =? 0) eqn:E2; [lia|].
        cbv zeta. destruct (deserialize h payload) as [e|m]; [done|].
        destruct (validate_message h m) as [e|]; [done|].
        by rewrite feed_chunks_blank. }
    destruct Hexp as [->|[-> Hnz]]; [|by apply Hbody].
    rewrite (header_of_prefix payload (b ++ c) (concat chunks)) by (done || lia).
    rewrite struct_unpack_pack by (unfold MAX_MESSAGE_SIZE in Hmax; lia).
    destruct (len payload >? MAX_MESSAGE_SIZE) eqn:E1; [lia|].
    destruct (len payload =? 0) eqn:E2.
    + simpl. unfold frame_outcome.
      destruct (HEADER_SIZE + len payload >? MAX_MESSAGE_SIZE) eqn:E3; [lia|]. by rewrite E2.
    + apply Hbody. lia.
Qed.

(** Feeding a packed frame to a fresh handler, cut in any way. *)
Lemma feed_chunks_packed (h : ProtocolHandler) (payload : bytes) (chunks : list bytes) :
  len payload ≤ MAX_MESSAGE_SIZE →
  concat chunks = struct_pack_I (len payload) ++ payload →
  let o := feed_chunks (new_buffered h) chunks in
  (messages o, raised_at <$> raised o) = frame_outcome h payload.
Proof.
  intros Hmax Hcat. apply feed_chunks_frame; [done|done| |by left].
  change (len []) with 0. pose proof (len_nonneg payload). unfold HEADER_SIZE. lia.
Qed.

(** C6: the chunks of a packed frame, fed in order with a read after
    each, give the messages that feeding the frame in one piece gives,
    and a run that raises does so from the same [raise] statement (the
    byte count printed by a buffer overflow is the only thing that can
    differ). *)
Theorem chunked_feed_same_as_whole
    (h : ProtocolHandler) (m : dict) (frame : bytes) (chunks : list bytes) :
  pack_message h m = inr frame →
  concat chunks = frame →
  let whole := feed_chunks (new_buffered h) [frame] in
  let parts := feed_chunks (new_buffered h) chunks in
  messages parts = messages whole ∧
  raised_at <$> raised parts = raised_at <$> raised whole.
Proof.
  intros Hpack Hcat.
  destruct (pack_message_frame h m frame Hpack) as (payload & _ & _ & Hmax & ->).
  pose proof (feed_chunks_packed h payload chunks Hmax Hcat) as Hparts.
  pose proof (feed_chunks_packed h payload [_] Hmax (app_nil_r _)) as Hwhole.
  cbv zeta in *. rewrite <- Hwhole in Hparts. by simplify_eq.
Qed.

(** C5 (the code departs from it): a message that [pack_message] frames
    but whose frame is longer than [MAX_MESSAGE_SIZE] (its payload is
    within four bytes of the limit) is never read back: [feed_data]
    refuses the frame, and fed in pieces the buffer overflows before the
    frame is complete. *)
Theorem frame_near_limit_never_parsed
    (h : ProtocolHandler) (m : dict) (frame : bytes) (chunks : list bytes) :
  pack_message h m = inr frame →
  MAX_MESSAGE_SIZE < len frame →
  concat chunks = frame →
  feed_data (new_buffered h) frame = (new_buffered h, inl (BufferOverflow (len frame))) ∧
  let o := feed_chunks (new_buffered h) chunks in
  messages o = [] ∧ raised_at <$> raised o = Some AtOverflow.
Proof.
  intros Hpack Hbig Hcat. split.
  - unfold feed_data, new_buffered. cbn [buffer]. change (len []) with 0.
    rewrite Z.add_0_l.
    destruct (len frame >? MAX_MESSAGE_SIZE) eqn:E; [done|lia].
  - destruct (pack_message_frame h m frame Hpack) as (payload & _ & _ & Hmax & ->).
    pose proof (feed_chunks_packed h payload chunks Hmax Hcat) as Hparts.
    cbv zeta in *. unfold frame_outcome in Hparts.
    rewrite len_app, len_struct_pack_I in Hbig.
    destruct (HEADER_SIZE + len payload >? MAX_MESSAGE_SIZE) eqn:E; [|lia].
    by simplify_eq.
Qed.

Section WithFaithfulCodecs.

(** Each codec reads back what it wrote, and writes at least one byte. *)
Hypothesis msgpack_roundtrip :
  ∀ v b, msgpack_packb v = Some b → msgpack_unpackb b = Some v ∧ b ≠ [].
Hypothesis json_roundtrip :
  ∀ v b, json_dumps v = Some b → json_loads b = Some v ∧ b ≠ [].

Lemma deserialize_serialize (h : ProtocolHandler) (m : dict) (payload : bytes) :
  serialize h m = inr payload → deserialize h payload = inr m ∧ payload ≠ [].
Proof.
  unfold serialize, deserialize. destruct (use_msgpack h).
  - destruct (msgpack_packb (JDict m)) as [b|] eqn:Hb; [|done].
    intros [= <-]. destruct (msgpack_roundtrip _ _ Hb) as [-> ?]. done.
  - destruct (json_dumps (JDict m)) as [b|] eqn:Hb; [|done].
    intros [= <-]. destruct (json_roundtrip _ _ Hb) as [-> ?]. done.
Qed.

(** X15: Below the buffer's limit the round trip holds, in either format and
    however the frame is cut. *)
Lemma pack_parse_roundtrip
    (h : ProtocolHandler) (m : dict) (frame : bytes) (chunks : list bytes) :
  pack_message h m = inr frame →
  len frame ≤ MAX_MESSAGE_SIZE →
  concat chunks = frame →
  let o := feed_chunks (new_buffered h) chunks in
  messages o = [m] ∧ raised o = None.
Proof.
  intros Hpack Hfit Hcat.
  destruct (pack_message_frame h m frame Hpack) as (payload & Hvalid & Hser & Hmax & ->).
  pose proof (feed_chunks_packed h payload chunks Hmax Hcat) as Hparts.
  destruct (deserialize_serialize h m payload Hser) as [Hde Hne].
  cbv zeta in *. unfold frame_outcome in Hparts.
  rewrite len_app, len_struct_pack_I in Hfit.
  destruct (HEADER_SIZE + len payload >? MAX_MESSAGE_SIZE) eqn:E; [lia|].
  destruct (len payload =? 0) eqn:E0.
  { exfalso. apply Hne, len_zero. lia. }
  rewrite Hde, Hvalid in Hparts.
  destruct (feed_chunks (new_buffered h) chunks) as [f ms [e|]]; by simplify_eq/=.
Qed.

End WithFaithfulCodecs.

End WithCodecs.



(** *** A concrete codec and validator, to run the handler on

    A serialiser with [json.dumps]'s layout for values whose strings are
    plain printable ASCII (no quote, no backslash); a reader that knows a
    given list of values; and a validator for the keywords that
    [MESSAGE_SCHEMAS] uses. *)

Definition dq : string := String "034"%char EmptyString.

Definition plain_char (c : ascii) : bool :=
  let n := nat_of_ascii c in
  (32 <=? n)%nat && (n <=? 126)%nat && negb (n =? 34)%nat && negb (n =? 92)%nat.

Fixpoint plain_string (s : string) : bool :=
  match s with
  | EmptyString => true
  | String c s' => plain_char c && plain_string s'
  end.

Definition quote (s : string) : option string :=
  if plain_string s then Some (dq +:+ s +:+ dq) else None.

Fixpoint dumps_str (v : json) : option string :=
  match v with
  | JNull => Some "null"
  | JBool b => Some (if b then "true" else "false")
  | JInt z => Some (NilZero.string_of_int (Z.to_int z))
  | JStr s => quote s
  | JList l =>
      match
        (fix items (l : list json) (sep : string) : option string :=
           match l with
           | [] => Some ""
           | x :: l' =>
               match dumps_str x, items l' ", " with
               | Some a, Some b => Some (sep +:+ a +:+ b)
               | _, _ => None
               end
           end) l ""
      with
      | Some body => Some ("[" +:+ body +:+ "]")
      | None => None
      end
  | JDict d =>
      match
        (fix items (d : list (string * json)) (sep : string) : option string :=
           match d with
           | [] => Some ""
           | (k, x) :: d' =>
               match quote k, dumps_str x, items d' ", " with
               | Some q, Some a, Some b => Some (sep +:+ q +:+ ": " +:+ a +:+ b)
               | _, _, _ => None
               end
           end) d ""
      with
      | Some body => Some ("{" +:+ body +:+ "}")
      | None => None
      end
  end.

Definition dumps_plain (v : json) : option bytes :=
  String.list_byte_of_string <$> dumps_str v.

(** The reader: the first known value that [dumps_plain] writes as the
    given bytes. *)
Definition loads_known (known : list json) (b : bytes) : option json :=
  List.find
    (λ v, match dumps_str v with
          | Some s => String.eqb s (String.string_of_list_byte b)
          | None => false
          end) known.

Definition json_type_is (t : string) (v : json) : bool :=
  match v with
  | JDict _ => String.eqb t "object"
  | JList _ => String.eqb t "array"
  | JStr _ => String.eqb t "string"
  | JInt _ => String.eqb t "integer" || String.eqb t "number"
  | JBool _ => String.eqb t "boolean"
  | JNull => String.eqb t "null"
  end.

Definition check_type (t : json) (v : json) : bool :=
  match t with
  | JStr t => json_type_is t v
  | JList ts =>
      existsb (λ t, match t with JStr t => json_type_is t v | _ => false end) ts
  | _ => true
  end.

Definition complain (ok : bool) (msg : string) : option string :=
  if ok then None else Some msg.

(** The keywords that do not descend into sub-schemas. *)
Definition flat_keyword (key : string) (val : json) (kw : dict) (inst : json)
    : option string :=
  if String.eqb key "type" then complain (check_type val inst) "wrong type"
  else if String.eqb key "const" then
    match val with
    | JStr c => complain (is_str inst c) "const mismatch"
    | _ => None
    end
  else if String.eqb key "required" then
    match val, inst with
    | JList ks, JDict d =>
        complain
          (forallb (λ k, match k with
                         | JStr k => bool_decide (is_Some (dict_lookup k d))
                         | _ => true
                         end) ks)
          "missing required property"
    | _, _ => None
    end
  else if String.eqb key "additionalProperties" then
    match val, inst with
    | JBool false, JDict d =>
        let listed :=
          match dict_lookup "properties" kw with
          | Some (JDict ps) => map fst ps
          | _ => []
          end in
        complain (forallb (λ kv : string * json, bool_decide (kv.1 ∈ listed)) d)
          "additional properties are not allowed"
    | _, _ => None
    end
  else if String.eqb key "minLength" then
    match val, inst with
    | JInt n, JStr x => complain (n <=? Z.of_nat (String.length x)) "too short"
    | _, _ => None
    end
  else if String.eqb key "maxLength" then
    match val, inst with
    | JInt n, JStr x => complain (Z.of_nat (String.length x) <=? n) "too long"
    | _, _ => None
    end
  else if String.eqb key "minimum" then
    match val, inst with
    | JInt n, JInt x => complain (n <=? x) "below the minimum"
    | _, _ => None
    end
  else if String.eqb key "maximum" then
    match val, inst with
    | JInt n, JInt x => complain (x <=? n) "above the maximum"
    | _, _ => None
    end
  else None.

Definition first_error (a b : option string) : option string :=
  match a with Some e => Some e | None => b end.

Fixpoint keyword_validate (inst : json) (schema : json) {struct schema} : option string :=
  match schema with
  | JDict kw =>
      (fix each (items : list (string * json)) : option string :=
         match items with
         | [] => None
         | (key, val) :: items' =>
             first_error
               (if String.eqb key "properties" then
                  match val, inst with
                  | JDict props, JDict d =>
                      (fix each_property (ps : list (string * json)) : option string :=
                         match ps with
                         | [] => None
                         | (k, sub) :: ps' =>
                             first_error
                               (match dict_lookup k d with
                                | Some x => keyword_validate x sub
                                | None => None
                                end)
                               (each_property ps')
                         end) props
                  | _, _ => None
                  end
                else flat_keyword key val kw inst)
               (each items')
         end) kw
  | _ => None
  end.

(** A handler for the JSON format with schema validation on, and
    [pack_message], [feed_data], [feed_chunks] run with the concrete
    codec and validator (no MessagePack library installed). *)
Definition json_handler : ProtocolHandler := new_handler true true false true.

Abbreviation pack_plain :=
  (pack_message (λ _, None) dumps_plain keyword_validate json_handler).

Abbreviation feed_plain known :=
  (feed_chunks (λ _, None) (loads_known known) keyword_validate).

(** [{"type": "ping", "id": "msg_001"}] *)
Definition ping_message : dict := [("type", JStr "ping"); ("id", JStr "msg_001")].

(** [{"type": "x", "id": 1, "data": {"k": filler}}] *)
Definition padded_message (filler : string) : dict :=
  [("type", JStr "x"); ("id", JInt 1); ("data", JDict [("k", JStr filler)])].

(** [n] times the letter a. *)
Fixpoint letters (n : nat) : string :=
  match n with
  | O => EmptyString
  | S n' => String "a"%char (letters n')
  end.

Example dumps_ping :
  dumps_str (JDict ping_message)
  = Some ("{" +:+ dq +:+ "type" +:+ dq +:+ ": " +:+ dq +:+ "ping" +:+ dq +:+ ", "
          +:+ dq +:+ "id" +:+ dq +:+ ": " +:+ dq +:+ "msg_001" +:+ dq +:+ "}").
Proof. reflexivity. Qed.

Example validate_ping :
  validate_message keyword_validate json_handler ping_message = None.
Proof. reflexivity. Qed.

Example validate_short_token :
  validate_message keyword_validate json_handler
    [("type", JStr "authenticate"); ("id", JInt 1); ("data", JDict [("token", JStr "short")])]
  = Some (SchemaValidationFailed "too short").
Proof. reflexivity. Qed.

(** The text around the filler in [json.dumps(padded_message(filler))]. *)
Definition padded_prefix : string :=
  Eval vm_compute in
    "{" +:+ dq +:+ "type" +:+ dq +:+ ": " +:+ dq +:+ "x" +:+ dq +:+ ", "
    +:+ dq +:+ "id" +:+ dq +:+ ": 1, "
    +:+ dq +:+ "data" +:+ dq +:+ ": {" +:+ dq +:+ "k" +:+ dq +:+ ": " +:+ dq.

Definition padded_suffix : string := Eval vm_compute in dq +:+ "}}".

Lemma string_append_assoc (a b c : string) : (a +:+ b) +:+ c = a +:+ (b +:+ c).
Proof.
  induction a as [|x a IH]; [done|].
  change (String x ((a +:+ b) +:+ c) = String x (a +:+ (b +:+ c))). by rewrite IH.
Qed.

Lemma string_append_nil_r (a : string) : a +:+ "" = a.
Proof.
  induction a as [|x a IH]; [done|].
  change (String x (a +:+ "") = String x a). by rewrite IH.
Qed.

Lemma string_length_append (a b : string) :
  String.length (a +:+ b) = (String.length a + String.length b)%nat.
Proof.
  induction a as [|c a IH]; [done|].
  change (S (String.length (a +:+ b)) = S (String.length a + String.length b)).
  by rewrite IH.
Qed.

Lemma length_list_byte_of_string (s : string) :
  length (String.list_byte_of_string s) = String.length s.
Proof.
  unfold String.list_byte_of_string. rewrite length_map.
  induction s as [|c s IH]; simpl; congruence.
Qed.

Lemma plain_letters (n : nat) : plain_string (letters n) = true.
Proof. induction n as [|n IH]; simpl; [done|]. by rewrite IH. Qed.

Lemma length_letters (n : nat) : String.length (letters n) = n.
Proof. induction n as [|n IH]; simpl; congruence. Qed.

Lemma dumps_padded (filler : string) :
  plain_string filler = true →
  dumps_str (JDict (padded_message filler))
  = Some (padded_prefix +:+ filler +:+ padded_suffix).
Proof.
  intros H. cbn. unfold quote. rewrite H.
  repeat match goal with
         | |- context [plain_string ?s] =>
             let v := eval vm_compute in (plain_string s) in
             change (plain_string s) with v
         end.
  cbv iota. rewrite ?string_append_assoc, ?string_append_nil_r. reflexivity.
Qed.

(** The padded message passes the base schema whatever the filler. *)
Lemma validate_padded (filler : string) :
  validate_message keyword_validate json_handler (padded_message filler) = None.
Proof. reflexivity. Qed.

(** Its frame is the filler plus 41 bytes of JSON plus the header. *)
Lemma pack_padded (n : nat) :
  Z.of_nat n + 41 ≤ MAX_MESSAGE_SIZE →
  ∃ frame,
    pack_plain (padded_message (letters n)) = inr frame ∧ len frame = Z.of_nat n + 45.
Proof.
  intros Hn. unfold pack_message.
  rewrite validate_padded. unfold serialize, dumps_plain.
  cbn [json_handler new_handler use_msgpack andb].
  rewrite dumps_padded by apply plain_letters. cbn [fmap option_fmap option_map].
  set (payload := String.list_byte_of_string _).
  assert (Hlen : len payload = Z.of_nat n + 41).
  { unfold len, payload.
    rewrite length_list_byte_of_string, !string_length_append, length_letters.
    change (String.length padded_prefix) with 38%nat.
    change (String.length padded_suffix) with 3%nat. lia. }
  destruct (len payload >? MAX_MESSAGE_SIZE) eqn:E; [lia|].
  eexists. split; [reflexivity|].
  rewrite len_app, len_struct_pack_I, Hlen. unfold HEADER_SIZE. lia.
Qed.

(** A message whose JSON text is exactly [MAX_MESSAGE_SIZE] bytes long:
    it is packed, and the frame cannot be fed. *)
Lemma frame_near_limit_never_parsed_witness :
  ∃ frame,
    pack_plain (padded_message (letters (Z.to_nat 10485719))) = inr frame ∧
    len frame = MAX_MESSAGE_SIZE + 4 ∧
    feed_data (new_buffered json_handler) frame
    = (new_buffered json_handler, inl (BufferOverflow (len frame))).
Proof.
  assert (Hfit : Z.of_nat (Z.to_nat 10485719) + 41 ≤ MAX_MESSAGE_SIZE).
  { rewrite Z2Nat.id by lia. unfold MAX_MESSAGE_SIZE. lia. }
  destruct (pack_padded (Z.to_nat 10485719) Hfit) as (frame & Hpack & Hlen).
  assert (Hlen' : len frame = MAX_MESSAGE_SIZE + 4).
  { rewrite Hlen. rewrite Z2Nat.id by lia. reflexivity. }
  assert (Hbig : MAX_MESSAGE_SIZE < len frame) by (rewrite Hlen'; lia).
  exists frame. split; [exact Hpack|]. split; [exact Hlen'|].
  exact (proj1 (frame_near_limit_never_parsed (λ _, None) (λ _, None) dumps_plain
                  (λ _, None) keyword_validate json_handler
                  (padded_message (letters (Z.to_nat 10485719))) frame [frame]
                  Hpack Hbig (app_nil_r frame))).
Defined.

(** The frame of a ping, cut after 3 and after 12 bytes, with an empty
    chunk in between. *)
Lemma chunked_feed_same_as_whole_witness :
  ∃ frame,
    pack_plain ping_message = inr frame ∧
    let known := [JDict ping_message] in
    let chunks := [take 3 frame; []; take 9 (drop 3 frame); drop 12 frame] in
    messages (feed_plain known (new_buffered json_handler) chunks) = [ping_message] ∧
    messages (feed_plain known (new_buffered json_handler) chunks)
    = messages (feed_plain known (new_buffered json_handler) [frame]).
Proof.
  eexists. split; [vm_compute; reflexivity|]. cbv zeta. split; [vm_compute; reflexivity|].
  refine (proj1 (chunked_feed_same_as_whole (λ _, None) (λ _, None) dumps_plain
                   (loads_known [JDict ping_message]) keyword_validate
                   json_handler ping_message _ _ _ _)).
  - vm_compute. reflexivity.
  - vm_compute. reflexivity.
Defined.

(** *** The blocking path and the read loop *)

(** A serialiser and reader for a given vocabulary of values: what
    [dumps_plain] writes for the values listed, nothing for others. *)
Definition dumps_known (known : list json) (v : json) : option bytes :=
  if existsb (json_eqb v) known then dumps_plain v else None.

(** Whether, for each listed value, the reader gives back the value from
    what the serialiser wrote, and that is not empty. *)
Definition vocabulary_ok (known : list json) : bool :=
  forallb (λ v, match dumps_plain v with
                | Some b =>
                    match b, loads_known known b with
                    | _ :: _, Some w => json_eqb w v
                    | _, _ => false
                    end
                | None => true
                end) known.

(** The receiving side of a socket: the bytes the peer sends before it
    closes, and how many of them each successive [recv] finds arrived
    (at least one; when the list runs out, as many as asked for).
    Timeouts are not modelled. *)
Record socket := mk_socket { incoming : bytes; arrivals : list nat }.

(** [socket.recv(bufsize)]: the empty bytes once the peer has closed. *)
Definition recv (s : socket) (bufsize : Z) : socket * bytes :=
  match incoming s with
  | [] => (s, [])
  | _ :: _ =>
      let arrived :=
        match arrivals s with
        | a :: _ => Z.max 1 (Z.of_nat a)
        | [] => bufsize
        end in
      let k := Z.to_nat (Z.min bufsize arrived) in
      (mk_socket (drop k (incoming s)) (tail (arrivals s)), take k (incoming s))
  end.

(** What the blocking path raises: the connection closing inside a
    message, or one of the handler's exceptions. *)
Inductive recv_exn :=
| SocketClosed (bytes_received num_bytes : Z)
| Raised (e : exn).

(** The [while bytes_received < num_bytes] loop of [_recv_exact], on
    fuel; [None] is the loop not finishing. *)
Fixpoint recv_loop (fuel : nat) (s : socket) (num_bytes : Z) (received : bytes)
    : option (socket * (recv_exn + option bytes)) :=
  if len received <? num_bytes then
    match fuel with
    | O => None
    | S fuel' =>
        let r := recv s (Z.min (num_bytes - len received) 8192) in
        match r.2 with
        | [] =>
            Some (r.1, if len received =? 0 then inr None
                       else inl (SocketClosed (len received) num_bytes))
        | _ :: _ => recv_loop fuel' r.1 num_bytes (received ++ r.2)
        end
    end
  else Some (s, inr (Some received)).

Definition _recv_exact (s : socket) (num_bytes : Z)
    : option (socket * (recv_exn + option bytes)) :=
  recv_loop (Z.to_nat num_bytes) s num_bytes [].

Section Blocking.

Variable msgpack_packb : json → option bytes.
Variable msgpack_unpackb : bytes → option json.
Variable json_dumps : json → option bytes.
Variable json_loads : bytes → option json.
Variable jsonschema_validate : json → json → option string.

(** [receive_message]: [None] from the outside when a loop runs out of
    fuel; inside, the message, [None] for a closed connection, or what
    is raised. *)
Definition receive_message (self : ProtocolHandler) (s : socket)
    : option (socket * (recv_exn + option dict)) :=
  match _recv_exact s HEADER_SIZE with
  | None => None
  | Some (s1, inl e) => Some (s1, inl e)
  | Some (s1, inr None) | Some (s1, inr (Some [])) => Some (s1, inr None)
  | Some (s1, inr (Some header_data)) =>
      let message_len := struct_unpack_I header_data in
      if message_len >? MAX_MESSAGE_SIZE
      then Some (s1, inl (Raised (SizeExceedsLimit (Some message_len))))
      else if message_len =? 0 then Some (s1, inl (Raised ZeroLength))
      else
        match _recv_exact s1 message_len with
        | None => None
        | Some (s2, inl e) => Some (s2, inl e)
        | Some (s2, inr None) | Some (s2, inr (Some [])) => Some (s2, inr None)
        | Some (s2, inr (Some message_data)) =>
            match deserialize msgpack_unpackb json_loads self message_data with
            | inl e => Some (s2, inl (Raised e))
            | inr message =>
                match validate_message jsonschema_validate self message with
                | Some e => Some (s2, inl (Raised e))
                | None => Some (s2, inr (Some message))
                end
            end
        end
  end.

(** The reader's loop [while True: message = try_read_message(); if not
    message: break; ...]: the messages read until a call returns nothing
    (or an empty dict), or raises.  Fuel counts the messages. *)
Fixpoint drain (fuel : nat) (self : BufferedProtocolHandler) : outcome :=
  match fuel with
  | O => mk_outcome self [] None
  | S fuel' =>
      match try_read_message msgpack_unpackb json_loads jsonschema_validate self with
      | (self1, inl e) => mk_outcome self1 [] (Some e)
      | (self1, inr None) | (self1, inr (Some [])) => mk_outcome self1 [] None
      | (self1, inr (Some m)) =>
          let o := drain fuel' self1 in
          mk_outcome (final o) (m :: messages o) (raised o)
      end
  end.

End Blocking.

Lemma vocabulary_round_trip (known : list json) :
  vocabulary_ok known = true →
  ∀ v b, dumps_known known v = Some b → loads_known known b = Some v ∧ b ≠ [].
Proof.
  intros Hok v b. unfold dumps_known.
  destruct (existsb (json_eqb v) known) eqn:Hin; [|done].
  apply existsb_exists in Hin as (w & Hw & ->%json_eqb_eq).
  unfold vocabulary_ok in Hok. rewrite forallb_forall in Hok. specialize (Hok w Hw).
  intros Hb. rewrite Hb in Hok.
  destruct b as [|x b]; [done|]. destruct (loads_known known (x :: b)) as [w'|]; [|done].
  apply json_eqb_eq in Hok as ->. done.
Qed.

Lemma recv_some (s : socket) (bufsize : Z) :
  incoming s ≠ [] → 1 ≤ bufsize →
  ∃ k, (1 ≤ k)%nat ∧ Z.of_nat k ≤ bufsize ∧
       (recv s bufsize).2 = take k (incoming s) ∧
       incoming (recv s bufsize).1 = drop k (incoming s).
Proof.
  intros Hne Hbuf. unfold recv. destruct (incoming s) as [|x rest] eqn:Hin; [done|].
  eexists. split; [|split; [|split; reflexivity]]; destruct (arrivals s); lia.
Qed.

Lemma recv_closed (s : socket) (bufsize : Z) :
  incoming s = [] → recv s bufsize = (s, []).
Proof. intros H. unfold recv. by rewrite H. Qed.

(** The loop collects exactly the bytes asked for, whatever the sizes in
    which they arrive, and leaves the rest in the socket. *)
Lemma recv_loop_complete (num_bytes : Z) (rest : bytes) (fuel : nat) :
  ∀ (want : bytes) (s : socket) (received : bytes),
  incoming s = want ++ rest →
  len received + len want = num_bytes →
  (length want ≤ fuel)%nat →
  ∃ s', recv_loop fuel s num_bytes received = Some (s', inr (Some (received ++ want))) ∧
        incoming s' = rest.
Proof.
  induction fuel as [|fuel IH]; intros want s received Hin Hlen Hfuel.
  - destruct want; [|simpl in Hfuel; lia]. simpl.
    change (len []) with 0 in Hlen.
    destruct (len received <? num_bytes) eqn:E; [lia|].
    rewrite app_nil_r. eauto.
  - simpl. destruct (len received <? num_bytes) eqn:E.
    + assert (Hne : want ≠ []) by (intros ->; change (len []) with 0 in Hlen; lia).
      destruct (recv_some s (Z.min (num_bytes - len received) 8192))
        as (k & Hk1 & Hk2 & Hchunk & Hleft).
      { rewrite Hin. by destruct want. }
      { pose proof (len_nonneg want). destruct want; [done|]. unfold len in *. simpl in *. lia. }
      assert (Hkw : (k ≤ length want)%nat) by (unfold len in *; lia).
      rewrite Hin, take_app_le in Hchunk by done.
      rewrite Hin, drop_app_le in Hleft by done.
      rewrite Hchunk. destruct (take k want) as [|x chunk] eqn:Htake.
      { exfalso. apply (f_equal length) in Htake. rewrite length_take in Htake.
        destruct want; [done|]. simpl in *. lia. }
      rewrite <- Htake.
      destruct (IH (drop k want) (recv s (Z.min (num_bytes - len received) 8192)).1
                  (received ++ take k want)) as (s' & Hloop & Hrest).
      * done.
      * rewrite len_app. unfold len in *. rewrite length_take, length_drop. lia.
      * rewrite length_drop. lia.
      * exists s'. split; [|done]. rewrite Hloop.
        by rewrite <- app_assoc, take_drop.
    + assert (want = []) as ->.
      { apply len_zero. pose proof (len_nonneg want). lia. }
      rewrite app_nil_r. eauto.
Qed.

(** When the peer closes before the bytes asked for have come, the loop
    returns [None] if nothing was read and raises otherwise. *)
Lemma recv_loop_truncated (num_bytes : Z) (fuel : nat) :
  ∀ (part : bytes) (s : socket) (received : bytes),
  incoming s = part →
  len received + len part < num_bytes →
  (length part < fuel)%nat →
  ∃ s', recv_loop fuel s num_bytes received
        = Some (s', if len (received ++ part) =? 0 then inr None
                    else inl (SocketClosed (len (received ++ part)) num_bytes)) ∧
        incoming s' = [].
Proof.
  induction fuel as [|fuel IH]; intros part s received Hin Hlen Hfuel; [lia|].
  simpl. pose proof (len_nonneg part) as Hp. pose proof (len_nonneg received) as Hr.
  destruct (len received <? num_bytes) eqn:E; [|lia].
  destruct part as [|x part].
  - rewrite recv_closed by done. simpl. rewrite app_nil_r. eauto.
  - destruct (recv_some s (Z.min (num_bytes - len received) 8192))
      as (k & Hk1 & Hk2 & Hchunk & Hleft).
    { by rewrite Hin. } { lia. }
    rewrite Hin in Hchunk, Hleft. rewrite Hchunk.
    destruct (take k (x :: part)) as [|y chunk] eqn:Htake.
    { exfalso. apply (f_equal length) in Htake. rewrite length_take in Htake.
      simpl in *. lia. }
    rewrite <- Htake.
    destruct (IH (drop k (x :: part)) (recv s (Z.min (num_bytes - len received) 8192)).1
                (received ++ take k (x :: part))) as (s' & Hloop & Hrest).
    * done.
    * rewrite len_app. unfold len in *. rewrite length_take, length_drop. simpl in *. lia.
    * rewrite length_drop. simpl in *. lia.
    * exists s'. split; [|done]. rewrite Hloop.
      by rewrite <- app_assoc, take_drop.
Qed.

Section FramingFacts.

Variable msgpack_packb : json → option bytes.
Variable msgpack_unpackb : bytes → option json.
Variable json_dumps : json → option bytes.
Variable json_loads : bytes → option json.
Variable jsonschema_validate : json → json → option string.

Abbreviation pack := (pack_message msgpack_packb json_dumps jsonschema_validate).
Abbreviation try_read := (try_read_message msgpack_unpackb json_loads jsonschema_validate).
Abbreviation feed_all := (feed_chunks msgpack_unpackb json_loads jsonschema_validate).
Abbreviation receive := (receive_message msgpack_unpackb json_loads jsonschema_validate).
Abbreviation drain_all := (drain msgpack_unpackb json_loads jsonschema_validate).

(** X16: The four header bytes decode to the number they encode, for every
    length an unsigned 32-bit field can hold. *)
Theorem header_round_trip (n : Z) :
  0 ≤ n < 4294967296 →
  len (struct_pack_I n) = HEADER_SIZE ∧ struct_unpack_I (struct_pack_I n) = n.
Proof. intros Hn. split; [done|]. by apply struct_unpack_pack. Qed.

(** X17: The header of a packed frame states the length of the payload that
    follows it, which is at most [MAX_MESSAGE_SIZE]. *)
Theorem packed_frame_header_matches (h : ProtocolHandler) (m : dict) (frame : bytes) :
  pack h m = inr frame →
  struct_unpack_I (take (Z.to_nat HEADER_SIZE) frame) = len frame - HEADER_SIZE ∧
  0 ≤ len frame - HEADER_SIZE ≤ MAX_MESSAGE_SIZE.
Proof.
  intros Hpack.
  destruct (pack_message_frame _ _ _ h m frame Hpack) as (payload & _ & _ & Hmax & ->).
  pose proof (len_nonneg payload).
  rewrite take_app_length' by done.
  rewrite struct_unpack_pack by (unfold MAX_MESSAGE_SIZE in Hmax; lia).
  rewrite len_app, len_struct_pack_I. lia.
Qed.

Lemma try_read_shrinks (self : BufferedProtocolHandler) :
  len (buffer (try_read self).1) ≤ len (buffer self).
Proof.
  assert (Hdrop : ∀ (k : nat) (b : bytes), len (drop k b) ≤ len b).
  { intros k b. unfold len. rewrite length_drop. lia. }
  assert (Hbody : ∀ n, len (buffer (read_body msgpack_unpackb json_loads
                                       jsonschema_validate self n).1) ≤ len (buffer self)).
  { intros n. unfold read_body. destruct (_ <? _); simpl; [lia|].
    destruct (deserialize _ _ _ _) as [e|m]; simpl; [apply Hdrop|].
    destruct (validate_message _ _ _); simpl; apply Hdrop. }
  pose proof (len_nonneg (buffer self)).
  unfold try_read_message. destruct (_ <? _); [simpl; lia|].
  destruct (expected_message_size self); [apply Hbody|].
  destruct (_ >? _); [simpl; done|]. destruct (_ =? _); [simpl; done|]. apply Hbody.
Qed.

(** X18: The buffer never holds more than [MAX_MESSAGE_SIZE] bytes: over any
    run of feeds and reads that starts within the limit it stays within
    it, and a feed that would pass the limit is refused whole. *)
Theorem buffer_stays_within_limit (chunks : list bytes) :
  ∀ self : BufferedProtocolHandler,
  len (buffer self) ≤ MAX_MESSAGE_SIZE →
  len (buffer (final (feed_all self chunks))) ≤ MAX_MESSAGE_SIZE ∧
  ∀ data, len (buffer self) + len data > MAX_MESSAGE_SIZE →
          feed_data self data = (self, inl (BufferOverflow (len (buffer self) + len data))).
Proof.
  induction chunks as [|c chunks IH]; intros self Hfit.
  - split; [done|]. intros data Hover. unfold feed_data.
    destruct (_ >? _) eqn:E; [done|lia].
  - split.
    + simpl. unfold feed_data.
      destruct (len (buffer self) + len c >? MAX_MESSAGE_SIZE) eqn:E; [done|].
      set (fed := mk_buffered _ _ _).
      assert (Hfed : len (buffer fed) ≤ MAX_MESSAGE_SIZE)
        by (subst fed; simpl; rewrite len_app; lia).
      pose proof (try_read_shrinks fed) as Hshrink.
      destruct (try_read fed) as [self2 [e|[m|]]]; simpl in *; try lia.
      * apply IH. lia.
      * apply IH. lia.
    + intros data Hover. unfold feed_data.
      destruct (_ >? _) eqn:E; [done|lia].
Qed.

(** With a complete frame at the front of the buffer, one read takes
    exactly that frame, gives its message (or raises what parsing it
    raises) and leaves the bytes behind it in place. *)
Lemma try_read_front_frame (h : ProtocolHandler) (payload rest : bytes) :
  0 < len payload ≤ MAX_MESSAGE_SIZE →
  try_read (mk_buffered h (struct_pack_I (len payload) ++ payload ++ rest) None)
  = let left := mk_buffered h rest None in
    match deserialize msgpack_unpackb json_loads h payload with
    | inl e => (left, inl e)
    | inr m =>
        match validate_message jsonschema_validate h m with
        | Some e => (left, inl e)
        | None => (left, inr (Some m))
        end
    end.
Proof.
  intros [Hpos Hmax]. unfold try_read_message. cbn [buffer expected_message_size].
  pose proof (len_nonneg rest) as Hrest.
  assert (Hlen : len (struct_pack_I (len payload) ++ payload ++ rest)
                 = HEADER_SIZE + len payload + len rest)
    by (rewrite !len_app, len_struct_pack_I; lia).
  destruct (_ <? HEADER_SIZE) eqn:E1; [unfold HEADER_SIZE in *; lia|].
  rewrite take_app_length' by done.
  rewrite struct_unpack_pack by (unfold MAX_MESSAGE_SIZE in Hmax; lia).
  destruct (len payload >? MAX_MESSAGE_SIZE) eqn:E2; [lia|].
  destruct (len payload =? 0) eqn:E3; [lia|].
  unfold read_body. cbn [buffer handler].
  destruct (_ <? HEADER_SIZE + len payload) eqn:E4; [lia|].
  rewrite drop_app_length' by done.
  rewrite take_app_length' by (unfold len; lia).
  replace (drop (Z.to_nat (HEADER_SIZE + len payload)) _) with rest; [done|].
  rewrite app_assoc. rewrite drop_app_length'; [done|].
  rewrite length_app. unfold len, HEADER_SIZE. simpl. lia.
Qed.

(** X19: A header that announces no payload, or more than
    [MAX_MESSAGE_SIZE] bytes, makes the read raise and throws the whole
    buffer away; the message of the size error names [None] as the
    size, the announced length being reset with the buffer before the
    message is made. *)
Theorem bad_header_clears_buffer (h : ProtocolHandler) (n : Z) (rest : bytes) :
  0 ≤ n < 4294967296 →
  n = 0 ∨ MAX_MESSAGE_SIZE < n →
  try_read (mk_buffered h (struct_pack_I n ++ rest) None)
  = (mk_buffered h [] None, inl (if n =? 0 then ZeroLength else SizeExceedsLimit None)).
Proof.
  intros Hn Hbad. unfold try_read_message. cbn [buffer expected_message_size].
  pose proof (len_nonneg rest) as Hrest.
  destruct (_ <? HEADER_SIZE) eqn:E1.
  { rewrite len_app, len_struct_pack_I in E1. lia. }
  rewrite take_app_length' by done. rewrite struct_unpack_pack by done.
  destruct Hbad as [->|Hbig]; [done|].
  destruct (n >? MAX_MESSAGE_SIZE) eqn:E2; [|lia].
  destruct (n =? 0) eqn:E3; [unfold MAX_MESSAGE_SIZE in *; lia|done].
Qed.

Section Faithful.

Hypothesis msgpack_roundtrip :
  ∀ v b, msgpack_packb v = Some b → msgpack_unpackb b = Some v ∧ b ≠ [].
Hypothesis json_roundtrip :
  ∀ v b, json_dumps v = Some b → json_loads b = Some v ∧ b ≠ [].

Lemma packed_frame_parses (h : ProtocolHandler) (m : dict) (frame : bytes) :
  pack h m = inr frame →
  ∃ payload,
    frame = struct_pack_I (len payload) ++ payload ∧
    0 < len payload ≤ MAX_MESSAGE_SIZE ∧
    deserialize msgpack_unpackb json_loads h payload = inr m ∧
    validate_message jsonschema_validate h m = None.
Proof.
  intros Hpack.
  destruct (pack_message_frame _ _ _ h m frame Hpack) as (payload & Hv & Hs & Hmax & ->).
  destruct (deserialize_serialize _ _ _ _ msgpack_roundtrip json_roundtrip h m payload Hs)
    as [Hd Hne].
  exists payload. repeat split; try done.
  pose proof (len_nonneg payload). destruct (decide (len payload = 0)) as [H0|]; [|lia].
  by apply len_zero in H0.
Qed.

Lemma drain_S (fuel : nat) (self : BufferedProtocolHandler) :
  drain_all (S fuel) self
  = match try_read self with
    | (self1, inl e) => mk_outcome self1 [] (Some e)
    | (self1, inr None) | (self1, inr (Some [])) => mk_outcome self1 [] None
    | (self1, inr (Some m)) =>
        let o := drain_all fuel self1 in
        mk_outcome (final o) (m :: messages o) (raised o)
    end.
Proof. reflexivity. Qed.

(** X20: Several packed frames fed at once are read back, one message per
    read and in the order sent, and the buffer ends empty. *)
Theorem drain_reads_in_order (h : ProtocolHandler) (ms : list dict) :
  ∀ frames : list bytes,
  Forall2 (λ m frame, pack h m = inr frame ∧ m ≠ []) ms frames →
  drain_all (S (length ms)) (mk_buffered h (concat frames) None)
  = mk_outcome (mk_buffered h [] None) ms None.
Proof.
  induction ms as [|m ms IH]; intros frames Hall.
  - apply Forall2_nil_inv_l in Hall as ->. simpl. unfold try_read_message. simpl. done.
  - apply Forall2_cons_inv_l in Hall as (frame & frames' & [Hpack Hne] & Hall & ->).
    destruct (packed_frame_parses h m frame Hpack) as (payload & -> & Hlen & Hd & Hv).
    rewrite drain_S, concat_cons, <- app_assoc.
    rewrite try_read_front_frame by done. cbv zeta. rewrite Hd, Hv.
    destruct m as [|kv m]; [done|]. by rewrite IH.
Qed.

(** X21: The blocking path reads back every message that [pack_message]
    frames, whatever the sizes in which the bytes arrive, and leaves what
    follows the frame in the socket. *)
Theorem receive_message_round_trip
    (h : ProtocolHandler) (m : dict) (frame rest : bytes) (sizes : list nat) :
  pack h m = inr frame →
  ∃ s', receive h (mk_socket (frame ++ rest) sizes) = Some (s', inr (Some m)) ∧
        incoming s' = rest.
Proof.
  intros Hpack.
  destruct (packed_frame_parses h m frame Hpack) as (payload & -> & [Hpos Hmax] & Hd & Hv).
  unfold receive_message, _recv_exact.
  destruct (recv_loop_complete HEADER_SIZE (payload ++ rest) (Z.to_nat HEADER_SIZE)
              (struct_pack_I (len payload)) (mk_socket ((struct_pack_I (len payload)
                 ++ payload) ++ rest) sizes) []) as (s1 & -> & Hs1).
  { cbn [incoming]. by rewrite <- app_assoc. } { done. } { change (4 ≤ 4)%nat. lia. }
  cbn [app]. unfold struct_pack_I at 1. cbv iota beta.
  fold (struct_pack_I (len payload)).
  rewrite struct_unpack_pack by (unfold MAX_MESSAGE_SIZE in Hmax; lia).
  destruct (len payload >? MAX_MESSAGE_SIZE) eqn:E1; [lia|].
  destruct (len payload =? 0) eqn:E2; [lia|].
  destruct (recv_loop_complete (len payload) rest (Z.to_nat (len payload))
              payload s1 []) as (s2 & -> & Hs2).
  { done. } { done. } { unfold len. lia. }
  cbn [app]. destruct payload as [|x payload]; [done|].
  rewrite Hd, Hv. eauto.
Qed.

End Faithful.

(** X22: When the peer closes after sending only the first [k] bytes of a
    frame, the blocking path returns [None] if that was nothing or
    exactly the header, and raises otherwise. *)
Theorem receive_message_truncated
    (h : ProtocolHandler) (payload : bytes) (k : nat) (sizes : list nat) :
  0 < len payload ≤ MAX_MESSAGE_SIZE →
  (k < 4 + length payload)%nat →
  ∃ s', receive h (mk_socket (take k (struct_pack_I (len payload) ++ payload)) sizes)
        = Some (s',
                if bool_decide (k = 0%nat ∨ k = 4%nat) then inr None
                else if bool_decide (k < 4)%nat
                     then inl (SocketClosed (Z.of_nat k) HEADER_SIZE)
                     else inl (SocketClosed (Z.of_nat k - HEADER_SIZE) (len payload))).
Proof.
  intros [Hpos Hmax] Hk. unfold receive_message, _recv_exact.
  set (frame := struct_pack_I (len payload) ++ payload).
  destruct (decide (k < 4)%nat) as [Hshort|Hlong].
  - destruct (recv_loop_truncated HEADER_SIZE (Z.to_nat HEADER_SIZE) (take k frame)
                (mk_socket (take k frame) sizes) []) as (s1 & -> & _).
    { done. }
    { change (len []) with 0. unfold len. rewrite length_take. unfold HEADER_SIZE. lia. }
    { rewrite length_take. change (Z.to_nat HEADER_SIZE) with 4%nat. lia. }
    cbn [app]. assert (Hlen : len (take k frame) = Z.of_nat k).
    { unfold len. rewrite length_take. subst frame. rewrite length_app. simpl. lia. }
    rewrite Hlen. rewrite (bool_decide_eq_true_2 (k < 4)%nat) by done.
    destruct (decide (k = 0%nat)) as [->|Hne]; [simpl; eauto|].
    rewrite bool_decide_eq_false_2 by lia.
    destruct (Z.of_nat k =? 0) eqn:E; [lia|]. eauto.
  - assert (Hfront : take k frame = struct_pack_I (len payload) ++ take (k - 4) payload).
    { subst frame. rewrite take_app_ge by (simpl; lia). done. }
    rewrite Hfront.
    destruct (recv_loop_complete HEADER_SIZE (take (k - 4) payload) (Z.to_nat HEADER_SIZE)
                (struct_pack_I (len payload))
                (mk_socket (struct_pack_I (len payload) ++ take (k - 4) payload) sizes) [])
      as (s1 & -> & Hs1).
    { done. } { done. } { change (4 ≤ 4)%nat. lia. }
    cbn [app]. unfold struct_pack_I at 1. cbv iota beta.
  fold (struct_pack_I (len payload)).
    rewrite struct_unpack_pack by (unfold MAX_MESSAGE_SIZE in Hmax; lia).
    destruct (len payload >? MAX_MESSAGE_SIZE) eqn:E1; [lia|].
    destruct (len payload =? 0) eqn:E2; [lia|].
    destruct (recv_loop_truncated (len payload) (Z.to_nat (len payload))
                (take (k - 4) payload) s1 []) as (s2 & -> & _).
    { done. }
    { change (len []) with 0. unfold len. rewrite length_take. lia. }
    { rewrite length_take. unfold len. lia. }
    cbn [app]. assert (Hlen : len (take (k - 4) payload) = Z.of_nat k - HEADER_SIZE).
    { unfold len, HEADER_SIZE. rewrite length_take. lia. }
    rewrite Hlen. rewrite (bool_decide_eq_false_2 (k < 4)%nat) by done.
    destruct (decide (k = 4%nat)) as [->|Hne].
    + simpl. eauto.
    + rewrite bool_decide_eq_false_2 by lia.
      destruct (Z.of_nat k - HEADER_SIZE =? 0) eqn:E; [unfold HEADER_SIZE in *; lia|]. eauto.
Qed.

End FramingFacts.

(** *** The theorems above, run on the concrete codec *)

(** [{"type": "list_layers", "id": 7, "data": {"limit": 10}}] *)
Definition list_layers_message : dict :=
  [("type", JStr "list_layers"); ("id", JInt 7); ("data", JDict [("limit", JInt 10)])].

Definition vocabulary : list json := [JDict ping_message; JDict list_layers_message].

Lemma no_msgpack_round_trip :
  ∀ (v : json) (b : bytes), (λ _ : json, @None bytes) v = Some b →
                            (λ _ : bytes, @None json) b = Some v ∧ b ≠ [].
Proof. intros v b. discriminate. Qed.

Lemma vocabulary_is_ok : vocabulary_ok vocabulary = true.
Proof. vm_compute. reflexivity. Qed.

Lemma header_round_trip_witness :
  struct_unpack_I (struct_pack_I MAX_MESSAGE_SIZE) = MAX_MESSAGE_SIZE.
Proof.
  refine (proj2 (header_round_trip MAX_MESSAGE_SIZE _)). unfold MAX_MESSAGE_SIZE. lia.
Defined.

Lemma packed_frame_header_matches_witness :
  ∃ frame, pack_plain ping_message = inr frame ∧
           struct_unpack_I (take (Z.to_nat HEADER_SIZE) frame) = len frame - HEADER_SIZE.
Proof.
  eexists. split; [vm_compute; reflexivity|].
  refine (proj1 (packed_frame_header_matches (λ _, None) dumps_plain keyword_validate
                   json_handler ping_message _ _)).
  vm_compute. reflexivity.
Defined.

Lemma buffer_stays_within_limit_witness :
  len (buffer (final (feed_plain vocabulary (new_buffered json_handler)
                        [[Byte.x00; Byte.x00]; [Byte.x00; Byte.x05; Byte.x7b]])))
  ≤ MAX_MESSAGE_SIZE.
Proof.
  refine (proj1 (buffer_stays_within_limit (λ _, None) (loads_known vocabulary)
                   keyword_validate _ (new_buffered json_handler) _)).
  vm_compute. discriminate.
Defined.

(** A header of four zero bytes, and a header that announces one byte
    more than the limit, each followed by two more bytes. *)
Lemma bad_header_clears_buffer_witness :
  try_read_message (λ _, None) (loads_known vocabulary) keyword_validate
    (mk_buffered json_handler (struct_pack_I 0 ++ [Byte.x7b; Byte.x7d]) None)
  = (mk_buffered json_handler [] None, inl ZeroLength) ∧
  try_read_message (λ _, None) (loads_known vocabulary) keyword_validate
    (mk_buffered json_handler (struct_pack_I 10485761 ++ [Byte.x7b; Byte.x7d]) None)
  = (mk_buffered json_handler [] None, inl (SizeExceedsLimit None)).
Proof.
  split.
  - apply (bad_header_clears_buffer (λ _, None) (loads_known vocabulary) keyword_validate
             json_handler 0 [Byte.x7b; Byte.x7d]).
    + lia.
    + by left.
  - apply (bad_header_clears_buffer (λ _, None) (loads_known vocabulary) keyword_validate
             json_handler 10485761 [Byte.x7b; Byte.x7d]).
    + lia.
    + right. unfold MAX_MESSAGE_SIZE. lia.
Defined.

Lemma drain_reads_in_order_witness :
  ∃ frame1 frame2,
    pack_message (λ _, None) (dumps_known vocabulary) keyword_validate json_handler
      ping_message = inr frame1 ∧
    pack_message (λ _, None) (dumps_known vocabulary) keyword_validate json_handler
      list_layers_message = inr frame2 ∧
    drain (λ _, None) (loads_known vocabulary) keyword_validate 3
      (mk_buffered json_handler (concat [frame1; frame2]) None)
    = mk_outcome (mk_buffered json_handler [] None) [ping_message; list_layers_message] None.
Proof.
  eexists _, _. split; [vm_compute; reflexivity|]. split; [vm_compute; reflexivity|].
  apply (drain_reads_in_order (λ _, None) (λ _, None) (dumps_known vocabulary)
           (loads_known vocabulary) keyword_validate no_msgpack_round_trip
           (vocabulary_round_trip vocabulary vocabulary_is_ok)
           json_handler [ping_message; list_layers_message]).
  repeat constructor; try discriminate; vm_compute; reflexivity.
Defined.

Definition ping_frame : bytes :=
  Eval vm_compute in
    match pack_message (λ _, None) (dumps_known vocabulary) keyword_validate json_handler
            ping_message with
    | inr frame => frame
    | inl _ => []
    end.

Lemma ping_frame_packed :
  pack_message (λ _, None) (dumps_known vocabulary) keyword_validate json_handler
    ping_message = inr ping_frame.
Proof. vm_compute. reflexivity. Qed.

(** The frame of a ping arriving one byte, then three, then five at a
    time, with two more bytes behind it. *)
Lemma receive_message_round_trip_witness :
  ∃ s',
    receive_message (λ _, None) (loads_known vocabulary) keyword_validate json_handler
      (mk_socket (ping_frame ++ [Byte.x00; Byte.x00]) [1; 3; 5; 5; 5; 5; 5; 5; 5; 5]%nat)
    = Some (s', inr (Some ping_message)) ∧
    incoming s' = [Byte.x00; Byte.x00].
Proof.
  exact (receive_message_round_trip (λ _, None) (λ _, None) (dumps_known vocabulary)
           (loads_known vocabulary) keyword_validate no_msgpack_round_trip
           (vocabulary_round_trip vocabulary vocabulary_is_ok)
           json_handler ping_message ping_frame [Byte.x00; Byte.x00]
           [1; 3; 5; 5; 5; 5; 5; 5; 5; 5]%nat ping_frame_packed).
Defined.

(** The peer closes right after the header of a two-byte payload. *)
Lemma receive_message_truncated_witness :
  ∃ s', receive_message (λ _, None) (loads_known vocabulary) keyword_validate json_handler
          (mk_socket (struct_pack_I 2) []) = Some (s', inr None).
Proof.
  apply (receive_message_truncated (λ _, None) (loads_known vocabulary) keyword_validate
           json_handler [Byte.x7b; Byte.x7d] 4 []).
  - vm_compute. split; [reflexivity|discriminate].
  - simpl. lia.
Defined.

Lemma pack_parse_roundtrip_witness :
  ∃ frame,
    pack_message (λ _, None) (dumps_known vocabulary) keyword_validate json_handler
      list_layers_message = inr frame ∧
    messages (feed_plain vocabulary (new_buffered json_handler)
                [take 10 frame; drop 10 frame]) = [list_layers_message].
Proof.
  eexists. split; [vm_compute; reflexivity|].
  refine (proj1 (pack_parse_roundtrip (λ _, None) (λ _, None) (dumps_known vocabulary)
                   (loads_known vocabulary) keyword_validate no_msgpack_round_trip
                   (vocabulary_round_trip vocabulary vocabulary_is_ok)
                   json_handler list_layers_message _ _ _ _ _)).
  - vm_compute. reflexivity.
  - vm_compute. discriminate.
  - vm_compute. reflexivity.
Defined.

End Protocol.

(* ===================================================================== *)
(** ** The asynchronous operation manager                                 *)
(* ===================================================================== *)

Module Async.

Import Json.

Inductive OperationStatus := PENDING | RUNNING | COMPLETED | FAILED | CANCELLED | TIMEOUT.

(** [OperationStatus.value] *)
Definition status_value (s : OperationStatus) : string :=
  match s with
  | PENDING => "pending" | RUNNING => "running" | COMPLETED => "completed"
  | FAILED => "failed" | CANCELLED => "cancelled" | TIMEOUT => "timeout"
  end.

Global Instance OperationStatus_eq_dec : EqDecision OperationStatus.
Proof. solve_decision. Defined.

Record AsyncOperationResult := mk_result {
  request_id : string;
  status : OperationStatus;
  progress : Z;
  progress_message : string;
  result : option json;
  error : option string;
  start_time : Q;
  end_time : option Q;
  result_cancelled : bool
}.

(** Where the worker thread stands in [run]: not yet at its first
    statement; inside the handler; past the [if not self.cancelled] test
    with the handler's value in hand; or done. *)
Inductive worker_phase :=
| NotStarted
| Executing
| Completing (value : json)
| Finished.

(** An executor: the fields the manager and the worker read and write.
    The handler and its parameters are opaque callables; what a handler
    does shows as the steps of [worker_step]. *)
Record AsyncCommandExecutor := mk_executor {
  command_type : string;
  timeout : Q;
  cancelled : bool;
  result_obj : AsyncOperationResult;
  worker : worker_phase
}.

Definition with_result (e : AsyncCommandExecutor) (r : AsyncOperationResult)
    : AsyncCommandExecutor :=
  mk_executor (command_type e) (timeout e) (cancelled e) r (worker e).

Definition at_phase (e : AsyncCommandExecutor) (p : worker_phase) : AsyncCommandExecutor :=
  mk_executor (command_type e) (timeout e) (cancelled e) (result_obj e) p.

Definition set_status (r : AsyncOperationResult) (s : OperationStatus) : AsyncOperationResult :=
  mk_result (request_id r) s (progress r) (progress_message r) (result r) (error r)
    (start_time r) (end_time r) (result_cancelled r).

Definition set_end (r : AsyncOperationResult) (now : Q) : AsyncOperationResult :=
  mk_result (request_id r) (status r) (progress r) (progress_message r) (result r) (error r)
    (start_time r) (Some now) (result_cancelled r).

Definition set_error (r : AsyncOperationResult) (msg : string) : AsyncOperationResult :=
  mk_result (request_id r) (status r) (progress r) (progress_message r) (result r) (Some msg)
    (start_time r) (end_time r) (result_cancelled r).

(** [AsyncOperationResult(request_id)] *)
Definition new_result (id : string) (now : Q) : AsyncOperationResult :=
  mk_result id PENDING 0 "" None None now None false.

(** [AsyncCommandExecutor(...)]: [timeout or 300.0]. *)
Definition new_executor (id command : string) (timeout : option Q) (now : Q)
    : AsyncCommandExecutor :=
  mk_executor command
    (match timeout with
     | Some t => if Qeq_bool t 0 then 300 else t
     | None => 300
     end)
    false (new_result id now) NotStarted.

(** [AsyncCommandExecutor.cancel] *)
Definition cancel (e : AsyncCommandExecutor) (now : Q) : AsyncCommandExecutor :=
  let r := result_obj e in
  mk_executor (command_type e) (timeout e) true
    (mk_result (request_id r) CANCELLED (progress r) (progress_message r) (result r)
       (error r) (start_time r) (Some now) true)
    (worker e).

(** The steps of the worker thread through [run]. *)
Inductive worker_step : AsyncCommandExecutor → AsyncCommandExecutor → Prop :=
| w_begin e :
    worker e = NotStarted →
    worker_step e (at_phase (with_result e (set_status (result_obj e) RUNNING)) Executing)
| w_progress e percent message :
    worker e = Executing → cancelled e = false →
    worker_step e
      (with_result e
         (let r := result_obj e in
          mk_result (request_id r) (status r) percent message (result r) (error r)
            (start_time r) (end_time r) (result_cancelled r)))
| w_return e value :
    worker e = Executing → cancelled e = false →
    worker_step e (at_phase e (Completing value))
| w_return_cancelled e :
    worker e = Executing → cancelled e = true →
    worker_step e (at_phase e Finished)
| w_complete e value now :
    worker e = Completing value →
    worker_step e
      (at_phase
         (with_result e
            (let r := result_obj e in
             mk_result (request_id r) COMPLETED 100 (progress_message r) (Some value)
               (error r) (start_time r) (Some now) (result_cancelled r)))
         Finished)
| w_timeout e msg now :
    worker e = Executing →
    worker_step e
      (at_phase (with_result e (set_end (set_error (set_status (result_obj e) TIMEOUT) msg) now))
         Finished)
| w_fail e msg now :
    worker e = Executing →
    worker_step e
      (at_phase (with_result e (set_end (set_error (set_status (result_obj e) FAILED) msg) now))
         Finished).

(** [self._lock], as far as a worker can tell who holds it.  The
    methods of the manager run one at a time under the lock; the workers
    take no lock.  The one place inside a method where a worker's step
    changes what the method does is in [cancel_operation], and in each
    round of [cancel_all]'s loop, between the test of an executor's
    status and the call of its [cancel]: there the lock is [Cancelling]
    that executor. *)
Inductive lock_state :=
| Unlocked
| Cancelling (request_id : string).

Record AsyncOperationManager := mk_manager {
  max_concurrent : Z;
  cleanup_after : Z;
  operations : gmap string AsyncCommandExecutor;
  _lock : lock_state
}.

Definition new_manager (max_concurrent cleanup_after : Z) : AsyncOperationManager :=
  mk_manager max_concurrent cleanup_after ∅ Unlocked.

Definition with_operations (self : AsyncOperationManager)
    (ops : gmap string AsyncCommandExecutor) : AsyncOperationManager :=
  mk_manager (max_concurrent self) (cleanup_after self) ops (_lock self).

Definition with_lock (self : AsyncOperationManager) (l : lock_state)
    : AsyncOperationManager :=
  mk_manager (max_concurrent self) (cleanup_after self) (operations self) l.

(** What [start_operation] raises: [ValueError] and [RuntimeError]. *)
Inductive start_error :=
| AlreadyExists (request_id : string)
| TooManyConcurrent (active_count max_concurrent : Z).

Definition is_running (e : AsyncCommandExecutor) : bool :=
  bool_decide (status (result_obj e) = RUNNING).

Definition active (e : AsyncCommandExecutor) : bool :=
  bool_decide (status (result_obj e) = PENDING) || bool_decide (status (result_obj e) = RUNNING).

(** [sum(1 for op in self.operations.values() if op.result_obj.status == RUNNING)] *)
Definition active_count (self : AsyncOperationManager) : Z :=
  Z.of_nat (size (filter (λ kv : string * AsyncCommandExecutor, is_running kv.2 = true)
                    (operations self))).

Definition start_operation (self : AsyncOperationManager) (id command : string)
    (timeout : option Q) (now : Q)
    : start_error + AsyncOperationManager * AsyncOperationResult :=
  match operations self !! id with
  | Some _ => inl (AlreadyExists id)
  | None =>
      if active_count self >=? max_concurrent self
      then inl (TooManyConcurrent (active_count self) (max_concurrent self))
      else
        let executor := new_executor id command timeout now in
        inr (with_operations self (<[id := executor]> (operations self)),
             result_obj executor)
  end.

Definition cancel_operation (self : AsyncOperationManager) (id : string) (now : Q)
    : AsyncOperationManager * bool :=
  match operations self !! id with
  | None => (self, false)
  | Some executor =>
      if active executor
      then (with_operations self (<[id := cancel executor now]> (operations self)), true)
      else (self, false)
  end.

(** [cancel_all]: each executor's [cancel] reads the clock on its own. *)
Definition cancel_all (self : AsyncOperationManager) (now : string → Q)
    : AsyncOperationManager * Z :=
  (with_operations self
     (map_imap (λ id e, Some (if active e then cancel e (now id) else e)) (operations self)),
   Z.of_nat (size (filter (λ kv : string * AsyncCommandExecutor, active kv.2 = true)
                     (operations self)))).

(** [result.end_time and (now - result.end_time > self.cleanup_after)] *)
Definition expired (self : AsyncOperationManager) (now : Q) (e : AsyncCommandExecutor) : bool :=
  match end_time (result_obj e) with
  | Some t =>
      negb (Qeq_bool t 0) && RateLimit.Qltb (inject_Z (cleanup_after self)) (now - t)
  | None => false
  end.

Definition cleanup_completed (self : AsyncOperationManager) (now : Q)
    : AsyncOperationManager * Z :=
  (with_operations self
     (filter (λ kv : string * AsyncCommandExecutor, expired self now kv.2 = false)
        (operations self)),
   Z.of_nat (size (filter (λ kv : string * AsyncCommandExecutor, expired self now kv.2 = true)
                     (operations self)))).

(** The dictionary of [AsyncOperationResult.to_dict]. *)
Record status_dict := mk_status_dict {
  sd_request_id : string;
  sd_status : string;
  sd_progress : Z;
  sd_progress_message : string;
  sd_result : option json;
  sd_error : option string;
  sd_elapsed_seconds : Q;
  sd_completed : bool
}.

Section WithRound.

(** Python's [round(x, 2)] on a float. *)
Variable round2 : Q → Q.

Definition to_dict (r : AsyncOperationResult) (now : Q) : status_dict :=
  let finish :=
    match end_time r with
    | Some t => if Qeq_bool t 0 then now else t
    | None => now
    end in
  mk_status_dict (request_id r) (status_value (status r)) (progress r)
    (progress_message r) (result r) (error r) (round2 (finish - start_time r))
    (bool_decide (status r ∈ [COMPLETED; FAILED; CANCELLED; TIMEOUT])).

Definition get_status (self : AsyncOperationManager) (id : string) (now : Q)
    : option status_dict :=
  match operations self !! id with
  | None => None
  | Some executor => Some (to_dict (result_obj executor) now)
  end.

End WithRound.

(** One step of the whole.  The worker of some operation moves, at any
    time, whoever holds the lock.  A caller of the manager moves only
    with the lock: [start_operation] and [cleanup_completed] go through
    in one step; [cancel_operation], and each round of [cancel_all]'s
    loop, take two, the test of the executor's status
    ([step_cancel_test], which finds it pending or running) and the call
    of its [cancel] ([step_cancel_call]), and workers may move in
    between.  A cancel whose test fails changes nothing and is no step.
    Between two rounds of [cancel_all] the steps let other callers in,
    which the lock does not: the relation has every run of the code and
    some more.  [guarded], when given, names a request id that no
    [start_operation] of the run uses. *)
Inductive manager_step (guarded : option string)
    : AsyncOperationManager → AsyncOperationManager → Prop :=
| step_worker self id e e' :
    operations self !! id = Some e → worker_step e e' →
    manager_step guarded self (with_operations self (<[id := e']> (operations self)))
| step_start self id command timeout now self' r :
    _lock self = Unlocked →
    guarded ≠ Some id →
    start_operation self id command timeout now = inr (self', r) →
    manager_step guarded self self'
| step_cancel_test self id e :
    _lock self = Unlocked →
    operations self !! id = Some e → active e = true →
    manager_step guarded self (with_lock self (Cancelling id))
| step_cancel_call self id e now :
    _lock self = Cancelling id →
    operations self !! id = Some e →
    manager_step guarded self
      (with_lock (with_operations self (<[id := cancel e now]> (operations self))) Unlocked)
| step_cleanup self now :
    _lock self = Unlocked →
    manager_step guarded self (cleanup_completed self now).1.

(** An operation whose status says running has a worker that has begun. *)
Definition begun (e : AsyncCommandExecutor) : Prop :=
  status (result_obj e) = RUNNING → worker e ≠ NotStarted.

(** The operation [id], if still in the table, can no longer be
    cancelled and its worker is past its first statement. *)
Definition settled (id : string) (self : AsyncOperationManager) : Prop :=
  ∀ e, operations self !! id = Some e → active e = false ∧ worker e ≠ NotStarted.

(** Every operation of the table whose status says running has begun. *)
Definition all_begun (self : AsyncOperationManager) : Prop :=
  ∀ id e, operations self !! id = Some e → begun e.

(** A manager with room for one operation, whose operation "a" has been
    started and whose worker has run its first statement. *)
Definition busy_manager : AsyncOperationManager :=
  with_operations (new_manager 1 3600)
    {[ "a" := at_phase (with_result (new_executor "a" "render" None 0)
                          (set_status (new_result "a" 0) RUNNING)) Executing ]}.

(** *** Worker steps *)

Lemma worker_step_phase (e e' : AsyncCommandExecutor) :
  worker_step e e' → worker e ≠ NotStarted → worker e' ≠ NotStarted.
Proof. destruct 1; simpl; intros; congruence. Qed.

Lemma worker_step_inactive (e e' : AsyncCommandExecutor) :
  worker_step e e' → worker e ≠ NotStarted → active e = false → active e' = false.
Proof. destruct 1; simpl; intros; try done; congruence. Qed.

Lemma worker_step_begun (e e' : AsyncCommandExecutor) :
  worker_step e e' → begun e → begun e'.
Proof.
  unfold begun. destruct 1 as [e H|e p m H Hc|e v H Hc|e H Hc|e v now H|e m now H|e m now H];
    simpl; intros Hb Hs; try discriminate; try (rewrite H in Hb; by auto); congruence.
Qed.

(** The first step of a worker that has not begun is the assignment of
    [RUNNING], and it is always enabled. *)
Lemma worker_first_step (e : AsyncCommandExecutor) :
  worker e = NotStarted →
  (∃ e', worker_step e e') ∧
  ∀ e', worker_step e e' → status (result_obj e') = RUNNING ∧ worker e' = Executing.
Proof.
  intros Hw. split; [eexists; by apply w_begin|].
  intros e'. destruct 1; simpl; try done; congruence.
Qed.

(** *** The table under the manager's methods *)

Lemma cancel_operation_lookup (self : AsyncOperationManager) (id id' : string) (now : Q) :
  operations (cancel_operation self id now).1 !! id'
  = match operations self !! id' with
    | Some e => Some (if bool_decide (id = id') && active e then cancel e now else e)
    | None => None
    end.
Proof.
  unfold cancel_operation. destruct (operations self !! id) as [ex|] eqn:Hid.
  - destruct (active ex) eqn:Hact; simpl.
    + destruct (decide (id = id')) as [<-|Hne].
      * rewrite lookup_insert_eq, Hid, bool_decide_eq_true_2 by done. simpl. by rewrite Hact.
      * rewrite lookup_insert_ne by done. rewrite bool_decide_eq_false_2 by done.
        by destruct (operations self !! id').
    + destruct (operations self !! id') as [e|] eqn:Hid'; [|done].
      case_bool_decide; simplify_eq; simpl; [by rewrite Hact|done].
  - simpl. destruct (operations self !! id') as [e|] eqn:Hid'; [|done].
    case_bool_decide; by simplify_eq.
Qed.


Lemma cleanup_completed_lookup (self : AsyncOperationManager) (now : Q) (id : string)
    (e : AsyncCommandExecutor) :
  operations (cleanup_completed self now).1 !! id = Some e ↔
  operations self !! id = Some e ∧ expired self now e = false.
Proof. unfold cleanup_completed. simpl. apply map_lookup_filter_Some. Qed.

Lemma start_operation_ok (self self' : AsyncOperationManager) (id command : string)
    (timeout : option Q) (now : Q) (r : AsyncOperationResult) :
  start_operation self id command timeout now = inr (self', r) →
  operations self !! id = None ∧
  active_count self < max_concurrent self ∧
  r = new_result id now ∧
  self' = with_operations self
            (<[id := new_executor id command timeout now]> (operations self)).
Proof.
  unfold start_operation. destruct (operations self !! id); [done|].
  destruct (active_count self >=? max_concurrent self) eqn:E; [done|].
  intros [= <- <-]. repeat split; try done. lia.
Qed.

Lemma settled_step (id : string) (self self' : AsyncOperationManager) :
  settled id self → manager_step (Some id) self self' → settled id self'.
Proof.
  intros Hs Hstep e'.
  destruct Hstep as [self id0 e0 e1 Hl Hw|self id0 c t now self' r Hu Hg Hst
                    |self id0 e0 Hu Hl Ha0|self id0 e0 now Hlk Hl|self now Hu].
  - simpl. destruct (decide (id0 = id)) as [->|Hne].
    + rewrite lookup_insert_eq. intros [= <-]. destruct (Hs _ Hl) as [Ha Hp].
      eauto using worker_step_inactive, worker_step_phase.
    + rewrite lookup_insert_ne by done. apply Hs.
  - apply start_operation_ok in Hst as (_ & _ & _ & ->). simpl.
    rewrite lookup_insert_ne by congruence. apply Hs.
  - apply Hs.
  - simpl. destruct (decide (id0 = id)) as [->|Hne].
    + rewrite lookup_insert_eq. intros [= <-]. by destruct (Hs _ Hl) as [_ Hp].
    + rewrite lookup_insert_ne by done. apply Hs.
  - intros [Hl _]%cleanup_completed_lookup. by apply Hs.
Qed.

Lemma settled_steps (id : string) (self self' : AsyncOperationManager) :
  settled id self → rtc (manager_step (Some id)) self self' → settled id self'.
Proof. induction 2; eauto using settled_step. Qed.

Lemma all_begun_step (guarded : option string) (self self' : AsyncOperationManager) :
  all_begun self → manager_step guarded self self' → all_begun self'.
Proof.
  intros Hb Hstep id e'.
  destruct Hstep as [self id0 e0 e1 Hl Hw|self id0 c t now self' r Hu Hg Hst
                    |self id0 e0 Hu Hl Ha0|self id0 e0 now Hlk Hl|self now Hu].
  - simpl. destruct (decide (id0 = id)) as [->|Hne].
    + rewrite lookup_insert_eq. intros [= <-]. eauto using worker_step_begun.
    + rewrite lookup_insert_ne by done. apply Hb.
  - apply start_operation_ok in Hst as (_ & _ & _ & ->). simpl.
    destruct (decide (id0 = id)) as [->|Hne].
    + rewrite lookup_insert_eq. intros [= <-]. unfold begun. simpl. done.
    + rewrite lookup_insert_ne by done. apply Hb.
  - apply Hb.
  - simpl. destruct (decide (id0 = id)) as [->|Hne].
    + rewrite lookup_insert_eq. intros [= <-]. unfold begun. simpl. done.
    + rewrite lookup_insert_ne by done. apply Hb.
  - intros [Hl _]%cleanup_completed_lookup. by eapply Hb.
Qed.

(** In every state a manager can reach from its creation, a status of
    running means the worker has begun. *)
Lemma reachable_all_begun (cap keep : Z) (self : AsyncOperationManager) :
  rtc (manager_step None) (new_manager cap keep) self → all_begun self.
Proof.
  intros Hr. assert (H0 : all_begun (new_manager cap keep)).
  { intros id e. simpl. by rewrite lookup_empty. }
  revert H0. induction Hr; eauto using all_begun_step.
Qed.

Lemma active_iff (e : AsyncCommandExecutor) :
  active e = true ↔ status (result_obj e) = PENDING ∨ status (result_obj e) = RUNNING.
Proof.
  unfold active. rewrite orb_true_iff, !bool_decide_eq_true. done.
Qed.

(** C7: [cancel_operation] returns [True] exactly when the id is in the
    table with status pending or running.  For an operation that is
    running (its worker has begun), the call returns [True] and leaves it
    cancelled, and from then on, whatever the workers and the callers of
    the manager do short of starting a new operation under the same id,
    every [cancel_operation] of that id returns [False]. *)
Theorem cancel_operation_true_once
    (self : AsyncOperationManager) (id : string) (now : Q) :
  ((cancel_operation self id now).2 = true ↔
   ∃ e, operations self !! id = Some e ∧
        (status (result_obj e) = PENDING ∨ status (result_obj e) = RUNNING)) ∧
  ∀ e, operations self !! id = Some e →
       status (result_obj e) = RUNNING → worker e ≠ NotStarted →
       (cancel_operation self id now).2 = true ∧
       (∃ e', operations (cancel_operation self id now).1 !! id = Some e' ∧
              status (result_obj e') = CANCELLED) ∧
       ∀ later, rtc (manager_step (Some id)) (cancel_operation self id now).1 later →
                ∀ now', (cancel_operation later id now').2 = false.
Proof.
  split.
  - unfold cancel_operation. destruct (operations self !! id) as [e|].
    + destruct (active e) eqn:Ha; simpl; split; try done.
      * intros _. exists e. split; [done|]. by apply active_iff.
      * intros (e' & [= <-] & He'). apply active_iff in He'. congruence.
    + simpl. split; [done|]. by intros (e & ? & _).
  - intros e Hl Hrun Hw.
    assert (Ha : active e = true) by (apply active_iff; by right).
    assert (Hfirst : cancel_operation self id now
                     = (with_operations self (<[id := cancel e now]> (operations self)), true)).
    { unfold cancel_operation. by rewrite Hl, Ha. }
    rewrite Hfirst. simpl. split; [done|]. split.
    { exists (cancel e now). by rewrite lookup_insert_eq. }
    intros later Hsteps now'.
    assert (Hs : settled id later).
    { eapply settled_steps; [|exact Hsteps].
      intros e'. simpl. rewrite lookup_insert_eq. by intros [= <-]. }
    unfold cancel_operation. destruct (operations later !! id) as [e'|] eqn:Hl'; [|done].
    destruct (Hs e' Hl') as [-> _]. done.
Qed.

(** On the busy manager: the first cancel of "a" succeeds, a second one
    right after it does not. *)
Lemma cancel_operation_true_once_witness :
  (cancel_operation busy_manager "a" 5).2 = true ∧
  (cancel_operation (cancel_operation busy_manager "a" 5).1 "a" 6).2 = false.
Proof.
  destruct (cancel_operation_true_once busy_manager "a" 5) as [_ H].
  destruct (H (at_phase (with_result (new_executor "a" "render" None 0)
                           (set_status (new_result "a" 0) RUNNING)) Executing))
    as (H1 & _ & H3).
  - reflexivity.
  - reflexivity.
  - discriminate.
  - split; [exact H1|]. apply H3. apply rtc_refl.
Defined.

(** C8, as stated, fails: with as many operations running as the cap
    allows, a submission under an id already in the table is refused as a
    duplicate, not for capacity. *)
Lemma duplicate_id_at_capacity_is_not_capacity_error :
  active_count busy_manager >= max_concurrent busy_manager ∧
  start_operation busy_manager "a" "render" None 1 = inl (AlreadyExists "a").
Proof. split; [vm_compute; discriminate|reflexivity]. Qed.

(** C8, amended: [start_operation] refuses an id that is already in the
    table; for a new id it refuses with the capacity error when the
    number of running operations has reached the cap; otherwise it puts
    a pending operation in the table and returns its result object, and
    the first step of the operation's worker, which is always enabled,
    makes it running. *)
Theorem start_operation_outcomes
    (self : AsyncOperationManager) (id command : string) (timeout : option Q) (now : Q) :
  match operations self !! id with
  | Some _ => start_operation self id command timeout now = inl (AlreadyExists id)
  | None =>
      if active_count self >=? max_concurrent self
      then start_operation self id command timeout now
           = inl (TooManyConcurrent (active_count self) (max_concurrent self))
      else
        ∃ self' e,
          start_operation self id command timeout now = inr (self', result_obj e) ∧
          operations self' = <[id := e]> (operations self) ∧
          status (result_obj e) = PENDING ∧ cancelled e = false ∧
          (∃ e', worker_step e e') ∧
          ∀ e', worker_step e e' → status (result_obj e') = RUNNING ∧ worker e' = Executing
  end.
Proof.
  unfold start_operation. destruct (operations self !! id); [done|].
  destruct (active_count self >=? max_concurrent self); [done|].
  eexists _, (new_executor id command timeout now).
  split; [reflexivity|]. split; [done|]. split; [done|]. split; [done|].
  by apply worker_first_step.
Qed.

(** C10: for an id that is not in the table, [get_status] returns [None]
    and [cancel_operation] returns [False]; the manager is left as it was. *)
Theorem absent_id_status_and_cancel
    (round2 : Q → Q) (self : AsyncOperationManager) (id : string) (now : Q) :
  operations self !! id = None →
  get_status round2 self id now = None ∧
  cancel_operation self id now = (self, false).
Proof.
  intros Hl. unfold get_status, cancel_operation. by rewrite Hl.
Qed.

(** An id never started, and the id of an operation removed by cleanup. *)
Lemma absent_id_status_and_cancel_witness :
  (get_status (λ x, x) busy_manager "b" 9 = None ∧
   cancel_operation busy_manager "b" 9 = (busy_manager, false)) ∧
  let swept := (cleanup_completed (cancel_operation busy_manager "a" 5).1 4000).1 in
  get_status (λ x, x) swept "a" 4001 = None ∧
  cancel_operation swept "a" 4001 = (swept, false).
Proof.
  split.
  - apply (absent_id_status_and_cancel (λ x, x) busy_manager "b" 9). reflexivity.
  - apply (absent_id_status_and_cancel (λ x, x)
             (cleanup_completed (cancel_operation busy_manager "a" 5).1 4000).1 "a" 4001).
    vm_compute. reflexivity.
Defined.

(** ** The manager beyond the claims *)

(** Every operation sits in the table under its own request id. *)
Definition keyed (self : AsyncOperationManager) : Prop :=
  ∀ id e, operations self !! id = Some e → request_id (result_obj e) = id.

(** The operation [id] is gone, or is still exactly [e], and no cancel
    that has found it pending or running is still to call its
    [cancel]. *)
Definition frozen (id : string) (e : AsyncCommandExecutor) (self : AsyncOperationManager)
    : Prop :=
  (operations self !! id = None ∨ operations self !! id = Some e) ∧
  _lock self ≠ Cancelling id.

(** [start_operation] for each id of a list in turn, with no worker
    getting to run in between; [None] as soon as one of them raises. *)
Fixpoint start_many (self : AsyncOperationManager) (ids : list string) (command : string)
    (timeout : option Q) (now : Q) : option AsyncOperationManager :=
  match ids with
  | [] => Some self
  | id :: ids =>
      match start_operation self id command timeout now with
      | inr (self', _) => start_many self' ids command timeout now
      | inl _ => None
      end
  end.

(** A manager whose operation "a" has run to completion. *)
Definition done_executor : AsyncCommandExecutor :=
  mk_executor "render" 300 false
    (mk_result "a" COMPLETED 100 "" (Some (JInt 1)) None 0 (Some 2%Q) false) Finished.

Definition done_manager : AsyncOperationManager :=
  with_operations (new_manager 1 3600) {[ "a" := done_executor ]}.

Lemma worker_step_request_id (e e' : AsyncCommandExecutor) :
  worker_step e e' → request_id (result_obj e') = request_id (result_obj e).
Proof. by destruct 1. Qed.

Lemma finished_no_step (e e' : AsyncCommandExecutor) :
  worker e = Finished → ¬ worker_step e e'.
Proof. intros Hw Hs. destruct Hs; congruence. Qed.

Lemma keyed_step (guarded : option string) (self self' : AsyncOperationManager) :
  keyed self → manager_step guarded self self' → keyed self'.
Proof.
  intros Hk Hstep id e'.
  destruct Hstep as [self id0 e0 e1 Hl Hw|self id0 c t now self' r Hu Hg Hst
                    |self id0 e0 Hu Hl Ha0|self id0 e0 now Hlk Hl|self now Hu].
  - simpl. destruct (decide (id0 = id)) as [->|Hne].
    + rewrite lookup_insert_eq. intros [= <-].
      rewrite (worker_step_request_id _ _ Hw). by apply Hk.
    + rewrite lookup_insert_ne by done. apply Hk.
  - apply start_operation_ok in Hst as (_ & _ & _ & ->). simpl.
    destruct (decide (id0 = id)) as [->|Hne].
    + rewrite lookup_insert_eq. by intros [= <-].
    + rewrite lookup_insert_ne by done. apply Hk.
  - apply Hk.
  - simpl. destruct (decide (id0 = id)) as [->|Hne].
    + rewrite lookup_insert_eq. intros [= <-]. simpl. by apply Hk.
    + rewrite lookup_insert_ne by done. apply Hk.
  - intros [Hl _]%cleanup_completed_lookup. by apply Hk.
Qed.

Lemma frozen_step (id : string) (e : AsyncCommandExecutor)
    (self self' : AsyncOperationManager) :
  worker e = Finished → active e = false →
  frozen id e self → manager_step (Some id) self self' → frozen id e self'.
Proof.
  intros Hw Ha [Hf Hfree] Hstep. unfold frozen in *.
  destruct Hstep as [self id0 e0 e1 Hl Hs|self id0 c t now self' r Hu Hg Hst
                    |self id0 e0 Hu Hl Ha0|self id0 e0 now Hlk Hl|self now Hu].
  - split; [|done]. simpl. destruct (decide (id0 = id)) as [->|Hne].
    + destruct Hf as [Hf|Hf]; rewrite Hf in Hl; [done|]. injection Hl as <-.
      by destruct (finished_no_step _ _ Hw Hs).
    + by rewrite lookup_insert_ne.
  - apply start_operation_ok in Hst as (_ & _ & _ & ->). simpl.
    rewrite lookup_insert_ne by congruence. done.
  - split; [done|]. simpl. intros [= ->].
    destruct Hf as [Hf|Hf]; rewrite Hf in Hl; [done|]. injection Hl as <-. congruence.
  - assert (id0 ≠ id) by congruence. simpl.
    rewrite lookup_insert_ne by done. done.
  - split; [|simpl; by rewrite Hu]. destruct Hf as [Hf|Hf].
    + left. unfold cleanup_completed. simpl. apply map_lookup_filter_None_2. by left.
    + destruct (expired self now e) eqn:He.
      * left. unfold cleanup_completed. simpl. apply map_lookup_filter_None_2.
        right. intros x Hx. simpl. rewrite Hf in Hx. injection Hx as <-. by rewrite He.
      * right. by apply cleanup_completed_lookup.
Qed.

Lemma active_count_insert_pending (self : AsyncOperationManager) (id : string)
    (e : AsyncCommandExecutor) :
  operations self !! id = None → status (result_obj e) = PENDING →
  active_count (with_operations self (<[id := e]> (operations self))) = active_count self.
Proof.
  intros Hl Hs. unfold active_count. simpl.
  rewrite map_filter_insert_not'; [done| |].
  - simpl. unfold is_running. rewrite Hs. done.
  - intros y Hy. congruence.
Qed.


Lemma cancel_inactive (e : AsyncCommandExecutor) (now : Q) : active (cancel e now) = false.
Proof. done. Qed.

(** *** The manager's cancels as runs of steps *)

(** One round of [cancel_all]'s loop, run without a break. *)
Definition cancel_round (now : string → Q) (ops : gmap string AsyncCommandExecutor)
    (id : string) : gmap string AsyncCommandExecutor :=
  match ops !! id with
  | Some e => if active e then <[id := cancel e (now id)]> ops else ops
  | None => ops
  end.

Lemma with_operations_same (self : AsyncOperationManager) :
  with_operations self (operations self) = self.
Proof. by destruct self. Qed.

Lemma cancel_round_run (guarded : option string) (now : string → Q)
    (self : AsyncOperationManager) (id : string) :
  _lock self = Unlocked →
  rtc (manager_step guarded) self
    (with_operations self (cancel_round now (operations self) id)).
Proof.
  intros Hu. unfold cancel_round.
  destruct (operations self !! id) as [e|] eqn:Hl;
    [|rewrite with_operations_same; apply rtc_refl].
  destruct (active e) eqn:Ha; [|rewrite with_operations_same; apply rtc_refl].
  eapply rtc_l; [by eapply step_cancel_test|].
  eapply rtc_l; [by eapply (step_cancel_call _ _ id e (now id))|].
  destruct self; simpl in *; subst. apply rtc_refl.
Qed.

(** [cancel_operation], with no worker moving while it runs, is a run
    of the steps. *)
Lemma cancel_operation_run (guarded : option string) (self : AsyncOperationManager)
    (id : string) (now : Q) :
  _lock self = Unlocked →
  rtc (manager_step guarded) self (cancel_operation self id now).1.
Proof.
  intros Hu. pose proof (cancel_round_run guarded (λ _, now) self id Hu) as Hrun.
  unfold cancel_round in Hrun. unfold cancel_operation.
  destruct (operations self !! id) as [e|]; [|apply rtc_refl].
  destruct (active e); [exact Hrun|apply rtc_refl].
Qed.

Lemma cancel_rounds_run (guarded : option string) (now : string → Q) (ids : list string) :
  ∀ self, _lock self = Unlocked →
          rtc (manager_step guarded) self
            (with_operations self (foldl (cancel_round now) (operations self) ids)).
Proof.
  induction ids as [|id ids IH]; intros self Hu; simpl.
  - rewrite with_operations_same. apply rtc_refl.
  - etrans; [by apply (cancel_round_run guarded now self id)|].
    apply (IH (with_operations self (cancel_round now (operations self) id))). done.
Qed.

Lemma cancel_rounds_lookup (now : string → Q) (ids : list string) :
  NoDup ids →
  ∀ (ops : gmap string AsyncCommandExecutor) (id : string),
    foldl (cancel_round now) ops ids !! id
    = if bool_decide (id ∈ ids)
      then (λ e, if active e then cancel e (now id) else e) <$> ops !! id
      else ops !! id.
Proof.
  induction 1 as [|id0 ids Hnot Hnd IH]; intros ops id; simpl.
  - done.
  - rewrite IH.
    assert (Hround : ∀ i, cancel_round now ops id0 !! i
                          = if bool_decide (i = id0)
                            then (λ e, if active e then cancel e (now i) else e) <$> ops !! i
                            else ops !! i).
    { intros i. unfold cancel_round. case_bool_decide as Hi.
      - subst i. destruct (ops !! id0) as [e|] eqn:Hl; [|by rewrite Hl].
        destruct (active e) eqn:Ha; simpl.
        + by rewrite lookup_insert_eq, Ha.
        + by rewrite Hl, Ha.
      - destruct (ops !! id0) as [e|]; [|done].
        destruct (active e); [by rewrite lookup_insert_ne|done]. }
    rewrite Hround. destruct (decide (id = id0)) as [->|Hne].
    + rewrite (bool_decide_eq_false_2 (id0 ∈ ids)) by done.
      rewrite (bool_decide_eq_true_2 (id0 = id0)) by done.
      rewrite (bool_decide_eq_true_2 (id0 ∈ id0 :: ids)) by left. done.
    + rewrite (bool_decide_eq_false_2 (id = id0)) by done.
      destruct (decide (id ∈ ids)) as [Hin|Hout].
      * rewrite (bool_decide_eq_true_2 (id ∈ ids)) by done.
        rewrite (bool_decide_eq_true_2 (id ∈ id0 :: ids)) by (by right). done.
      * rewrite (bool_decide_eq_false_2 (id ∈ ids)) by done.
        rewrite (bool_decide_eq_false_2 (id ∈ id0 :: ids)); [done|].
        intros [?|?]%elem_of_cons; done.
Qed.

(** [cancel_all], with no worker moving while it runs, is a run of the
    steps: one round for each executor of the table. *)
Lemma cancel_all_run (guarded : option string) (self : AsyncOperationManager)
    (now : string → Q) :
  _lock self = Unlocked →
  rtc (manager_step guarded) self (cancel_all self now).1.
Proof.
  intros Hu.
  replace (cancel_all self now).1
    with (with_operations self
            (foldl (cancel_round now) (operations self)
               (map_to_list (operations self)).*1));
    [by apply cancel_rounds_run|].
  unfold cancel_all. simpl. f_equal. apply map_eq. intros id.
  rewrite cancel_rounds_lookup by apply NoDup_fst_map_to_list.
  rewrite map_lookup_imap.
  destruct (operations self !! id) as [e|] eqn:Hl; simpl.
  - rewrite bool_decide_eq_true_2; [done|].
    apply list_elem_of_fmap. exists (id, e). split; [done|]. by apply elem_of_map_to_list.
  - by destruct (bool_decide _).
Qed.

(** The run the two steps of a cancel make room for: the cancel finds
    the operation running, the worker then completes it, and the call of
    [cancel] that follows relabels the completed operation, result and
    all, as cancelled. *)
Example late_cancel_relabels_completed :
  ∃ later e,
    rtc (manager_step None) (new_manager 1 3600) later ∧
    operations later !! "a" = Some e ∧
    status (result_obj e) = CANCELLED ∧
    result (result_obj e) = Some (JInt 1) ∧
    worker e = Finished.
Proof.
  eexists _, _. split; [|split].
  - eapply rtc_l.
    { apply (step_start None (new_manager 1 3600) "a" "render" None 0 _ (new_result "a" 0));
        [reflexivity|discriminate|reflexivity]. }
    eapply rtc_l.
    { eapply (step_worker _ _ "a"); [reflexivity|by apply w_begin]. }
    eapply rtc_l.
    { eapply (step_cancel_test _ _ "a"); reflexivity. }
    eapply rtc_l.
    { eapply (step_worker _ _ "a"); [reflexivity|by apply (w_return _ (JInt 1))]. }
    eapply rtc_l.
    { eapply (step_worker _ _ "a"); [reflexivity|by apply (w_complete _ (JInt 1) 5)]. }
    eapply rtc_once.
    eapply (step_cancel_call _ _ "a" _ 6); reflexivity.
  - reflexivity.
  - done.
Qed.

(** *** What [get_status] and [cancel_operation] say about one id *)

(** X23: [get_status] reports an operation as completed exactly when
    [cancel_operation] refuses to cancel it; it returns [None] exactly for
    the ids [cancel_operation] does not find. *)
Theorem completed_flag_matches_cancel
    (round2 : Q → Q) (self : AsyncOperationManager) (id : string) (now now' : Q) :
  match get_status round2 self id now with
  | Some d => sd_completed d = negb (cancel_operation self id now').2
  | None => cancel_operation self id now' = (self, false)
  end.
Proof.
  unfold get_status, cancel_operation, active.
  destruct (operations self !! id) as [e|]; [|done]. simpl.
  destruct (status (result_obj e)); done.
Qed.

(** X24: in every state a manager reaches from its creation, the status
    dictionary returned for an id carries that id. *)
Theorem get_status_reports_own_id
    (round2 : Q → Q) (cap keep : Z) (self : AsyncOperationManager) (id : string) (now : Q)
    (d : status_dict) :
  rtc (manager_step None) (new_manager cap keep) self →
  get_status round2 self id now = Some d →
  sd_request_id d = id.
Proof.
  intros Hr. assert (Hk : keyed self).
  { assert (H0 : keyed (new_manager cap keep)).
    { intros i e. simpl. by rewrite lookup_empty. }
    revert H0. induction Hr; eauto using keyed_step. }
  unfold get_status. destruct (operations self !! id) as [e|] eqn:Hl; [|done].
  intros [= <-]. simpl. by apply Hk.
Qed.

(** X25: an operation whose worker is done, whose status is no longer
    pending or running, and which no cancel in progress has already
    found pending or running, never changes again: whatever the workers
    and the callers of the manager do, short of starting a new operation
    under the same id, the table holds it unchanged until cleanup
    removes it. *)
Theorem finished_operation_is_final
    (self : AsyncOperationManager) (id : string) (e : AsyncCommandExecutor) :
  operations self !! id = Some e → worker e = Finished → active e = false →
  _lock self ≠ Cancelling id →
  ∀ later, rtc (manager_step (Some id)) self later →
           ∀ e', operations later !! id = Some e' → e' = e.
Proof.
  intros Hl Hw Ha Hfree later Hsteps.
  assert (Hf : frozen id e later).
  { assert (H0 : frozen id e self) by (split; [by right|done]).
    clear Hl Hfree. revert H0. induction Hsteps; eauto using frozen_step. }
  intros e' Hl'. destruct Hf as [[Hf|Hf] _]; congruence.
Qed.

(** *** Cancelling *)


(** X27: a cancel that lands before the worker's first statement is
    undone by that statement: the worker sets the status back to running,
    so the operation can be cancelled once more; and a worker whose
    handler then returns finishes without touching the status, which stays
    running for good. *)
Theorem cancel_before_first_statement_is_undone
    (self : AsyncOperationManager) (id : string) (e : AsyncCommandExecutor) (now : Q) :
  operations self !! id = Some e → worker e = NotStarted → active e = true →
  cancel_operation self id now
  = (with_operations self (<[id := cancel e now]> (operations self)), true) ∧
  (∀ e1, worker_step (cancel e now) e1 →
         status (result_obj e1) = RUNNING ∧ cancelled e1 = true ∧
         ∀ now', (cancel_operation
                    (with_operations self (<[id := e1]> (operations self))) id now').2
                 = true) ∧
  ∃ e1 e2, worker_step (cancel e now) e1 ∧ worker_step e1 e2 ∧
           status (result_obj e2) = RUNNING ∧ worker e2 = Finished ∧
           ∀ e3, ¬ worker_step e2 e3.
Proof.
  intros Hl Hw Ha. split; [|split].
  - unfold cancel_operation. by rewrite Hl, Ha.
  - intros e1 Hs.
    assert (Hshape : e1 = at_phase (with_result (cancel e now)
                                      (set_status (result_obj (cancel e now)) RUNNING))
                           Executing).
    { inversion Hs; subst; simpl in *; congruence. }
    subst e1. split; [done|]. split; [done|]. intros now'.
    unfold cancel_operation. simpl. by rewrite lookup_insert_eq.
  - eexists _, _. split; [by apply w_begin|]. split; [by apply w_return_cancelled|].
    split; [done|]. split; [done|]. intros e3. by apply finished_no_step.
Qed.

(** *** Capacity and cleanup *)

(** X28: the cap of [start_operation] counts running operations only: as
    long as no worker has got to its first statement, any number of
    operations under fresh ids is accepted, and the count the cap is
    compared with does not move. *)
Theorem pending_operations_escape_the_cap
    (ids : list string) (command : string) (timeout : option Q) (now : Q) :
  ∀ self : AsyncOperationManager,
  NoDup ids → (∀ id, id ∈ ids → operations self !! id = None) →
  active_count self < max_concurrent self →
  ∃ self', start_many self ids command timeout now = Some self' ∧
           Z.of_nat (size (operations self'))
           = Z.of_nat (size (operations self)) + Z.of_nat (length ids) ∧
           active_count self' = active_count self ∧
           ∀ id, id ∈ ids →
                 ∃ e, operations self' !! id = Some e ∧ status (result_obj e) = PENDING.
Proof.
  induction ids as [|id ids IH]; intros self Hnd Hfresh Hroom.
  - exists self. simpl. split; [done|]. split; [lia|]. split; [done|].
    intros id Hin. by apply elem_of_nil in Hin.
  - apply NoDup_cons in Hnd as [Hid Hnd].
    assert (Hl : operations self !! id = None) by (apply Hfresh; left).
    simpl. unfold start_operation. rewrite Hl.
    destruct (active_count self >=? max_concurrent self) eqn:E; [lia|].
    set (executor := new_executor id command timeout now).
    set (self1 := with_operations self (<[id := executor]> (operations self))).
    assert (Hcount : active_count self1 = active_count self)
      by by apply active_count_insert_pending.
    destruct (IH self1 Hnd) as (self' & Hmany & Hsize & Hact & Hpend).
    { intros id' Hin. simpl. rewrite lookup_insert_ne by (intros ->; done).
      apply Hfresh. by right. }
    { rewrite Hcount. done. }
    exists self'. split; [exact Hmany|]. split.
    { rewrite Hsize. simpl. rewrite map_size_insert_None by done. lia. }
    split; [congruence|].
    intros id' [->|Hin]%elem_of_cons; [|by apply Hpend].
    assert (Hkeep : ∀ other, other ∉ ids → ∀ s s',
               start_many s ids command timeout now = Some s' →
               operations s' !! other = operations s !! other).
    { clear. intros other. induction ids as [|i ids IH]; intros Hnot s s' Hm.
      - simpl in Hm. congruence.
      - simpl in Hm. destruct (start_operation s i command timeout now)
          as [err|[s1 r]] eqn:Hst; [done|].
        apply start_operation_ok in Hst as (_ & _ & _ & ->).
        rewrite (IH ltac:(set_solver) _ _ Hm). simpl.
        apply lookup_insert_ne. set_solver. }
    rewrite (Hkeep id Hid _ _ Hmany). simpl. rewrite lookup_insert_eq.
    by exists executor.
Qed.

(** X29: [cleanup_completed] returns the number of operations it removed;
    an operation with no end time is never removed; and a second cleanup
    at the same clock reading removes nothing. *)
Theorem cleanup_completed_accounts (self : AsyncOperationManager) (now : Q) :
  (cleanup_completed self now).2 + Z.of_nat (size (operations (cleanup_completed self now).1))
  = Z.of_nat (size (operations self)) ∧
  (∀ id e, operations self !! id = Some e → end_time (result_obj e) = None →
           operations (cleanup_completed self now).1 !! id = Some e) ∧
  (cleanup_completed (cleanup_completed self now).1 now).2 = 0.
Proof.
  split; [|split].
  - unfold cleanup_completed. cbn [fst snd operations with_operations].
    set (P := λ kv : string * AsyncCommandExecutor, expired self now kv.2 = true).
    assert (Hco : filter (λ kv : string * AsyncCommandExecutor,
                            expired self now kv.2 = false) (operations self)
                  = filter (λ kv, ¬ P kv) (operations self)).
    { apply map_filter_ext. intros i x _. unfold P. simpl.
      destruct (expired self now x); naive_solver. }
    rewrite Hco.
    rewrite <- (map_filter_union_complement P (operations self)) at 3.
    rewrite map_size_disj_union by apply map_disjoint_filter_complement. lia.
  - intros id e Hl Hend. apply cleanup_completed_lookup. split; [done|].
    unfold expired. by rewrite Hend.
  - unfold cleanup_completed at 1. cbn [snd].
    replace (size _) with 0%nat; [done|]. symmetry.
    apply map_size_empty_iff, map_empty. intros id. apply map_lookup_filter_None_2.
    destruct (operations (cleanup_completed self now).1 !! id) as [e|] eqn:Hl;
      [right|by left].
    intros x [= <-]. apply cleanup_completed_lookup in Hl as [_ He]. simpl.
    unfold expired in *. simpl. by rewrite He.
Qed.

(** *** Statistics *)

(** The dictionary of [get_stats]. *)
Record stats := mk_stats {
  total_operations : Z;
  by_status : gmap string Z;
  stats_max_concurrent : Z
}.

(** [stats["by_status"][status] = stats["by_status"].get(status, 0) + 1] *)
Definition count_status (acc : gmap string Z) (e : AsyncCommandExecutor) : gmap string Z :=
  let status := status_value (status (result_obj e)) in
  <[status := default 0 (acc !! status) + 1]> acc.

Definition get_stats (self : AsyncOperationManager) : stats :=
  mk_stats (Z.of_nat (size (operations self)))
    (map_fold (λ _ e acc, count_status acc e) ∅ (operations self))
    (max_concurrent self).

(** The number of operations of a table that have a given status. *)
Definition count_with (s : OperationStatus) (ops : gmap string AsyncCommandExecutor) : Z :=
  Z.of_nat (size (filter (λ kv : string * AsyncCommandExecutor,
                            status (result_obj kv.2) = s) ops)).

Lemma status_value_inj (s s' : OperationStatus) : status_value s = status_value s' → s = s'.
Proof. by destruct s, s'. Qed.

Lemma count_with_insert (s : OperationStatus) (ops : gmap string AsyncCommandExecutor)
    (id : string) (e : AsyncCommandExecutor) :
  ops !! id = None →
  count_with s (<[id := e]> ops)
  = count_with s ops + (if decide (status (result_obj e) = s) then 1 else 0).
Proof.
  intros Hl. unfold count_with. rewrite map_filter_insert. simpl.
  destruct (decide (status (result_obj e) = s)) as [Hs|Hs].
  - rewrite map_size_insert_None; [lia|]. apply map_lookup_filter_None_2. by left.
  - rewrite delete_id by done. lia.
Qed.

Lemma count_with_nonneg (s : OperationStatus) (ops : gmap string AsyncCommandExecutor) :
  0 ≤ count_with s ops.
Proof. unfold count_with. lia. Qed.

Lemma count_with_total (ops : gmap string AsyncCommandExecutor) :
  count_with PENDING ops + count_with RUNNING ops + count_with COMPLETED ops
  + count_with FAILED ops + count_with CANCELLED ops + count_with TIMEOUT ops
  = Z.of_nat (size ops).
Proof.
  induction ops as [|id e ops Hl IH] using map_ind.
  - done.
  - rewrite !count_with_insert, map_size_insert_None by done.
    destruct (status (result_obj e)); simpl; lia.
Qed.

(** X30: [get_stats] files every operation of the table under the name
    of its status: [by_status] maps the name of a status to the number of
    operations that have it, has no entry for a status no operation has and
    no other keys, and its counts add up to [total_operations]. *)
Theorem get_stats_counts_each_status (self : AsyncOperationManager) :
  (∀ s, by_status (get_stats self) !! status_value s
        = if count_with s (operations self) =? 0 then None
          else Some (count_with s (operations self))) ∧
  (∀ k n, by_status (get_stats self) !! k = Some n → ∃ s, k = status_value s) ∧
  default 0 (by_status (get_stats self) !! "pending")
  + default 0 (by_status (get_stats self) !! "running")
  + default 0 (by_status (get_stats self) !! "completed")
  + default 0 (by_status (get_stats self) !! "failed")
  + default 0 (by_status (get_stats self) !! "cancelled")
  + default 0 (by_status (get_stats self) !! "timeout")
  = total_operations (get_stats self).
Proof.
  assert (Hinv : (∀ s, by_status (get_stats self) !! status_value s
                       = if count_with s (operations self) =? 0 then None
                         else Some (count_with s (operations self))) ∧
                 (∀ k n, by_status (get_stats self) !! k = Some n →
                         ∃ s, k = status_value s)).
  { unfold get_stats. cbn [by_status].
    apply (map_fold_weak_ind
             (λ (r : gmap string Z) (m : gmap string AsyncCommandExecutor),
                (∀ s, r !! status_value s
                      = if count_with s m =? 0 then None else Some (count_with s m)) ∧
                (∀ k n, r !! k = Some n → ∃ s, k = status_value s))).
    - split; [intros s; by rewrite lookup_empty|]. intros k n. by rewrite lookup_empty.
    - intros id e m r Hl [Hcount Hkeys]. unfold count_status. split.
      + intros s. rewrite count_with_insert by done.
        pose proof (count_with_nonneg s m) as Hnn.
        destruct (decide (status (result_obj e) = s)) as [->|Hne].
        * rewrite lookup_insert_eq, Hcount.
          destruct (count_with _ m =? 0) eqn:E; simpl.
          -- apply Z.eqb_eq in E. rewrite E. done.
          -- destruct (_ + 1 =? 0) eqn:E'; [lia|done].
        * rewrite lookup_insert_ne by (intros Heq; by apply status_value_inj in Heq).
          rewrite Hcount, Z.add_0_r. done.
      + intros k n. destruct (decide (status_value (status (result_obj e)) = k)) as [<-|Hne].
        * intros _. by eexists.
        * rewrite lookup_insert_ne by done. apply Hkeys. }
  destruct Hinv as [Hcount Hkeys]. split; [exact Hcount|]. split; [exact Hkeys|].
  pose proof (Hcount PENDING) as H1. pose proof (Hcount RUNNING) as H2.
  pose proof (Hcount COMPLETED) as H3. pose proof (Hcount FAILED) as H4.
  pose proof (Hcount CANCELLED) as H5. pose proof (Hcount TIMEOUT) as H6.
  cbn [status_value] in H1, H2, H3, H4, H5, H6.
  rewrite H1, H2, H3, H4, H5, H6.
  change (total_operations (get_stats self)) with (Z.of_nat (size (operations self))).
  rewrite <- count_with_total.
  repeat match goal with
         | |- context [?c =? 0] => destruct (Z.eqb_spec c 0) as [->|_]
         end; simpl; lia.
Qed.

(** *** The theorems above on concrete managers *)

(** One operation started on a new manager. *)
Lemma get_status_reports_own_id_witness :
  get_status (λ x, x)
    (with_operations (new_manager 1 3600) (<["a" := new_executor "a" "render" None 0]> ∅))
    "a" 9
  = Some (to_dict (λ x, x) (new_result "a" 0) 9) ∧
  sd_request_id (to_dict (λ x, x) (new_result "a" 0) 9) = "a".
Proof.
  split; [reflexivity|].
  apply (get_status_reports_own_id (λ x, x) 1 3600
           (with_operations (new_manager 1 3600)
              (<["a" := new_executor "a" "render" None 0]> ∅)) "a" 9
           (to_dict (λ x, x) (new_result "a" 0) 9)).
  - apply rtc_once.
    apply (step_start None (new_manager 1 3600) "a" "render" None 0 _
             (new_result "a" 0)); [reflexivity|discriminate|reflexivity].
  - reflexivity.
Defined.

(** One more operation is started next to the completed "a" and is
    cancelled, and a cleanup comes too early to remove either. *)
Definition done_later : AsyncOperationManager :=
  with_operations done_manager
    (<["b" := cancel (new_executor "b" "render" None 3) 4]> (operations done_manager)).

Lemma done_later_reached : rtc (manager_step (Some "a")) done_manager done_later.
Proof.
  eapply rtc_l.
  { apply (step_start (Some "a") done_manager "b" "render" None 3 _ (new_result "b" 3));
      [reflexivity|discriminate|reflexivity]. }
  eapply rtc_l.
  { eapply (step_cancel_test _ _ "b"); reflexivity. }
  eapply rtc_l.
  { eapply (step_cancel_call _ _ "b" _ 4); reflexivity. }
  eapply rtc_l.
  { apply (step_cleanup _ _ 9). reflexivity. }
  vm_compute. apply rtc_refl.
Qed.

Lemma finished_operation_is_final_witness :
  operations done_later !! "a" = Some done_executor.
Proof.
  destruct (operations done_later !! "a") as [e'|] eqn:Hl.
  - f_equal.
    refine (finished_operation_is_final done_manager "a" done_executor
              eq_refl eq_refl eq_refl _ done_later done_later_reached e' Hl).
    discriminate.
  - vm_compute in Hl. discriminate.
Defined.

Lemma cancel_before_first_statement_is_undone_witness :
  cancel_operation
    (with_operations (new_manager 1 3600) {[ "a" := new_executor "a" "render" None 0 ]})
    "a" 1
  = (with_operations (new_manager 1 3600)
       (<["a" := cancel (new_executor "a" "render" None 0) 1]>
          {[ "a" := new_executor "a" "render" None 0 ]}), true).
Proof.
  refine (proj1 (cancel_before_first_statement_is_undone
                   (with_operations (new_manager 1 3600)
                      {[ "a" := new_executor "a" "render" None 0 ]})
                   "a" (new_executor "a" "render" None 0) 1 _ _ _)); reflexivity.
Defined.

Lemma pending_operations_escape_the_cap_witness :
  ∃ self', start_many (new_manager 1 3600) ["a"; "b"; "c"] "render" None 0 = Some self' ∧
           Z.of_nat (size (operations self')) = 0 + 3 ∧
           active_count self' = 0.
Proof.
  destruct (pending_operations_escape_the_cap ["a"; "b"; "c"] "render" None 0
              (new_manager 1 3600)) as (self' & H1 & H2 & H3 & _).
  - apply NoDup_ListNoDup. repeat constructor; simpl; intuition discriminate.
  - intros id _. apply lookup_empty.
  - vm_compute. reflexivity.
  - exists self'. split; [exact H1|]. split; [exact H2|exact H3].
Defined.

End Async.
